(** * The persisted watchlist: adapter ([src/utils/watchlist.ts]) and
      provider ([src/context/watchlistContext.tsx])

    A shallow embedding of the two TypeScript modules that implement the
    watchlist and of the button that toggles a movie ([WatchlistButton]),
    together with the part of the JavaScript platform they run on: dynamically typed values, property access, [String], [||],
    [JSON.stringify] / [JSON.parse], [localStorage], [console.error] and
    the effect discipline of a React function component.

    Modelling scope.
    - A JavaScript string is a sequence of code units; the model uses
      Rocq's [string], i.e. code units below 256.  A [\uXXXX] escape that
      denotes a larger code unit is rejected by the model's parser.
    - A JavaScript number is modelled by an integer (the ids of the
      catalogue are integers); [String] and [JSON.stringify] print it in
      decimal, as JavaScript does for integers below 10^21.  JSON texts
      with a fraction or an exponent are rejected by the model's parser.
    - An object is the list of its own properties in insertion order.
      None of the property names the program reads ([id], [category],
      [title], ...) is defined on a built-in prototype, so reading one of
      them from a primitive or an array yields [undefined]. *)

From Stdlib Require Import ZArith String Ascii List Bool Lia.
From Stdlib Require Import DecimalString DecimalZ DecimalPos.
From stdpp Require Import base option list strings gmap.


(* ================================================================== *)
(** * 1. JavaScript values and the operators the program uses         *)
(* ================================================================== *)

Module JS.

(** Values: what a candidate passed as [movie: any], a parsed JSON text
    or an element of the watchlist can be. *)
#[local] Unset Elimination Schemes.
Inductive value : Type :=
| Undefined
| Null
| Bool (b : bool)
| Number (n : Z)
| Str (s : string)
| Array (elems : list value)
| Object (props : list (string * value)).
#[local] Set Elimination Schemes.

(** A thrown value, as far as [catch] inspects it:
    [error instanceof Error] and [error.name]. *)
Record exn : Type := Exn { instanceof_Error : bool; error_name : string }.

Definition TypeError : exn := Exn true "TypeError".
Definition SyntaxError : exn := Exn true "SyntaxError".
Definition QuotaExceededError : exn := Exn true "QuotaExceededError".
Definition SecurityError : exn := Exn true "SecurityError".

(** The outcome of evaluating an expression or a call. *)
Inductive completion (A : Type) : Type :=
| Normal (a : A)
| Throw (e : exn).
Arguments Normal {A} a.
Arguments Throw {A} e.

#[export] Instance completion_ret : MRet completion := @Normal.
#[export] Instance completion_bind : MBind completion :=
  fun A B f c => match c with Normal a => f a | Throw e => Throw e end.

(** [try { body } catch (error) { handler }], for a body that changes
    nothing before it throws. *)
Definition try_catch {A : Type} (body : completion A)
    (handler : exn -> completion A) : completion A :=
  match body with
  | Normal a => Normal a
  | Throw error => handler error
  end.

(** [typeof v]. *)
Definition typeof (v : value) : string :=
  match v with
  | Undefined => "undefined"
  | Null => "object"
  | Bool _ => "boolean"
  | Number _ => "number"
  | Str _ => "string"
  | Array _ => "object"
  | Object _ => "object"
  end.

(** [ToBoolean]: the falsy values are [undefined], [null], [false], [0]
    and the empty string. *)
Definition truthy (v : value) : bool :=
  match v with
  | Undefined | Null => false
  | Bool b => b
  | Number n => negb (n =? 0)%Z
  | Str s => negb (String.eqb s "")
  | Array _ | Object _ => true
  end.

(** [a || b] on values that are already evaluated (the right operands in
    the program are property reads or literals, without effects). *)
Definition logical_or (a b : value) : value := if truthy a then a else b.

(** [Number::toString] on an integer. *)
Definition Number_toString (n : Z) : string :=
  NilZero.string_of_int (Z.to_int n).

(** [sep.join(parts)]. *)
Fixpoint join (sep : string) (parts : list string) : string :=
  match parts with
  | [] => ""
  | [p] => p
  | p :: rest => p +:+ sep +:+ join sep rest
  end.

(** [String(v)], the [ToString] conversion, where it answers.  An array
    prints its elements separated by commas, with [null] and [undefined]
    elements printed as the empty string.  (On an object with an own
    property [toString] that is not a function [String] throws; the
    statements that depend on it assume [coercible], defined below.) *)
Fixpoint ToString (v : value) : string :=
  match v with
  | Undefined => "undefined"
  | Null => "null"
  | Bool true => "true"
  | Bool false => "false"
  | Number n => Number_toString n
  | Str s => s
  | Array elems =>
      join "," (List.map (fun e => match e with
                                   | Undefined | Null => ""
                                   | _ => ToString e
                                   end) elems)
  | Object _ => "[object Object]"
  end.

(** Own-property lookup in an object's property list. *)
Fixpoint lookup_prop (k : string) (props : list (string * value)) : option value :=
  match props with
  | [] => None
  | (k', v) :: rest => if String.eqb k k' then Some v else lookup_prop k rest
  end.

(** [v.k] for the property names the program reads: a [TypeError] on
    [null] and [undefined], the own property of an object, [undefined]
    otherwise. *)
Definition get (v : value) (k : string) : completion value :=
  match v with
  | Undefined | Null => Throw TypeError
  | Object props => Normal (default Undefined (lookup_prop k props))
  | _ => Normal Undefined
  end.

(** [v === s] for a string [s]. *)
Definition strict_eq_string (v : value) (s : string) : bool :=
  match v with
  | Str t => String.eqb t s
  | _ => false
  end.

(** [Array.prototype.some], [every] and [filter] with a callback that may
    throw; [some] and [every] stop at the first decisive element. *)
Fixpoint array_some (p : value -> completion bool) (l : list value) : completion bool :=
  match l with
  | [] => Normal false
  | x :: rest => b ← p x; if b : bool then Normal true else array_some p rest
  end.

Fixpoint array_every (p : value -> completion bool) (l : list value) : completion bool :=
  match l with
  | [] => Normal true
  | x :: rest => b ← p x; if b : bool then array_every p rest else Normal false
  end.

Fixpoint array_filter (p : value -> completion bool) (l : list value) : completion (list value) :=
  match l with
  | [] => Normal []
  | x :: rest =>
      b ← p x;
      kept ← array_filter p rest;
      Normal (if b : bool then x :: kept else kept)
  end.

End JS.

Import JS.

(* ================================================================== *)
(** * 2. JSON.stringify and JSON.parse                                *)
(* ================================================================== *)

Module JSON.

Definition hex_digit (n : N) : ascii :=
  match n with
  | 0 => "0" | 1 => "1" | 2 => "2" | 3 => "3" | 4 => "4" | 5 => "5"
  | 6 => "6" | 7 => "7" | 8 => "8" | 9 => "9" | 10 => "a" | 11 => "b"
  | 12 => "c" | 13 => "d" | 14 => "e" | _ => "f"
  end%N%char.

(** [QuoteJSONString] on one code unit: the quotation mark and the
    reverse solidus are escaped, control characters are written with
    their short escape or as [\u00xx], everything else is copied. *)
Definition escape (c : ascii) : string :=
  let n := N_of_ascii c in
  if (n =? 34)%N then String "\" (String c "") else
  if (n =? 92)%N then "\\" else
  if (n =? 8)%N then "\b" else
  if (n =? 9)%N then "\t" else
  if (n =? 10)%N then "\n" else
  if (n =? 12)%N then "\f" else
  if (n =? 13)%N then "\r" else
  if (n <? 32)%N then
    "\u00" +:+ String (hex_digit (n / 16)) (String (hex_digit (n mod 16)) "")
  else String c "".

Fixpoint escape_all (s : string) : string :=
  match s with
  | "" => ""
  | String c rest => escape c +:+ escape_all rest
  end.

Definition quotation_mark : string := String "034" "".

Definition quote (s : string) : string :=
  quotation_mark +:+ escape_all s +:+ quotation_mark.

(** [SerializeJSONProperty]: [None] is JavaScript's "no text" result for
    [undefined].  In an array such an element is written as [null]; in an
    object the property is left out. *)
Fixpoint serialize (v : value) : option string :=
  match v with
  | Undefined => None
  | Null => Some "null"
  | Bool true => Some "true"
  | Bool false => Some "false"
  | Number n => Some (Number_toString n)
  | Str s => Some (quote s)
  | Array elems =>
      Some ("[" +:+ join "," (List.map (fun e => default "null" (serialize e)) elems) +:+ "]")
  | Object props =>
      Some ("{" +:+ join ","
              ((fix members (ps : list (string * value)) : list string :=
                  match ps with
                  | [] => []
                  | (k, x) :: rest =>
                      match serialize x with
                      | Some t => (quote k +:+ ":" +:+ t) :: members rest
                      | None => members rest
                      end
                  end) props) +:+ "}")
  end.

(** [JSON.stringify(items)] for an array [items]: the text is always
    defined. *)
Definition stringify (items : list value) : string :=
  default "null" (serialize (Array items)).

(** ** Parsing *)

Definition is_ws (c : ascii) : bool :=
  let n := N_of_ascii c in
  ((n =? 32) || (n =? 9) || (n =? 10) || (n =? 13))%N.

Fixpoint skip_ws (s : string) : string :=
  match s with
  | String c rest => if is_ws c then skip_ws rest else s
  | "" => ""
  end.

Fixpoint strip_prefix (p s : string) : option string :=
  match p with
  | "" => Some s
  | String a p' =>
      match s with
      | String b s' => if Ascii.eqb a b then strip_prefix p' s' else None
      | "" => None
      end
  end.

Definition hex_value (c : ascii) : option N :=
  let n := N_of_ascii c in
  if ((48 <=? n) && (n <=? 57))%N then Some (n - 48)%N
  else if ((97 <=? n) && (n <=? 102))%N then Some (n - 87)%N
  else if ((65 <=? n) && (n <=? 70))%N then Some (n - 55)%N
  else None.

(** The code unit that follows a reverse solidus in a string literal. *)
Definition unescape (e : ascii) : option ascii :=
  let n := N_of_ascii e in
  if (n =? 34)%N then Some e
  else if (n =? 92)%N then Some e
  else if (n =? 47)%N then Some e
  else if (n =? 98)%N then Some "008"%char
  else if (n =? 102)%N then Some "012"%char
  else if (n =? 110)%N then Some "010"%char
  else if (n =? 114)%N then Some "013"%char
  else if (n =? 116)%N then Some "009"%char
  else None.

(** The characters of a string literal after its opening quotation mark,
    up to and including the closing one. *)
Fixpoint parse_chars (s : string) : option (string * string) :=
  match s with
  | "" => None
  | String c rest =>
      if (N_of_ascii c =? 34)%N then Some ("", rest)
      else if (N_of_ascii c =? 92)%N then
        match rest with
        | "" => None
        | String e rest' =>
            if (N_of_ascii e =? 117)%N then
              match rest' with
              | String a (String b (String h (String l rest''))) =>
                  match hex_value a, hex_value b, hex_value h, hex_value l with
                  | Some 0%N, Some 0%N, Some hi, Some lo =>
                      '(t, r) ← parse_chars rest'';
                      Some (String (ascii_of_N (16 * hi + lo)) t, r)
                  | _, _, _, _ => None
                  end
              | _ => None
              end
            else
              u ← unescape e;
              '(t, r) ← parse_chars rest';
              Some (String u t, r)
        end
      else if (N_of_ascii c <? 32)%N then None
      else '(t, r) ← parse_chars rest; Some (String c t, r)
  end.

Definition is_num_char (c : ascii) : bool :=
  let n := N_of_ascii c in
  ((n =? 45) || ((48 <=? n) && (n <=? 57)))%N.

Fixpoint span_num (s : string) : string * string :=
  match s with
  | String c rest =>
      if is_num_char c then let '(tok, r) := span_num rest in (String c tok, r)
      else ("", s)
  | "" => ("", "")
  end.

(** An integer literal: an optional minus sign and digits without a
    superfluous leading zero. *)
Definition parse_number (s : string) : option (Z * string) :=
  let '(tok, r) := span_num s in
  d ← NilZero.int_of_string tok;
  let n := Z.of_int d in
  if String.eqb tok (Number_toString n) || String.eqb tok "-0"
  then Some (n, r) else None.

(** [CreateDataProperty] while an object literal is read: a repeated key
    keeps its place and takes the later value. *)
Fixpoint set_prop (k : string) (v : value) (props : list (string * value)) :
    list (string * value) :=
  match props with
  | [] => [(k, v)]
  | (k', v') :: rest =>
      if String.eqb k k' then (k', v) :: rest else (k', v') :: set_prop k v rest
  end.

(** Recursive descent; every call spends one unit of [fuel]. *)
Fixpoint parse_value (fuel : nat) (s : string) : option (value * string) :=
  match fuel with
  | O => None
  | S fuel =>
      match skip_ws s with
      | "" => None
      | String c rest =>
          let n := N_of_ascii c in
          if (n =? 110)%N then r ← strip_prefix "ull" rest; Some (Null, r)
          else if (n =? 116)%N then r ← strip_prefix "rue" rest; Some (Bool true, r)
          else if (n =? 102)%N then r ← strip_prefix "alse" rest; Some (Bool false, r)
          else if (n =? 34)%N then '(t, r) ← parse_chars rest; Some (Str t, r)
          else if (n =? 91)%N then
            match skip_ws rest with
            | String c' r =>
                if (N_of_ascii c' =? 93)%N then Some (Array [], r)
                else '(l, r') ← parse_elements fuel rest; Some (Array l, r')
            | "" => None
            end
          else if (n =? 123)%N then
            match skip_ws rest with
            | String c' r =>
                if (N_of_ascii c' =? 125)%N then Some (Object [], r)
                else '(ps, r') ← parse_members fuel [] rest; Some (Object ps, r')
            | "" => None
            end
          else '(z, r) ← parse_number (String c rest); Some (Number z, r)
      end
  end
with parse_elements (fuel : nat) (s : string) : option (list value * string) :=
  match fuel with
  | O => None
  | S fuel =>
      '(v, r) ← parse_value fuel s;
      match skip_ws r with
      | String c r' =>
          if (N_of_ascii c =? 44)%N then
            '(l, r'') ← parse_elements fuel r'; Some (v :: l, r'')
          else if (N_of_ascii c =? 93)%N then Some ([v], r')
          else None
      | "" => None
      end
  end
with parse_members (fuel : nat) (acc : list (string * value)) (s : string) :
    option (list (string * value) * string) :=
  match fuel with
  | O => None
  | S fuel =>
      match skip_ws s with
      | String q r0 =>
          if (N_of_ascii q =? 34)%N then
            '(k, r1) ← parse_chars r0;
            match skip_ws r1 with
            | String colon r2 =>
                if (N_of_ascii colon =? 58)%N then
                  '(v, r3) ← parse_value fuel r2;
                  let acc' := set_prop k v acc in
                  match skip_ws r3 with
                  | String c r4 =>
                      if (N_of_ascii c =? 44)%N then parse_members fuel acc' r4
                      else if (N_of_ascii c =? 125)%N then Some (acc', r4)
                      else None
                  | "" => None
                  end
                else None
            | "" => None
            end
          else None
      | "" => None
      end
  end.

(** [JSON.parse(text)]: the value of the whole text, or a [SyntaxError]. *)
Definition parse (text : string) : completion value :=
  match parse_value (S (String.length text)) text with
  | Some (v, r) =>
      match skip_ws r with
      | "" => Normal v
      | _ => Throw SyntaxError
      end
  | None => Throw SyntaxError
  end.

End JSON.

(* ================================================================== *)
(** * 3. The browser: localStorage and the console                    *)
(* ================================================================== *)

(** The Web Storage object.  [entries] is its content.  Whether an access
    is refused is up to the browser (storage disabled, quota reached):
    [getItem_refused] and [setItem_refused] say which accesses throw, and
    what.  The statements below hold for every such behaviour. *)
Record Storage : Type := {
  entries : gmap string string;
  getItem_refused : option exn;
  setItem_refused : string -> string -> option exn
}.

Module localStorage.

Definition getItem (st : Storage) (key : string) : completion (option string) :=
  match getItem_refused st with
  | Some e => Throw e
  | None => Normal (entries st !! key)
  end.

Definition setItem (st : Storage) (key text : string) : completion Storage :=
  match setItem_refused st key text with
  | Some e => Throw e
  | None =>
      Normal {| entries := <[key := text]> (entries st);
                getItem_refused := getItem_refused st;
                setItem_refused := setItem_refused st |}
  end.

End localStorage.

(** One call of [console.error]: the message and the error object passed
    after it, if any. *)
Record log_entry : Type := { message : string; detail : option exn }.

(** What the adapter acts on. *)
Record World : Type := {
  storage : Storage;
  console_output : list log_entry
}.

Module console.

Definition error (msg : string) (err : option exn) (w : World) : World :=
  {| storage := storage w;
     console_output := console_output w ++ [ {| message := msg; detail := err |} ] |}.

End console.

(* ================================================================== *)
(** * 4. src/utils/watchlist.ts                                       *)
(* ================================================================== *)

Definition STORAGE_KEY : string := "tmovies_watchlist".

(** [a && b] on booleans, [b] evaluated only when [a] is true. *)
Definition and_then (a b : completion bool) : completion bool :=
  x ← a; if x : bool then b else Normal false.

Infix "&&&" := and_then (at level 40, left associativity).

(** [saveWatchlist(items)]. *)
Definition saveWatchlist (items : list value) (w : World) : completion World :=
  try_catch
    (st ← localStorage.setItem (storage w) STORAGE_KEY (JSON.stringify items);
     Normal {| storage := st; console_output := console_output w |})
    (fun error =>
       if instanceof_Error error && String.eqb (error_name error) "QuotaExceededError"
       then Normal (console.error "Watchlist storage full. Please remove some items." None w)
       else Normal (console.error "Failed to save watchlist:" (Some error) w)).

(** The callback of [data.every] in [validateWatchlistData]. *)
Definition item_is_valid (item : value) : completion bool :=
  (id ← get item "id"; Normal (String.eqb (typeof id) "string"))
  &&& (category ← get item "category"; Normal (String.eqb (typeof category) "string"))
  &&& (category ← get item "category";
       Normal (strict_eq_string category "movie" || strict_eq_string category "tv"))
  &&& (title ← get item "title"; Normal (String.eqb (typeof title) "string")).

Definition validateWatchlistData (data : value) : completion bool :=
  match data with
  | Array elems => array_every item_is_valid elems
  | _ => Normal false
  end.

(** The [try] block of [getWatchlist].  [validateWatchlistData] answers
    [true] on arrays only, and the elements of that array are what is
    returned. *)
Definition getWatchlist_try (st : Storage) : completion (list value) :=
  saved ← localStorage.getItem st STORAGE_KEY;
  match saved with
  | None => Normal []
  | Some text =>
      if String.eqb text "" then Normal []
      else
        parsed ← JSON.parse text;
        valid ← validateWatchlistData parsed;
        Normal (if valid : bool
                then match parsed with Array elems => elems | _ => [] end
                else [])
  end.

(** [getWatchlist()]. *)
Definition getWatchlist (w : World) : completion (list value * World) :=
  try_catch
    (items ← getWatchlist_try (storage w); Normal (items, w))
    (fun error =>
       Normal ([], console.error "Failed to load watchlist:" (Some error) w)).

(* ================================================================== *)
(** * 5. src/context/watchlistContext.tsx                             *)
(* ================================================================== *)

(** An argument of [setWatchlistItems]: the next state from the previous
    one.  [setWatchlistItems(saved)] and [setWatchlistItems([])] are the
    constant updates. *)
Definition update : Type := list value -> completion (list value).

(** The object literal [newItem] of [addToWatchlist]. *)
Definition newItem (movieId now : string) (movie : value) : completion value :=
  category ← get movie "category";
  poster_path ← get movie "poster_path";
  original_title ← get movie "original_title";
  name ← get movie "name";
  title ← get movie "title";
  overview ← get movie "overview";
  backdrop_path ← get movie "backdrop_path";
  Normal (Object
    [ ("id", Str movieId);
      ("category", logical_or category (Str "movie"));
      ("poster_path", poster_path);
      ("title", logical_or (logical_or original_title name) title);
      ("original_title", logical_or original_title (Str ""));
      ("name", logical_or name (Str ""));
      ("overview", overview);
      ("backdrop_path", backdrop_path);
      ("addedAt", Str now) ]).

(** [addToWatchlist(movie)], as defined by a render whose state is
    [watchlistItems]; [now] is what [new Date().toISOString()] returns.
    The result is the update handed to [setWatchlistItems], or [None]
    when the function returns without calling it. *)
Definition addToWatchlist (watchlistItems : list value) (now : string)
    (movie : value) : completion (option update) :=
  id ← get movie "id";
  let movieId := ToString id in
  duplicate ← array_some
    (fun item => i ← get item "id"; Normal (strict_eq_string i movieId))
    watchlistItems;
  if duplicate : bool then Normal None
  else
    item ← newItem movieId now movie;
    Normal (Some (fun prev => Normal (item :: prev))).

(** [removeFromWatchlist(id)]: always calls [setWatchlistItems], with a
    filter of the previous state. *)
Definition removeFromWatchlist (id : value) : update :=
  let idString := ToString id in
  fun prev =>
    array_filter
      (fun item => i ← get item "id"; Normal (negb (strict_eq_string i idString)))
      prev.

(** [isInWatchlist(id)], memoised on [watchlistItems]. *)
Definition isInWatchlist (watchlistItems : list value) (id : value) : completion bool :=
  let idString := ToString id in
  array_some
    (fun item => i ← get item "id"; Normal (strict_eq_string i idString))
    watchlistItems.

Definition clearWatchlist : update := fun _ => Normal [].

(** The mounted provider: the state of its last render and the world its
    effects act on. *)
Record Provider : Type := {
  watchlistItems : list value;
  world : World
}.

(** The first effect (dependencies [[]]): runs once, after the first
    render.  It reads the stored list and queues it as the next state;
    the state of the render in progress is not changed by that. *)
Definition load_effect (w : World) : completion (update * World) :=
  '(saved, w') ← getWatchlist w;
  Normal (fun _ => Normal saved, w').

(** The second effect (dependencies [[watchlistItems]]): runs after every
    render whose [watchlistItems] is a new array, the first render
    included, and writes the state of that render. *)
Definition save_effect (items : list value) (w : World) : completion World :=
  saveWatchlist items w.

(** The first render starts from [useState([])]; then both effects run,
    in the order of their declaration.  The result is the queued update
    and the provider as it stands before the next render. *)
Definition mount_effects (w : World) : completion (update * Provider) :=
  '(queued, w1) ← load_effect w;
  w2 ← save_effect [] w1;
  Normal (queued, {| watchlistItems := []; world := w2 |}).

(** A queued update is applied and the component renders again.  Every
    update of this component produces a new array, so the second effect
    runs again. *)
Definition rerender (queued : update) (p : Provider) : completion Provider :=
  items ← queued (watchlistItems p);
  w ← save_effect items (world p);
  Normal {| watchlistItems := items; world := w |}.

Definition mount (w : World) : completion Provider :=
  '(queued, p) ← mount_effects w;
  rerender queued p.

(** The calls a collaborator can make.  In [step] and [run] each one is
    made on the handlers of the last render: a click makes one call, and
    React renders between two user events.  Calls that one handler makes
    on the handlers of one render are an [event], below. *)
Inductive call : Type :=
| Add (movie : value) (now : string)
| Remove (id : value)
| Clear.

Definition step (p : Provider) (c : call) : completion Provider :=
  match c with
  | Add movie now =>
      r ← addToWatchlist (watchlistItems p) now movie;
      match r with
      | Some queued => rerender queued p
      | None => Normal p
      end
  | Remove id => rerender (removeFromWatchlist id) p
  | Clear => rerender clearWatchlist p
  end.

Fixpoint run (p : Provider) (calls : list call) : completion Provider :=
  match calls with
  | [] => Normal p
  | c :: rest => p' ← step p c; run p' rest
  end.

(** ** Several calls on the handlers of one render *)

(** What a call made on the handlers of a render whose state is
    [watchlistItems] hands to [setWatchlistItems]: an update, or [None]
    when the call returns without calling it.  [removeFromWatchlist] and
    [clearWatchlist] always call it. *)
Definition queued_update (watchlistItems : list value) (c : call) :
    completion (option update) :=
  match c with
  | Add movie now => addToWatchlist watchlistItems now movie
  | Remove id => Normal (Some (removeFromWatchlist id))
  | Clear => Normal (Some clearWatchlist)
  end.

(** The calls that one event handler makes, one after the other.  No
    render happens between them, so all of them are made on the handlers
    of the same render and [addToWatchlist] reads the same
    [watchlistItems] in each.  The result is the queue of updates, in the
    order of the calls. *)
Fixpoint handlers (watchlistItems : list value) (calls : list call) :
    completion (list update) :=
  match calls with
  | [] => Normal []
  | c :: rest =>
      u ← queued_update watchlistItems c;
      us ← handlers watchlistItems rest;
      Normal (match u with Some queued => queued :: us | None => us end)
  end.

(** React works through the queue in order: the first update is applied
    to the current state, every other one to the result of the one
    before. *)
Fixpoint apply_updates (us : list update) (prev : list value) :
    completion (list value) :=
  match us with
  | [] => Normal prev
  | u :: rest => next ← u prev; apply_updates rest next
  end.

(** An event: its handler makes [calls], React then works through the
    queue and renders once.  When nothing was queued there is no render.
    A handler that throws ends the event with that exception; what React
    does with the updates queued before it is not followed. *)
Definition event (p : Provider) (calls : list call) : completion Provider :=
  us ← handlers (watchlistItems p) calls;
  match us with
  | [] => Normal p
  | _ => rerender (apply_updates us) p
  end.

(** A session: one event after the other, each on the handlers of the
    render that the event before it has left. *)
Fixpoint session (p : Provider) (events : list (list call)) : completion Provider :=
  match events with
  | [] => Normal p
  | calls :: rest => p' ← event p calls; session p' rest
  end.

(** ** Worlds and texts used in examples *)

(** A browser that accepts every access, with [text] stored under
    [key]. *)
Definition accepting (content : gmap string string) : Storage :=
  {| entries := content;
     getItem_refused := None;
     setItem_refused := fun _ _ => None |}.

(** A browser whose storage is full: every write throws
    [QuotaExceededError]. *)
Definition full (content : gmap string string) : Storage :=
  {| entries := content;
     getItem_refused := None;
     setItem_refused := fun _ _ => Some QuotaExceededError |}.

(** A browser that refuses storage altogether. *)
Definition disabled : Storage :=
  {| entries := ∅;
     getItem_refused := Some SecurityError;
     setItem_refused := fun _ _ => Some SecurityError |}.

Definition fresh_world (st : Storage) : World := {| storage := st; console_output := [] |}.

(** JSON texts in examples are written with apostrophes in place of
    quotation marks. *)
Definition json_text (s : string) : string :=
  string_of_list_ascii
    (List.map (fun c => if Ascii.eqb c "'" then "034"%char else c)
       (list_ascii_of_string s)).

Definition stored (text : string) : World :=
  fresh_world (accepting {[ STORAGE_KEY := json_text text ]}).

(* ================================================================== *)
(** * 6. Notions used in the statements                               *)
(* ================================================================== *)

(** The JSON values: what [JSON.parse] can return. *)
Fixpoint is_json (v : value) : bool :=
  match v with
  | Undefined => false
  | Array elems => forallb is_json elems
  | Object props =>
      forallb (fun kv => is_json kv.2) props && bool_decide (NoDup props.*1)
  | _ => true
  end.

Fixpoint weight (v : value) : nat :=
  match v with
  | Array elems => S (list_sum (List.map (fun x => S (weight x)) elems))
  | Object props => S (list_sum (List.map (fun kv => S (weight kv.2)) props))
  | _ => 1
  end.

Definition text (v : value) : string := default "null" (JSON.serialize v).

Definition member_text (kv : string * value) : string :=
  JSON.quote kv.1 +:+ ":" +:+ text kv.2.

Fixpoint all_num (s : string) : bool :=
  match s with
  | "" => true
  | String c rest => JSON.is_num_char c && all_num rest
  end.

Definition delimited (r : string) : Prop :=
  match r with
  | "" => True
  | String c _ => JSON.is_num_char c = false
  end.

Definition value_start (c : ascii) : bool :=
  let n := N_of_ascii c in
  (JSON.is_num_char c || (n =? 110) || (n =? 116) || (n =? 102) || (n =? 34)
   || (n =? 91) || (n =? 123))%N.

Definition starts_value (s : string) : Prop :=
  match s with
  | "" => False
  | String c _ => value_start c = true
  end.

Definition parses_back (v : value) : Prop :=
  starts_value (text v)
  /\ forall fuel r, weight v <= fuel -> delimited r ->
       JSON.parse_value fuel (text v +:+ r) = Some (v, r).

Definition prints_and_parses (v : value) : Prop :=
  JSON.serialize v = Some (text v)
  /\ weight v <= String.length (text v)
  /\ parses_back v.


(** Induction on values, through the lists of arrays and objects. *)
Section value_induction.
Variable P : value -> Prop.
Hypothesis P_undefined : P Undefined.
Hypothesis P_null : P Null.
Hypothesis P_bool : forall b, P (Bool b).
Hypothesis P_number : forall n, P (Number n).
Hypothesis P_str : forall s, P (Str s).
Hypothesis P_array : forall elems, Forall P elems -> P (Array elems).
Hypothesis P_object :
  forall props, Forall (fun kv => P kv.2) props -> P (Object props).

Fixpoint value_nested_ind (v : value) : P v :=
  match v with
  | Undefined => P_undefined
  | Null => P_null
  | Bool b => P_bool b
  | Number n => P_number n
  | Str s => P_str s
  | Array elems =>
      P_array elems
        ((fix go (l : list value) : Forall P l :=
            match l with
            | [] => List.Forall_nil P
            | x :: l' => @List.Forall_cons _ P x l' (value_nested_ind x) (go l')
            end) elems)
  | Object props =>
      P_object props
        ((fix go (l : list (string * value)) : Forall (fun kv => P kv.2) l :=
            match l with
            | [] => List.Forall_nil _
            | kv :: l' =>
                @List.Forall_cons _ (fun kv => P kv.2) kv l' (value_nested_ind kv.2) (go l')
            end) props)
  end.
End value_induction.

(** An element of the watchlist as the schema of [validateWatchlistData]
    wants it: an object with a string [id], a [category] that is exactly
    [movie] or [tv], and a string [title]. *)
Definition well_formed_item (item : value) : Prop :=
  exists props id category title,
    item = Object props
    /\ lookup_prop "id" props = Some (Str id)
    /\ lookup_prop "category" props = Some (Str category)
    /\ (category = "movie" \/ category = "tv")
    /\ lookup_prop "title" props = Some (Str title).

Definition is_object (v : value) : Prop :=
  match v with
  | Object _ => True
  | _ => False
  end.

Definition nullish (v : value) : bool :=
  match v with
  | Undefined | Null => true
  | _ => false
  end.

(** What [v.k] reads when [v] is neither [null] nor [undefined]. *)
Definition prop (v : value) (k : string) : value :=
  match v with
  | Object props => default Undefined (lookup_prop k props)
  | _ => Undefined
  end.

(** The canonical id of an element of the watchlist, and of a list. *)
Definition id_of (item : value) : value := prop item "id".

Definition ids (items : list value) : list value := List.map id_of items.

(** An element whose [id] is a string. *)
Definition has_string_id (item : value) : Prop := exists k, id_of item = Str k.

(** Some element has the string [k] as its [id]. *)
Definition has_id (k : string) (items : list value) : bool :=
  existsb (fun item => strict_eq_string (id_of item) k) items.

(** The state a completed call leaves in memory. *)
Definition memory (c : completion Provider) : completion (list value) :=
  p ← c; Normal (watchlistItems p).

(** What a call does to the list in memory, the store left aside. *)
Definition apply_call (items : list value) (c : call) : completion (list value) :=
  match c with
  | Add movie now =>
      r ← addToWatchlist items now movie;
      match r with
      | Some queued => queued items
      | None => Normal items
      end
  | Remove id => removeFromWatchlist id items
  | Clear => clearWatchlist items
  end.

Fixpoint apply_calls (items : list value) (calls : list call) :
    completion (list value) :=
  match calls with
  | [] => Normal items
  | c :: rest => items' ← apply_call items c; apply_calls items' rest
  end.

(** A call that does not dereference [null] or [undefined]. *)
Definition call_ok (c : call) : Prop :=
  match c with
  | Add movie _ => nullish movie = false
  | _ => True
  end.

(** The elements whose [id] is the string [k]. *)
Definition with_id (k : string) (items : list value) : list value :=
  List.filter (fun item => strict_eq_string (id_of item) k) items.

(** The elements whose [id] is not the string [k]. *)
Definition without_id (k : string) (items : list value) : list value :=
  List.filter (fun item => negb (strict_eq_string (id_of item) k)) items.

(** [catch] takes the first branch of [saveWatchlist] on this error. *)
Definition is_quota_error (error : exn) : bool :=
  instanceof_Error error && String.eqb (error_name error) "QuotaExceededError".

(** The text stored under the key of the watchlist. *)
Definition durable (w : World) : option string :=
  entries (storage w) !! STORAGE_KEY.

(** What [JSON.stringify] keeps of a value: an object loses the
    properties whose value is [undefined]. *)
Definition defined (kv : string * value) : bool :=
  match kv.2 with
  | Undefined => false
  | _ => true
  end.

Definition prune (v : value) : value :=
  match v with
  | Object props => Object (List.filter defined props)
  | _ => v
  end.

(** An element of the watchlist that can be stored: an object whose
    properties have distinct names and hold JSON values or [undefined]. *)
Definition storable_item (item : value) : Prop :=
  exists props,
    item = Object props
    /\ NoDup props.*1
    /\ Forall (fun kv => kv.2 = Undefined \/ is_json kv.2 = true) props.

(** Two elements on which every property read gives the same value. *)
Definition same_props (item item' : value) : Prop :=
  forall k, prop item' k = prop item k.

(** The properties of [IWatchlistItem], all declared [string]. *)
Definition schema_fields : list string :=
  ["id"; "category"; "poster_path"; "title"; "original_title"; "name";
   "overview"; "backdrop_path"; "addedAt"].

(** A property a candidate supplies as a string or leaves out. *)
Definition string_or_absent (v : value) : Prop :=
  typeof v = "string" \/ v = Undefined.

(** The first truthy operand of [a || b || c], else [c]. *)
Definition first_truthy (a b c : value) : value :=
  if truthy a then a else if truthy b then b else c.

(** The interface [IWatchlistItem] of the module [@/types], and an element
    of that type as a value. *)
Module IWatchlistItem.

Inductive category_t : Type := movie | tv.

Record t : Type := {
  id : string;
  category : category_t;
  poster_path : string;
  title : string;
  original_title : string;
  name : string;
  overview : string;
  backdrop_path : string;
  addedAt : string
}.

Definition to_value (i : t) : value :=
  Object
    [ ("id", Str (id i));
      ("category", Str match category i with movie => "movie" | tv => "tv" end);
      ("poster_path", Str (poster_path i));
      ("title", Str (title i));
      ("original_title", Str (original_title i));
      ("name", Str (name i));
      ("overview", Str (overview i));
      ("backdrop_path", Str (backdrop_path i));
      ("addedAt", Str (addedAt i)) ].

End IWatchlistItem.

(** ** Data of the examples *)

Definition item42 : value :=
  Object [("id", Str "42"); ("category", Str "tv"); ("title", Str "Dark")].

(** A store that holds the list whose one element is [item42]. *)
Definition w42 : World :=
  stored "[{'id':'42','category':'tv','title':'Dark'}]".

(** A store that holds two elements with the same id. *)
Definition w_twice : World :=
  stored "[{'id':'1','category':'movie','title':'A'},{'id':'1','category':'tv','title':'B'}]".

Definition twice_a : value :=
  Object [("id", Str "1"); ("category", Str "movie"); ("title", Str "A")].

Definition twice_b : value :=
  Object [("id", Str "1"); ("category", Str "tv"); ("title", Str "B")].

(** Two elements saved earlier. *)
Definition kept3 : value :=
  Object [("id", Str "3"); ("category", Str "tv"); ("title", Str "Y")].

Definition kept1 : value :=
  Object [("id", Str "1"); ("category", Str "movie"); ("title", Str "X")].

(** An empty store that accepts every access. *)
Definition w_empty : World := fresh_world (accepting ∅).

(** Candidates, as a card of the catalogue passes them. *)
Definition inception : value :=
  Object [("id", Number 1); ("category", Str "movie");
          ("poster_path", Str "/i.jpg"); ("original_title", Str "Inception");
          ("overview", Str "A thief."); ("backdrop_path", Str "/ib.jpg")].

Definition dark : value :=
  Object [("id", Number 2); ("poster_path", Str "/d.jpg"); ("name", Str "Dark");
          ("overview", Str "A town.")].

Definition inception_again : value :=
  Object [("id", Str "1"); ("category", Str "tv"); ("name", Str "Other")].

(** A candidate whose [original_title] is present and empty. *)
Definition retitled : value :=
  Object [("id", Number 5); ("poster_path", Str "/r.jpg");
          ("original_title", Str ""); ("name", Str "Dark");
          ("overview", Str "A town."); ("backdrop_path", Str "/rb.jpg")].

Definition untitled : value := Object [("id", Number 7)].

(** The element [addToWatchlist] builds for [dark] at the time [t1]. *)
Definition saved_dark : value :=
  Object [("id", Str "2"); ("category", Str "movie"); ("poster_path", Str "/d.jpg");
          ("title", Str "Dark"); ("original_title", Str ""); ("name", Str "Dark");
          ("overview", Str "A town."); ("backdrop_path", Undefined);
          ("addedAt", Str "t1")].

(** ** The button of a card ([WatchlistButton]) *)

(** What a render of the button shows of the watchlist: the attributes
    [aria-label] and [aria-pressed], the icon, and the text beside it
    when [showLabel] is set. *)
Record button_view : Type := {
  aria_label : string;
  aria_pressed : bool;
  filled_heart : bool;
  label : option string
}.

(** A render of [WatchlistButton] under a provider whose state is
    [watchlistItems]. *)
Definition WatchlistButton (watchlistItems : list value) (movie : value)
    (showLabel : bool) : completion button_view :=
  id ← get movie "id";
  inWatchlist ← isInWatchlist watchlistItems id;
  Normal {| aria_label := if inWatchlist : bool then "Remove from watchlist"
                          else "Add to watchlist";
            aria_pressed := inWatchlist;
            filled_heart := inWatchlist;
            label := if showLabel : bool
                     then Some (if inWatchlist then "In Watchlist"
                                else "Add to Watchlist")
                     else None |}.

(** [handleClick] of the button rendered last: [inWatchlist] is the
    answer of that render. *)
Definition handleClick (p : Provider) (movie : value) (now : string) :
    completion Provider :=
  id ← get movie "id";
  inWatchlist ← isInWatchlist (watchlistItems p) id;
  if inWatchlist : bool then step p (Remove id) else step p (Add movie now).

(** ** Further notions used in the statements *)

(** A store that accepts every write. *)
Definition writes_accepted (st : Storage) : Prop :=
  forall key t, setItem_refused st key t = None.

(** The stored text is the text of the list in memory. *)
Definition mirrored (p : Provider) : Prop :=
  durable (world p) = Some (JSON.stringify (watchlistItems p)).

(** Two stores that agree on everything the watchlist does not own: the
    other keys and the way accesses are refused. *)
Definition same_elsewhere (st st' : Storage) : Prop :=
  getItem_refused st' = getItem_refused st
  /\ setItem_refused st' = setItem_refused st
  /\ forall key, key <> STORAGE_KEY -> entries st' !! key = entries st !! key.

(** The canonical id a call is about, if any. *)
Definition target (c : call) : option string :=
  match c with
  | Add movie _ => Some (ToString (prop movie "id"))
  | Remove id => Some (ToString id)
  | Clear => None
  end.

(** The properties of a candidate that [addToWatchlist] copies or
    tests. *)
Definition candidate_fields : list string :=
  ["category"; "poster_path"; "original_title"; "name"; "title"; "overview";
   "backdrop_path"].

(** A candidate whose copied properties are JSON values or absent. *)
Definition storable_candidate (movie : value) : Prop :=
  Forall (fun k => prop movie k = Undefined \/ is_json (prop movie k) = true)
    candidate_fields.

(** The element built for a candidate will pass the schema: its category
    is falsy (and defaults to [movie]) or one of the two strings, and the
    first truthy title, or the raw title, is a string. *)
Definition loadable_candidate (movie : value) : Prop :=
  (truthy (prop movie "category") = false
   \/ prop movie "category" = Str "movie" \/ prop movie "category" = Str "tv")
  /\ typeof (first_truthy (prop movie "original_title") (prop movie "name")
               (prop movie "title")) = "string".
(** A call whose candidate, if it has one, gives an element that can be
    stored and that passes the schema when it is loaded again. *)
Definition reloadable_call (c : call) : Prop :=
  match c with
  | Add movie _ =>
      nullish movie = false /\ storable_candidate movie /\ loadable_candidate movie
  | _ => True
  end.

(** [String(v)] answers.  It throws a [TypeError] on an object that has
    an own property [toString]: in a value of this model that property is
    never a function, so [ToPrimitive] goes on to [valueOf], which gives
    the object back.  An array prints its elements, so it is coerced when
    they are.  Where [String(v)] answers, [ToString v] is its answer. *)
Fixpoint coercible (v : value) : bool :=
  match v with
  | Array elems => forallb coercible elems
  | Object props => negb (existsb (fun kv => String.eqb kv.1 "toString") props)
  | _ => true
  end.

(** A call whose id, the candidate's for [addToWatchlist], is one that
    [String] coerces. *)
Definition coercible_call (c : call) : Prop :=
  match c with
  | Add movie _ => coercible (prop movie "id") = true
  | Remove id => coercible id = true
  | Clear => True
  end.

(** The canonical ids of the candidates that the [addToWatchlist] calls
    of an event are given, in the order of the calls. *)
Fixpoint added_ids (calls : list call) : list string :=
  match calls with
  | [] => []
  | Add movie _ :: rest => ToString (prop movie "id") :: added_ids rest
  | _ :: rest => added_ids rest
  end.

(** [Number.isSafeInteger]: the integers that a JavaScript number holds
    exactly and that are told apart from their neighbours. *)
Definition safe_integer (n : Z) : Prop :=
  (Z.abs n <= 9007199254740991)%Z.

(* ================================================================== *)
(** * 7. JSON: a printed value parses back                            *)
(* ================================================================== *)

Lemma append_cons (c : ascii) (a b : string) :
  String c a +:+ b = String c (a +:+ b).
Proof. reflexivity. Qed.

Lemma append_nil (b : string) : "" +:+ b = b.
Proof. reflexivity. Qed.

Lemma append_assoc (a b c : string) : (a +:+ b) +:+ c = a +:+ (b +:+ c).
Proof.
  induction a as [|x a IH]; rewrite ?append_cons, ?append_nil;
    [reflexivity | now rewrite IH].
Qed.

Lemma append_length (a b : string) :
  String.length (a +:+ b) = String.length a + String.length b.
Proof.
  induction a as [|x a IH]; rewrite ?append_cons, ?append_nil; simpl;
    [reflexivity | now rewrite IH].
Qed.

(** Appends are flattened to the right and literal prefixes exposed. *)
Ltac flatten := rewrite ?append_assoc, ?append_cons, ?append_nil.

(** ** String literals *)

Lemma parse_chars_escape (c : ascii) (r : string) :
  JSON.parse_chars (JSON.escape c +:+ r)
  = ('(t, r') ← JSON.parse_chars r; Some (String c t, r')).
Proof. destruct c as [[] [] [] [] [] [] [] []]; reflexivity. Qed.

Lemma parse_chars_escape_all (s r : string) :
  JSON.parse_chars (JSON.escape_all s +:+ JSON.quotation_mark +:+ r) = Some (s, r).
Proof.
  induction s as [|c s IH].
  - reflexivity.
  - cbn [JSON.escape_all]. rewrite append_assoc, parse_chars_escape, IH.
    reflexivity.
Qed.

Lemma quote_append (s r : string) :
  JSON.quote s +:+ r
  = String "034" (JSON.escape_all s +:+ JSON.quotation_mark +:+ r).
Proof.
  unfold JSON.quote, JSON.quotation_mark. now flatten.
Qed.

Lemma quote_length (s : string) : 2 <= String.length (JSON.quote s).
Proof.
  unfold JSON.quote, JSON.quotation_mark. flatten.
  cbn [String.length]. rewrite append_length. simpl. lia.
Qed.

(** ** Numbers *)

Lemma string_of_uint_all_num (d : Decimal.uint) :
  all_num (NilEmpty.string_of_uint d) = true.
Proof. induction d; simpl; auto. Qed.

Lemma Number_toString_shape (n : Z) :
  exists c t, Number_toString n = String c t
              /\ JSON.is_num_char c = true /\ all_num t = true.
Proof.
  unfold Number_toString.
  destruct n as [|p|p]; cbn [Z.to_int NilZero.string_of_int].
  - exists "0"%char, "". repeat split.
  - pose proof (Unsigned.to_uint_nonnil p) as Hnil.
    pose proof (string_of_uint_all_num (Pos.to_uint p)) as Hall.
    destruct (Pos.to_uint p) eqn:E; try congruence;
      cbn [NilZero.string_of_uint NilEmpty.string_of_uint] in *;
      eexists _, _; (split; [reflexivity|]);
      apply andb_prop in Hall; exact Hall.
  - pose proof (Unsigned.to_uint_nonnil p) as Hnil.
    pose proof (string_of_uint_all_num (Pos.to_uint p)) as Hall.
    exists "-"%char, (NilZero.string_of_uint (Pos.to_uint p)).
    repeat split.
    destruct (Pos.to_uint p) eqn:E; try congruence; exact Hall.
Qed.

Lemma span_num_all (tok r : string) :
  all_num tok = true -> delimited r -> JSON.span_num (tok +:+ r) = (tok, r).
Proof.
  induction tok as [|c tok IH]; intros Hall Hr.
  - destruct r as [|c r]; [reflexivity|].
    simpl in *. now rewrite Hr.
  - simpl in *. apply andb_prop in Hall as [Hc Hall].
    rewrite Hc, (IH Hall Hr). reflexivity.
Qed.

Lemma int_of_string_toString (n : Z) :
  NilZero.int_of_string (Number_toString n) = Some (Z.to_int n).
Proof.
  unfold Number_toString. apply NilZero.isi.
  - destruct n as [|p|p]; cbn [Z.to_int]; try discriminate.
    intros [= H]. now apply (Unsigned.to_uint_nonnil p).
  - destruct n as [|p|p]; cbn [Z.to_int]; try discriminate.
    intros [= H]. now apply (Unsigned.to_uint_nonnil p).
Qed.

Lemma parse_number_toString (n : Z) (r : string) :
  delimited r -> JSON.parse_number (Number_toString n +:+ r) = Some (n, r).
Proof.
  intros Hr. unfold JSON.parse_number.
  destruct (Number_toString_shape n) as (c & t & E & Hc & Ht).
  rewrite span_num_all; [| rewrite E; simpl; now rewrite Hc, Ht | exact Hr].
  rewrite int_of_string_toString. cbn [mbind option_bind].
  rewrite of_to, String.eqb_refl. reflexivity.
Qed.

(** ** One step of the parser on each form of text *)

Lemma parse_value_null fuel r :
  JSON.parse_value (S fuel) ("null" +:+ r) = Some (Null, r).
Proof. reflexivity. Qed.

Lemma parse_value_true fuel r :
  JSON.parse_value (S fuel) ("true" +:+ r) = Some (Bool true, r).
Proof. reflexivity. Qed.

Lemma parse_value_false fuel r :
  JSON.parse_value (S fuel) ("false" +:+ r) = Some (Bool false, r).
Proof. reflexivity. Qed.

Lemma parse_value_quote fuel s r :
  JSON.parse_value (S fuel) (JSON.quote s +:+ r) = Some (Str s, r).
Proof.
  rewrite quote_append.
  change (JSON.parse_value (S fuel) (String "034" ?t))
    with ('(t', r') ← JSON.parse_chars t; Some (Str t', r')).
  now rewrite parse_chars_escape_all.
Qed.

Lemma parse_value_num fuel c rest :
  JSON.is_num_char c = true ->
  JSON.parse_value (S fuel) (String c rest)
  = ('(z, r) ← JSON.parse_number (String c rest); Some (Number z, r)).
Proof.
  destruct c as [[] [] [] [] [] [] [] []]; intros H; try discriminate H;
    reflexivity.
Qed.

Lemma parse_value_number fuel n r :
  delimited r ->
  JSON.parse_value (S fuel) (Number_toString n +:+ r) = Some (Number n, r).
Proof.
  intros Hr. destruct (Number_toString_shape n) as (c & t & E & Hc & _).
  pose proof (parse_number_toString n r Hr) as Hn.
  rewrite E in *. rewrite append_cons in *.
  now rewrite (parse_value_num _ _ _ Hc), Hn.
Qed.

Lemma parse_value_empty_array fuel r :
  JSON.parse_value (S fuel) ("[]" +:+ r) = Some (Array [], r).
Proof. reflexivity. Qed.

Lemma parse_value_empty_object fuel r :
  JSON.parse_value (S fuel) ("{}" +:+ r) = Some (Object [], r).
Proof. reflexivity. Qed.

Lemma parse_value_array fuel c rest :
  value_start c = true ->
  JSON.parse_value (S fuel) (String "[" (String c rest))
  = ('(l, r) ← JSON.parse_elements fuel (String c rest); Some (Array l, r)).
Proof.
  destruct c as [[] [] [] [] [] [] [] []]; intros H; try discriminate H;
    reflexivity.
Qed.

Lemma parse_value_object fuel rest :
  JSON.parse_value (S fuel) (String "{" (String "034" rest))
  = ('(ps, r) ← JSON.parse_members fuel [] (String "034" rest); Some (Object ps, r)).
Proof. reflexivity. Qed.

Lemma parse_elements_last fuel s v r :
  JSON.parse_value fuel s = Some (v, String "]" r) ->
  JSON.parse_elements (S fuel) s = Some ([v], r).
Proof. intros H. cbn [JSON.parse_elements]. now rewrite H. Qed.

Lemma parse_elements_more fuel s v r l r' :
  JSON.parse_value fuel s = Some (v, String "," r) ->
  JSON.parse_elements fuel r = Some (l, r') ->
  JSON.parse_elements (S fuel) s = Some (v :: l, r').
Proof. intros H1 H2. cbn [JSON.parse_elements]. rewrite H1. simpl. now rewrite H2. Qed.

Lemma parse_members_last fuel acc k s v r :
  JSON.parse_value fuel s = Some (v, String "}" r) ->
  JSON.parse_members (S fuel) acc (JSON.quote k +:+ String ":" s)
  = Some (JSON.set_prop k v acc, r).
Proof.
  intros H. rewrite quote_append. cbn [JSON.parse_members].
  simpl. rewrite parse_chars_escape_all.
  simpl. now rewrite H.
Qed.

Lemma parse_members_more fuel acc k s v r res :
  JSON.parse_value fuel s = Some (v, String "," r) ->
  JSON.parse_members fuel (JSON.set_prop k v acc) r = res ->
  JSON.parse_members (S fuel) acc (JSON.quote k +:+ String ":" s) = res.
Proof.
  intros H1 H2. rewrite quote_append. cbn [JSON.parse_members].
  simpl. rewrite parse_chars_escape_all.
  simpl. now rewrite H1.
Qed.

(** ** Printing then parsing a JSON value *)

Lemma starts_value_append (s r : string) :
  starts_value s -> starts_value (s +:+ r).
Proof. destruct s; [intros [] | now rewrite append_cons]. Qed.

Lemma starts_value_join (x : value) (l : list value) :
  starts_value (text x) -> starts_value (join "," (List.map text (x :: l))).
Proof.
  intros H. destruct l; cbn [List.map join]; [exact H|].
  now apply starts_value_append.
Qed.

Lemma value_start_num (c : ascii) :
  JSON.is_num_char c = true -> value_start c = true.
Proof. intros H. unfold value_start. now rewrite H. Qed.

Lemma parse_elements_join (l : list value) :
  l <> [] -> Forall parses_back l ->
  forall fuel r,
    list_sum (List.map (fun x => S (weight x)) l) <= fuel ->
    JSON.parse_elements fuel (join "," (List.map text l) +:+ String "]" r)
    = Some (l, r).
Proof.
  induction l as [|x l IH]; [congruence|].
  intros _ Hall fuel r Hfuel.
  apply Forall_cons in Hall as [[_ Hx] Hl].
  cbn [List.map list_sum fold_right] in Hfuel.
  destruct fuel as [|fuel]; [lia|].
  destruct l as [|y l].
  - cbn [List.map join list_sum fold_right] in *. apply parse_elements_last.
    apply Hx; [lia | reflexivity].
  - cbn [List.map join list_sum fold_right] in *. flatten.
    eapply parse_elements_more.
    + apply Hx; [lia | reflexivity].
    + apply IH; [discriminate | exact Hl | lia].
Qed.

Lemma set_prop_fresh (k : string) (v : value) (acc : list (string * value)) :
  k ∉ acc.*1 -> JSON.set_prop k v acc = acc ++ [(k, v)].
Proof.
  induction acc as [|[k' v'] acc IH]; intros Hk; [reflexivity|].
  cbn [JSON.set_prop]. rewrite fmap_cons in Hk.
  apply not_elem_of_cons in Hk as [Hne Hk].
  destruct (String.eqb_spec k k') as [->|_]; [now contradict Hne|].
  cbn. now rewrite IH.
Qed.

Lemma parse_members_join (ps : list (string * value)) :
  ps <> [] -> Forall (fun kv => parses_back kv.2) ps ->
  forall fuel acc r,
    list_sum (List.map (fun kv => S (weight kv.2)) ps) <= fuel ->
    NoDup ((acc ++ ps).*1) ->
    JSON.parse_members fuel acc (join "," (List.map member_text ps) +:+ String "}" r)
    = Some (acc ++ ps, r).
Proof.
  induction ps as [|[k x] ps IH]; [congruence|].
  intros _ Hall fuel acc r Hfuel Hnd.
  apply Forall_cons in Hall as [[_ Hx] Hps].
  cbn [List.map list_sum fold_right snd] in Hfuel.
  destruct fuel as [|fuel]; [lia|].
  assert (Hk : k ∉ acc.*1).
  { rewrite fmap_app, fmap_cons in Hnd. apply NoDup_app in Hnd as (_ & Hd & _).
    intros Hin. apply (Hd _ Hin). left. }
  assert (Hacc : (acc ++ [(k, x)]) ++ ps = acc ++ (k, x) :: ps)
    by now rewrite <- app_assoc.
  destruct ps as [|kv ps].
  - cbn [List.map join list_sum fold_right fst snd] in *.
    unfold member_text at 1. cbn [fst snd]. flatten.
    erewrite parse_members_last.
    + now rewrite set_prop_fresh.
    + apply Hx; [lia | reflexivity].
  - cbn [List.map join list_sum fold_right fst snd] in *.
    unfold member_text at 1. cbn [fst snd]. flatten.
    eapply parse_members_more.
    + apply Hx; [lia | reflexivity].
    + rewrite set_prop_fresh by exact Hk. rewrite <- Hacc.
      apply IH; [discriminate | exact Hps | lia |].
      now rewrite Hacc.
Qed.

Lemma join_length_elements (l : list value) :
  Forall (fun x => weight x <= String.length (text x)) l ->
  list_sum (List.map (fun x => S (weight x)) l)
  <= S (String.length (join "," (List.map text l))).
Proof.
  induction l as [|x l IH]; intros Hall; [simpl; lia|].
  apply Forall_cons in Hall as [Hx Hl]. specialize (IH Hl).
  destruct l as [|y l]; cbn [List.map join list_sum fold_right] in *.
  - lia.
  - rewrite !append_length. cbn [String.length]. lia.
Qed.

Lemma join_length_members (ps : list (string * value)) :
  Forall (fun kv => weight kv.2 <= String.length (text kv.2)) ps ->
  list_sum (List.map (fun kv => S (weight kv.2)) ps)
  <= S (String.length (join "," (List.map member_text ps))).
Proof.
  induction ps as [|kv ps IH]; intros Hall; [simpl; lia|].
  apply Forall_cons in Hall as [Hx Hl]. specialize (IH Hl).
  assert (Hm : S (weight kv.2) <= String.length (member_text kv)).
  { unfold member_text. rewrite !append_length. cbn [String.length].
    pose proof (quote_length kv.1). lia. }
  destruct ps as [|kv' ps]; cbn [List.map join list_sum fold_right] in *.
  - lia.
  - rewrite !append_length. cbn [String.length]. lia.
Qed.

Lemma serialize_object (ps : list (string * value)) :
  Forall (fun kv => JSON.serialize kv.2 = Some (text kv.2)) ps ->
  JSON.serialize (Object ps)
  = Some ("{" +:+ join "," (List.map member_text ps) +:+ "}").
Proof.
  intros Hall. cbn [JSON.serialize]. do 4 f_equal.
  induction Hall as [|[k x] ps Hx _ IH]; [reflexivity|].
  cbn [snd] in Hx. rewrite Hx, IH. reflexivity.
Qed.

Lemma is_json_prints_and_parses (v : value) :
  is_json v = true -> prints_and_parses v.
Proof.
  induction v as [ | | b | n | s | l IH | ps IH ] using value_nested_ind;
    intros Hj.
  - discriminate.
  - split; [reflexivity | split; [simpl; lia | split; [reflexivity|]]].
    intros [|fuel] r Hf _; [simpl in Hf; lia | apply parse_value_null].
  - destruct b;
      (split; [reflexivity | split; [simpl; lia | split; [reflexivity|]]]);
      intros [|fuel] r Hf _; try (simpl in Hf; lia).
    + apply parse_value_true.
    + apply parse_value_false.
  - unfold prints_and_parses, parses_back.
    change (text (Number n)) with (Number_toString n). cbn [weight].
    destruct (Number_toString_shape n) as (c & t & E & Hc & _).
    split; [reflexivity | split; [|split]].
    + rewrite E. simpl. lia.
    + rewrite E. now apply value_start_num.
    + intros [|fuel] r Hf Hr; [lia|]. now apply parse_value_number.
  - unfold prints_and_parses, parses_back.
    change (text (Str s)) with (JSON.quote s). cbn [weight].
    split; [reflexivity | split; [|split]].
    + pose proof (quote_length s). lia.
    + unfold JSON.quote, JSON.quotation_mark. flatten. reflexivity.
    + intros [|fuel] r Hf _; [lia|]. apply parse_value_quote.
  - cbn [is_json] in Hj. rewrite forallb_forall in Hj.
    assert (Hall : Forall prints_and_parses l).
    { rewrite Forall_forall in IH. apply Forall_forall. intros x Hx.
      apply IH; [exact Hx|]. apply Hj. now apply list_elem_of_In. }
    clear IH Hj.
    assert (Hlen : Forall (fun x => weight x <= String.length (text x)) l)
      by (eapply Forall_impl; [exact Hall | now intros x (_ & ? & _)]).
    assert (Hback : Forall parses_back l)
      by (eapply Forall_impl; [exact Hall | now intros x (_ & _ & ?)]).
    assert (Ht : text (Array l) = "[" +:+ join "," (List.map text l) +:+ "]")
      by reflexivity.
    unfold prints_and_parses, parses_back. rewrite Ht.
    split; [reflexivity | split; [|split]].
    + cbn [weight]. pose proof (join_length_elements l Hlen).
      rewrite !append_length. simpl. lia.
    + flatten. reflexivity.
    + cbn [weight]. intros [|fuel] r Hf _; [lia|].
      destruct l as [|x l]; [apply parse_value_empty_array|].
      flatten.
      pose proof (starts_value_join x l) as Hs.
      apply Forall_cons in Hback as Hb. destruct Hb as [[Hsx _] _].
      specialize (Hs Hsx).
      destruct (join "," (List.map text (x :: l))) as [|c t] eqn:E; [destruct Hs|].
      rewrite append_cons, (parse_value_array _ _ _ Hs), <- append_cons, <- E.
      rewrite parse_elements_join; [reflexivity | discriminate | exact Hback | lia].
  - cbn [is_json] in Hj. apply andb_prop in Hj as [Hj Hnd].
    apply bool_decide_eq_true in Hnd. rewrite forallb_forall in Hj.
    assert (Hall : Forall (fun kv => prints_and_parses kv.2) ps).
    { rewrite Forall_forall in IH. apply Forall_forall. intros x Hx.
      apply IH; [exact Hx|]. apply Hj. now apply list_elem_of_In. }
    clear IH Hj.
    assert (Hser : Forall (fun kv => JSON.serialize kv.2 = Some (text kv.2)) ps)
      by (eapply Forall_impl; [exact Hall | now intros x (? & _ & _)]).
    assert (Hlen : Forall (fun kv => weight kv.2 <= String.length (text kv.2)) ps)
      by (eapply Forall_impl; [exact Hall | now intros x (_ & ? & _)]).
    assert (Hback : Forall (fun kv => parses_back kv.2) ps)
      by (eapply Forall_impl; [exact Hall | now intros x (_ & _ & ?)]).
    pose proof (serialize_object ps Hser) as Hs.
    assert (Ht : text (Object ps) = "{" +:+ join "," (List.map member_text ps) +:+ "}")
      by (unfold text; now rewrite Hs).
    unfold prints_and_parses, parses_back. rewrite Ht.
    split; [exact Hs | split; [|split]].
    + cbn [weight]. pose proof (join_length_members ps Hlen).
      rewrite !append_length. simpl. lia.
    + flatten. reflexivity.
    + cbn [weight]. intros [|fuel] r Hf _; [lia|].
      destruct ps as [|[k x] ps]; [apply parse_value_empty_object|].
      flatten.
      assert (E : exists t, join "," (List.map member_text ((k, x) :: ps)) = String "034" t).
      { destruct ps; cbn [List.map join]; unfold member_text at 1; cbn [fst];
          flatten; rewrite quote_append; eauto. }
      destruct E as [t E]. rewrite E, append_cons, parse_value_object.
      rewrite <- append_cons, <- E.
      rewrite (parse_members_join ((k, x) :: ps) ltac:(discriminate) Hback fuel [] r);
        [reflexivity | lia | exact Hnd].
Qed.

(** ** The whole text *)

Lemma append_empty_r (a : string) : a +:+ "" = a.
Proof.
  induction a as [|x a IH]; rewrite ?append_cons, ?append_nil;
    [reflexivity | now rewrite IH].
Qed.

Lemma is_json_array (items : list value) :
  Forall (fun x => is_json x = true) items -> is_json (Array items) = true.
Proof.
  intros H. cbn [is_json]. apply forallb_forall. intros x Hx.
  rewrite Forall_forall in H. apply H. now apply list_elem_of_In.
Qed.

Lemma stringify_text (items : list value) :
  JSON.stringify items = text (Array items).
Proof. reflexivity. Qed.

Lemma stringify_not_empty (items : list value) :
  String.eqb (JSON.stringify items) "" = false.
Proof. rewrite stringify_text. reflexivity. Qed.

Lemma parse_stringify (items : list value) :
  Forall (fun x => is_json x = true) items ->
  JSON.parse (JSON.stringify items) = Normal (Array items).
Proof.
  intros H. apply is_json_array, is_json_prints_and_parses in H.
  destruct H as (_ & Hlen & _ & Hparse).
  rewrite stringify_text. unfold JSON.parse.
  rewrite <- (append_empty_r (text (Array items))) at 2.
  rewrite Hparse; [reflexivity | lia | exact I].
Qed.

(** ** The fuel of [JSON.parse] is enough for every text *)

Lemma skip_ws_length (s : string) : String.length (JSON.skip_ws s) <= String.length s.
Proof.
  induction s as [|c s IH]; [reflexivity|].
  cbn [JSON.skip_ws]. destruct (JSON.is_ws c); cbn [String.length]; lia.
Qed.

Lemma skip_ws_cons_length (s r : string) (c : ascii) :
  JSON.skip_ws s = String c r -> String.length r < String.length s.
Proof.
  intros H. pose proof (skip_ws_length s) as Hl. rewrite H in Hl.
  cbn [String.length] in Hl. lia.
Qed.

Lemma strip_prefix_length (p s r : string) :
  JSON.strip_prefix p s = Some r -> String.length r <= String.length s.
Proof.
  revert s. induction p as [|a p IH]; intros s; cbn [JSON.strip_prefix].
  - now intros [= ->].
  - destruct s as [|b s]; [discriminate|].
    destruct (Ascii.eqb a b); [|discriminate].
    intros H. apply IH in H. cbn [String.length]. lia.
Qed.

Lemma parse_chars_length_upto (n : nat) (s t r : string) :
  String.length s <= n ->
  JSON.parse_chars s = Some (t, r) -> String.length r < String.length s.
Proof.
  revert s t. induction n as [|n IH]; intros s t Hn;
    destruct s as [|c rest]; try discriminate;
    cbn [String.length] in Hn; [lia|].
  cbn [JSON.parse_chars].
  destruct (N_of_ascii c =? 34)%N.
  { intros [= _ ->]. cbn [String.length]. lia. }
  destruct (N_of_ascii c =? 92)%N.
  - destruct rest as [|e rest']; [discriminate|].
    destruct (N_of_ascii e =? 117)%N.
    + destruct rest' as [|a [|b [|h [|l rest'']]]]; try discriminate.
      destruct (JSON.hex_value a) as [[]|]; try discriminate.
      destruct (JSON.hex_value b) as [[]|]; try discriminate.
      destruct (JSON.hex_value h); try discriminate.
      destruct (JSON.hex_value l); try discriminate.
      destruct (JSON.parse_chars rest'') as [[t' r']|] eqn:E; [|discriminate].
      intros [= _ ->]. apply IH in E; cbn [String.length] in *; lia.
    + destruct (JSON.unescape e); [|discriminate]. cbn [mbind option_bind].
      destruct (JSON.parse_chars rest') as [[t' r']|] eqn:E; [|discriminate].
      intros [= _ ->]. apply IH in E; cbn [String.length] in *; lia.
  - destruct (N_of_ascii c <? 32)%N; [discriminate|].
    destruct (JSON.parse_chars rest) as [[t' r']|] eqn:E; [|discriminate].
    intros [= _ ->]. apply IH in E; cbn [String.length] in *; lia.
Qed.

Lemma parse_chars_length (s t r : string) :
  JSON.parse_chars s = Some (t, r) -> String.length r < String.length s.
Proof. now apply (parse_chars_length_upto (String.length s)). Qed.

Lemma span_num_length (s tok r : string) :
  JSON.span_num s = (tok, r) ->
  String.length s = String.length tok + String.length r.
Proof.
  revert tok. induction s as [|c s IH]; intros tok; cbn [JSON.span_num].
  - now intros [= <- <-].
  - destruct (JSON.is_num_char c).
    + destruct (JSON.span_num s) as [tok' r'] eqn:E. intros [= <- <-].
      cbn [String.length]. now rewrite (IH _ eq_refl).
    + now intros [= <- <-].
Qed.

Lemma parse_number_length (s r : string) (z : Z) :
  JSON.parse_number s = Some (z, r) -> String.length r < String.length s.
Proof.
  unfold JSON.parse_number. destruct (JSON.span_num s) as [tok r'] eqn:E.
  apply span_num_length in E.
  destruct tok as [|c tok]; [discriminate|].
  destruct (NilZero.int_of_string (String c tok)); [|discriminate].
  cbn [mbind option_bind]. destruct (_ || _); [|discriminate].
  intros [= _ <-]. cbn [String.length] in E. lia.
Qed.

(** Every successful call consumes at least one character. *)
Lemma parse_consumes (n : nat) :
  (forall s v r, JSON.parse_value n s = Some (v, r) ->
     String.length r < String.length s)
  /\ (forall s l r, JSON.parse_elements n s = Some (l, r) ->
        String.length r < String.length s)
  /\ (forall acc s ps r, JSON.parse_members n acc s = Some (ps, r) ->
        String.length r < String.length s).
Proof.
  induction n as [|n (IHv & IHe & IHm)]; [repeat split; discriminate|].
  split; [|split].
  - intros s v r H. cbn [JSON.parse_value] in H.
    destruct (JSON.skip_ws s) as [|c rest] eqn:Es; [discriminate|].
    apply skip_ws_cons_length in Es.
    destruct (N_of_ascii c =? 110)%N.
    { destruct (JSON.strip_prefix "ull" rest) eqn:E; [|discriminate].
      injection H as _ <-. apply strip_prefix_length in E. lia. }
    destruct (N_of_ascii c =? 116)%N.
    { destruct (JSON.strip_prefix "rue" rest) eqn:E; [|discriminate].
      injection H as _ <-. apply strip_prefix_length in E. lia. }
    destruct (N_of_ascii c =? 102)%N.
    { destruct (JSON.strip_prefix "alse" rest) eqn:E; [|discriminate].
      injection H as _ <-. apply strip_prefix_length in E. lia. }
    destruct (N_of_ascii c =? 34)%N.
    { destruct (JSON.parse_chars rest) as [[t r']|] eqn:E; [|discriminate].
      injection H as _ <-. apply parse_chars_length in E. lia. }
    destruct (N_of_ascii c =? 91)%N.
    { destruct (JSON.skip_ws rest) as [|c' r0] eqn:Er; [discriminate|].
      apply skip_ws_cons_length in Er.
      destruct (N_of_ascii c' =? 93)%N; [injection H as _ <-; lia|].
      destruct (JSON.parse_elements n rest) as [[l r']|] eqn:E; [|discriminate].
      injection H as _ <-. apply IHe in E. lia. }
    destruct (N_of_ascii c =? 123)%N.
    { destruct (JSON.skip_ws rest) as [|c' r0] eqn:Er; [discriminate|].
      apply skip_ws_cons_length in Er.
      destruct (N_of_ascii c' =? 125)%N; [injection H as _ <-; lia|].
      destruct (JSON.parse_members n [] rest) as [[ps r']|] eqn:E; [|discriminate].
      injection H as _ <-. apply IHm in E. lia. }
    destruct (JSON.parse_number (String c rest)) as [[z r']|] eqn:E; [|discriminate].
    injection H as _ <-. apply parse_number_length in E.
    cbn [String.length] in E. lia.
  - intros s l r H. cbn [JSON.parse_elements] in H.
    destruct (JSON.parse_value n s) as [[v r1]|] eqn:E1; [|discriminate].
    apply IHv in E1. cbn [mbind option_bind] in H.
    destruct (JSON.skip_ws r1) as [|c r2] eqn:Es; [discriminate|].
    apply skip_ws_cons_length in Es.
    destruct (N_of_ascii c =? 44)%N.
    { destruct (JSON.parse_elements n r2) as [[l' r3]|] eqn:E2; [|discriminate].
      injection H as _ <-. apply IHe in E2. lia. }
    destruct (N_of_ascii c =? 93)%N; [|discriminate].
    injection H as _ <-. lia.
  - intros acc s ps r H. cbn [JSON.parse_members] in H.
    destruct (JSON.skip_ws s) as [|q r0] eqn:Es; [discriminate|].
    apply skip_ws_cons_length in Es.
    destruct (N_of_ascii q =? 34)%N; [|discriminate].
    destruct (JSON.parse_chars r0) as [[k r1]|] eqn:Ek; [|discriminate].
    apply parse_chars_length in Ek. cbn [mbind option_bind] in H.
    destruct (JSON.skip_ws r1) as [|colon r2] eqn:Ec; [discriminate|].
    apply skip_ws_cons_length in Ec.
    destruct (N_of_ascii colon =? 58)%N; [|discriminate].
    destruct (JSON.parse_value n r2) as [[v r3]|] eqn:Ev; [|discriminate].
    apply IHv in Ev. cbn [mbind option_bind] in H.
    destruct (JSON.skip_ws r3) as [|c r4] eqn:E4; [discriminate|].
    apply skip_ws_cons_length in E4.
    destruct (N_of_ascii c =? 44)%N; [apply IHm in H; lia|].
    destruct (N_of_ascii c =? 125)%N; [|discriminate].
    injection H as _ <-. lia.
Qed.

(** A result obtained with some fuel is obtained with any fuel that is at
    least the number of characters consumed. *)
Lemma parse_fuel (n : nat) :
  (forall s v r, JSON.parse_value n s = Some (v, r) ->
     forall m, String.length s - String.length r <= m ->
       JSON.parse_value m s = Some (v, r))
  /\ (forall s l r, JSON.parse_elements n s = Some (l, r) ->
        forall m, String.length s - String.length r <= m ->
          JSON.parse_elements m s = Some (l, r))
  /\ (forall acc s ps r, JSON.parse_members n acc s = Some (ps, r) ->
        forall m, String.length s - String.length r <= m ->
          JSON.parse_members m acc s = Some (ps, r)).
Proof.
  induction n as [|n (IHv & IHe & IHm)]; [repeat split; discriminate|].
  destruct (parse_consumes n) as (Cv & Ce & Cm).
  split; [|split].
  - intros s v r H m Hm.
    pose proof (proj1 (parse_consumes (S n)) _ _ _ H) as Hlt.
    destruct m as [|m]; [lia|]. cbn [JSON.parse_value] in H |- *.
    destruct (JSON.skip_ws s) as [|c rest] eqn:Es; [discriminate|].
    apply skip_ws_cons_length in Es.
    destruct (N_of_ascii c =? 110)%N; [exact H|].
    destruct (N_of_ascii c =? 116)%N; [exact H|].
    destruct (N_of_ascii c =? 102)%N; [exact H|].
    destruct (N_of_ascii c =? 34)%N; [exact H|].
    destruct (N_of_ascii c =? 91)%N.
    { destruct (JSON.skip_ws rest) as [|c' r0] eqn:Er; [discriminate|].
      destruct (N_of_ascii c' =? 93)%N; [exact H|].
      destruct (JSON.parse_elements n rest) as [[l r']|] eqn:E; [|discriminate].
      injection H as <- <-. rewrite (IHe _ _ _ E m); [reflexivity | lia]. }
    destruct (N_of_ascii c =? 123)%N; [|exact H].
    destruct (JSON.skip_ws rest) as [|c' r0] eqn:Er; [discriminate|].
    destruct (N_of_ascii c' =? 125)%N; [exact H|].
    destruct (JSON.parse_members n [] rest) as [[ps r']|] eqn:E; [|discriminate].
    injection H as <- <-. rewrite (IHm _ _ _ _ E m); [reflexivity | lia].
  - intros s l r H m Hm.
    pose proof (proj1 (proj2 (parse_consumes (S n))) _ _ _ H) as Hlt.
    destruct m as [|m]; [lia|]. cbn [JSON.parse_elements] in H |- *.
    destruct (JSON.parse_value n s) as [[v r1]|] eqn:E1; [|discriminate].
    pose proof (Cv _ _ _ E1) as H1. cbn [mbind option_bind] in H.
    destruct (JSON.skip_ws r1) as [|c r2] eqn:Es; [discriminate|].
    pose proof (skip_ws_cons_length _ _ _ Es) as H2.
    destruct (N_of_ascii c =? 44)%N eqn:Ecomma.
    + destruct (JSON.parse_elements n r2) as [[l' r3]|] eqn:E2; [|discriminate].
      pose proof (Ce _ _ _ E2) as H3. injection H as <- <-.
      rewrite (IHv _ _ _ E1 m) by lia. cbn [mbind option_bind].
      rewrite Es, Ecomma, (IHe _ _ _ E2 m) by lia. reflexivity.
    + destruct (N_of_ascii c =? 93)%N eqn:Eclose; [|discriminate].
      injection H as <- <-.
      rewrite (IHv _ _ _ E1 m) by lia. cbn [mbind option_bind].
      now rewrite Es, Ecomma, Eclose.
  - intros acc s ps r H m Hm.
    pose proof (proj2 (proj2 (parse_consumes (S n))) _ _ _ _ H) as Hlt.
    destruct m as [|m]; [lia|]. cbn [JSON.parse_members] in H |- *.
    destruct (JSON.skip_ws s) as [|q r0] eqn:Es; [discriminate|].
    apply skip_ws_cons_length in Es.
    destruct (N_of_ascii q =? 34)%N; [|discriminate].
    destruct (JSON.parse_chars r0) as [[k r1]|] eqn:Ek; [|discriminate].
    apply parse_chars_length in Ek. cbn [mbind option_bind] in H |- *.
    destruct (JSON.skip_ws r1) as [|colon r2] eqn:Ec; [discriminate|].
    apply skip_ws_cons_length in Ec.
    destruct (N_of_ascii colon =? 58)%N; [|discriminate].
    destruct (JSON.parse_value n r2) as [[v r3]|] eqn:Ev; [|discriminate].
    pose proof (Cv _ _ _ Ev) as H3. cbn [mbind option_bind] in H.
    destruct (JSON.skip_ws r3) as [|c r4] eqn:E4; [discriminate|].
    pose proof (skip_ws_cons_length _ _ _ E4) as H4.
    destruct (N_of_ascii c =? 44)%N eqn:Ecomma.
    + pose proof (Cm _ _ _ _ H) as H5.
      rewrite (IHv _ _ _ Ev m) by lia. cbn [mbind option_bind].
      rewrite E4, Ecomma. apply (IHm _ _ _ _ H). lia.
    + destruct (N_of_ascii c =? 125)%N eqn:Eclose; [|discriminate].
      injection H as <- <-.
      rewrite (IHv _ _ _ Ev m) by lia. cbn [mbind option_bind].
      now rewrite E4, Ecomma, Eclose.
Qed.

Lemma parse_fuel_enough (n : nat) (s r : string) (v : value) :
  JSON.parse_value n s = Some (v, r) ->
  JSON.parse_value (S (String.length s)) s = Some (v, r).
Proof.
  intros H. apply (proj1 (parse_fuel n) _ _ _ H). lia.
Qed.

(** [JSON.parse] does not fail for lack of fuel: it returns [v] exactly
    when some amount of fuel reads [v] from the text and leaves nothing
    but white space. *)
Lemma parse_Normal_iff (s : string) (v : value) :
  JSON.parse s = Normal v
  <-> exists n r, JSON.parse_value n s = Some (v, r) /\ JSON.skip_ws r = "".
Proof.
  unfold JSON.parse. split.
  - destruct (JSON.parse_value (S (String.length s)) s) as [[v' r]|] eqn:E;
      [|discriminate].
    destruct (JSON.skip_ws r) eqn:Er; [|discriminate].
    intros [= <-]. eauto.
  - intros (n & r & H & Hr). rewrite (parse_fuel_enough _ _ _ _ H).
    now rewrite Hr.
Qed.

(* ================================================================== *)
(** * 8. The adapter                                                  *)
(* ================================================================== *)

Lemma item_is_valid_object (props : list (string * value)) :
  item_is_valid (Object props)
  = Normal (match lookup_prop "id" props, lookup_prop "category" props,
                  lookup_prop "title" props with
            | Some (Str _), Some (Str c), Some (Str _) =>
                String.eqb c "movie" || String.eqb c "tv"
            | _, _, _ => false
            end).
Proof.
  unfold item_is_valid, and_then, get.
  destruct (lookup_prop "id" props) as [[]|]; try reflexivity;
    destruct (lookup_prop "category" props) as [[]|]; try reflexivity.
  cbn. destruct (String.eqb _ "movie" || String.eqb _ "tv");
    destruct (lookup_prop "title" props) as [[]|]; reflexivity.
Qed.

Lemma item_is_valid_true (item : value) :
  item_is_valid item = Normal true <-> well_formed_item item.
Proof.
  split.
  - destruct item as [ | | b | n | s | l | props ]; try discriminate.
    rewrite item_is_valid_object. intros [= H].
    destruct (lookup_prop "id" props) as [[ | | | |i| | ]|] eqn:Ei; try discriminate.
    destruct (lookup_prop "category" props) as [[ | | | |c| | ]|] eqn:Ec;
      try discriminate.
    destruct (lookup_prop "title" props) as [[ | | | |t| | ]|] eqn:Et;
      try discriminate.
    exists props, i, c, t. repeat split; try assumption.
    apply orb_prop in H as [H|H]; apply String.eqb_eq in H; auto.
  - intros (props & i & c & t & -> & Hi & Hc & Hcat & Ht).
    rewrite item_is_valid_object, Hi, Hc, Ht.
    now destruct Hcat as [-> | ->].
Qed.

Lemma validateWatchlistData_true (data : value) :
  validateWatchlistData data = Normal true
  <-> exists elems, data = Array elems /\ Forall well_formed_item elems.
Proof.
  split.
  - destruct data as [ | | b | n | s | l | props ]; try discriminate.
    cbn [validateWatchlistData]. intros H. exists l. split; [reflexivity|].
    induction l as [|x l IH]; [constructor|].
    cbn [array_every] in H.
    destruct (item_is_valid x) as [[]|] eqn:E; try discriminate.
    constructor; [now apply item_is_valid_true | now apply IH].
  - intros (l & -> & Hall). cbn [validateWatchlistData].
    induction Hall as [|x l Hx _ IH]; [reflexivity|].
    cbn [array_every]. apply item_is_valid_true in Hx. now rewrite Hx.
Qed.

Lemma getWatchlist_Normal (w : World) :
  exists items w', getWatchlist w = Normal (items, w').
Proof.
  unfold getWatchlist, try_catch.
  destruct (getWatchlist_try (storage w)); cbn; eauto.
Qed.

(** ** C4 *)

(** C4. Loading is total and never throws.  Whatever the store holds and
    however it behaves, [getWatchlist] returns a list and leaves the
    store as it is.  The list is empty when nothing is stored under the
    key (nothing is logged then), when reading throws, when the text does
    not parse, and when it parses to anything but an array whose every
    element is an object with a string [id], a [category] that is exactly
    [movie] or [tv] and a string [title]: one failing element empties the
    result.  Otherwise the list is the parsed array. *)
Theorem getWatchlist_total_all_or_nothing (w : World) :
  exists items w',
    getWatchlist w = Normal (items, w')
    /\ storage w' = storage w
    /\ match localStorage.getItem (storage w) STORAGE_KEY with
       | Normal None => items = [] /\ w' = w
       | Normal (Some stored_text) =>
           match JSON.parse stored_text with
           | Normal data =>
               (forall elems, data = Array elems ->
                  Forall well_formed_item elems -> items = elems /\ w' = w)
               /\ ((~ exists elems,
                       data = Array elems /\ Forall well_formed_item elems) ->
                   items = [])
           | Throw _ => items = []
           end
       | Throw _ => items = []
       end.
Proof.
  unfold getWatchlist, getWatchlist_try, try_catch.
  destruct (localStorage.getItem (storage w) STORAGE_KEY) as [[stored_text|]|e];
    cbn [mbind completion_bind].
  2,3: now eexists _, _; split; [reflexivity | split; [reflexivity|]].
  destruct (String.eqb_spec stored_text "") as [->|_].
  { now eexists _, _; split; [reflexivity | split; [reflexivity|]]. }
  destruct (JSON.parse stored_text) as [data|e]; cbn [mbind completion_bind].
  2: now eexists _, _; split; [reflexivity | split; [reflexivity|]].
  assert (Hnot : validateWatchlistData data <> Normal true ->
                 forall elems, data = Array elems ->
                   Forall well_formed_item elems -> False).
  { intros Hne elems -> Hall. apply Hne, validateWatchlistData_true. eauto. }
  destruct (validateWatchlistData data) as [[]|e] eqn:Hv;
    cbn [mbind completion_bind];
    (eexists _, _; split; [reflexivity | split; [reflexivity | split]]).
  - apply validateWatchlistData_true in Hv as (l & -> & Hall).
    now intros elems [= <-] _.
  - intros Hno. exfalso. apply Hno.
    now apply validateWatchlistData_true.
  - intros elems E Hall. now destruct (Hnot ltac:(discriminate) elems E Hall).
  - reflexivity.
  - intros elems E Hall. now destruct (Hnot ltac:(discriminate) elems E Hall).
  - reflexivity.
Qed.

Lemma saveWatchlist_accepted (items : list value) (w : World) :
  setItem_refused (storage w) STORAGE_KEY (JSON.stringify items) = None ->
  exists w',
    saveWatchlist items w = Normal w'
    /\ durable w' = Some (JSON.stringify items)
    /\ console_output w' = console_output w
    /\ getItem_refused (storage w') = getItem_refused (storage w)
    /\ setItem_refused (storage w') = setItem_refused (storage w).
Proof.
  intros H. unfold saveWatchlist, localStorage.setItem, try_catch. rewrite H.
  eexists. split; [reflexivity|]. unfold durable. cbn.
  now rewrite lookup_insert_eq.
Qed.

Lemma saveWatchlist_rejected (items : list value) (w : World) (error : exn) :
  localStorage.setItem (storage w) STORAGE_KEY (JSON.stringify items) = Throw error ->
  saveWatchlist items w
  = Normal (if is_quota_error error
            then console.error "Watchlist storage full. Please remove some items." None w
            else console.error "Failed to save watchlist:" (Some error) w).
Proof.
  intros H. unfold saveWatchlist, try_catch, is_quota_error. rewrite H. cbn.
  now destruct (instanceof_Error error && _).
Qed.

Lemma saveWatchlist_Normal (items : list value) (w : World) :
  exists w', saveWatchlist items w = Normal w'.
Proof.
  destruct (localStorage.setItem (storage w) STORAGE_KEY (JSON.stringify items))
    as [st|error] eqn:E.
  - unfold saveWatchlist, try_catch. rewrite E. cbn. eauto.
  - rewrite (saveWatchlist_rejected _ _ _ E). eauto.
Qed.

(** ** What is stored of a list with [undefined] properties *)

Lemma serialize_prune (v : value) : JSON.serialize (prune v) = JSON.serialize v.
Proof.
  destruct v as [ | | b | n | s | l | props ]; try reflexivity.
  cbn [prune JSON.serialize]. do 4 f_equal.
  induction props as [|[k x] props IH]; [reflexivity|].
  cbn [List.filter]. unfold defined at 1. cbn [snd].
  destruct x as [ | | [] | | | | ]; cbn [JSON.serialize];
    try (now rewrite IH); exact IH.
Qed.

Lemma stringify_prune (c : list value) :
  JSON.stringify (List.map prune c) = JSON.stringify c.
Proof.
  unfold JSON.stringify. cbn [JSON.serialize]. rewrite List.map_map.
  assert (E : List.map (fun x => default "null" (JSON.serialize (prune x))) c
              = List.map (fun x => default "null" (JSON.serialize x)) c)
    by (apply List.map_ext; intros v; now rewrite serialize_prune).
  now rewrite E.
Qed.

Lemma lookup_prop_None (k : string) (props : list (string * value)) :
  k ∉ props.*1 -> lookup_prop k props = None.
Proof.
  induction props as [|[k' v] props IH]; [reflexivity|].
  rewrite fmap_cons. intros H. apply not_elem_of_cons in H as [Hne H].
  cbn [lookup_prop]. destruct (String.eqb_spec k k') as [->|_]; [now contradict Hne|].
  now apply IH.
Qed.

Lemma filter_defined_keys (k : string) (props : list (string * value)) :
  k ∉ props.*1 -> k ∉ (List.filter defined props).*1.
Proof.
  intros H Hin. apply H. apply list_elem_of_fmap in Hin as ([k' v] & -> & Hin).
  apply list_elem_of_In, filter_In in Hin as [Hin _].
  apply list_elem_of_fmap. exists (k', v). split; [reflexivity|].
  now apply list_elem_of_In.
Qed.

Lemma storable_prune (item : value) :
  storable_item item ->
  is_json (prune item) = true /\ same_props item (prune item).
Proof.
  intros (props & -> & Hnd & Hall). cbn [prune]. split.
  - cbn [is_json]. apply andb_true_intro. split.
    + apply forallb_forall. intros [k v] Hin.
      apply filter_In in Hin as [Hin Hdef].
      rewrite Forall_forall in Hall. apply list_elem_of_In in Hin.
      destruct (Hall _ Hin) as [Hu | Hj]; [|exact Hj].
      cbn [snd] in Hu. subst v. discriminate Hdef.
    + apply bool_decide_eq_true.
      clear Hall. induction props as [|[k v] props IH]; [constructor|].
      rewrite fmap_cons in Hnd. apply NoDup_cons in Hnd as [Hk Hnd].
      cbn [List.filter]. destruct (defined (k, v)); [|now apply IH].
      rewrite fmap_cons. apply NoDup_cons.
      split; [now apply filter_defined_keys | now apply IH].
  - intros k. cbn [prop]. clear Hall.
    induction props as [|[k' v] props IH]; [reflexivity|].
    rewrite fmap_cons in Hnd. apply NoDup_cons in Hnd as [Hk' Hnd].
    cbn [List.filter lookup_prop]. unfold defined at 1. cbn [snd fst] in *.
    destruct (String.eqb_spec k k') as [->|Hne].
    + destruct v; cbn [lookup_prop]; rewrite ?String.eqb_refl; try reflexivity.
      now rewrite (lookup_prop_None _ _ (filter_defined_keys _ _ Hk')).
    + destruct v; cbn [lookup_prop];
        try (destruct (String.eqb_spec k k') as [?|_]; [contradiction|]);
        now apply IH.
Qed.

Lemma prune_is_json (v : value) : is_json v = true -> prune v = v.
Proof.
  destruct v as [ | | b | n | s | l | props ]; try reflexivity.
  cbn [is_json prune]. intros H. apply andb_prop in H as [H _]. f_equal.
  induction props as [|[k x] props IH]; [reflexivity|].
  cbn [forallb snd] in H. apply andb_prop in H as [Hx H].
  cbn [List.filter]. unfold defined at 1. cbn [snd].
  destruct x; try discriminate Hx; now rewrite (IH H).
Qed.

Lemma prune_well_formed (item : value) :
  well_formed_item item -> well_formed_item (prune item).
Proof.
  intros (props & i & c & t & -> & Hi & Hc & Hcat & Ht).
  assert (Hkeep : forall k s,
            lookup_prop k props = Some (Str s) ->
            lookup_prop k (List.filter defined props) = Some (Str s)).
  { clear. intros k s. induction props as [|[k' v] props IH]; [discriminate|].
    cbn [lookup_prop List.filter]. unfold defined at 1. cbn [snd].
    destruct (String.eqb_spec k k') as [->|Hne].
    - intros [= ->]. cbn [lookup_prop]. now rewrite String.eqb_refl.
    - intros H. destruct v; cbn [lookup_prop];
        try (destruct (String.eqb_spec k k') as [?|_]; [contradiction|]);
        now apply IH. }
  exists (List.filter defined props), i, c, t. cbn [prune]. repeat split; auto.
Qed.

Lemma getWatchlist_stored (items : list value) (w : World) :
  Forall storable_item items ->
  Forall well_formed_item items ->
  getItem_refused (storage w) = None ->
  durable w = Some (JSON.stringify items) ->
  getWatchlist w = Normal (List.map prune items, w).
Proof.
  intros Hst Hwf Hget Hdur.
  unfold getWatchlist, getWatchlist_try, localStorage.getItem, try_catch.
  unfold durable in Hdur. rewrite Hget, Hdur. cbn [mbind completion_bind].
  rewrite stringify_not_empty, <- stringify_prune, parse_stringify.
  - cbn [mbind completion_bind].
    assert (validateWatchlistData (Array (List.map prune items)) = Normal true) as ->.
    { apply validateWatchlistData_true. eexists. split; [reflexivity|].
      apply Forall_fmap. eapply Forall_impl; [exact Hwf|].
      apply prune_well_formed. }
    reflexivity.
  - apply Forall_fmap. eapply Forall_impl; [exact Hst|].
    intros item H. now apply storable_prune.
Qed.

(** ** C7 *)

(** C7. Round trip.  Let [c] be a list that passes the schema (every
    element an object with a string [id], a [category] [movie] or [tv]
    and a string [title]) and whose elements hold JSON values or
    [undefined] in properties of distinct names.  In a store that accepts
    the write and the read, [saveWatchlist c] followed by [getWatchlist]
    returns, without logging, a list with the elements of [c] in the same
    order, and every property read on a returned element gives the value
    it gives on the element of [c].  A property that is [undefined] is
    not written and reads as [undefined] again; when [c] has no such
    property the returned list is [c] itself. *)
Theorem save_then_load_round_trip (c : list value) (w : World) :
  Forall storable_item c ->
  Forall well_formed_item c ->
  setItem_refused (storage w) STORAGE_KEY (JSON.stringify c) = None ->
  getItem_refused (storage w) = None ->
  exists w1 c',
    saveWatchlist c w = Normal w1
    /\ getWatchlist w1 = Normal (c', w1)
    /\ console_output w1 = console_output w
    /\ Forall2 same_props c c'
    /\ (Forall (fun x => is_json x = true) c -> c' = c).
Proof.
  intros Hst Hwf Hset Hget.
  destruct (saveWatchlist_accepted c w Hset) as (w1 & Hsave & Hdur & Hcon & Hg & _).
  exists w1, (List.map prune c). split; [exact Hsave|].
  split; [apply getWatchlist_stored; try assumption; congruence|].
  split; [exact Hcon|]. split.
  - apply Forall2_fmap_r, Forall_Forall2_diag.
    eapply Forall_impl; [exact Hst|]. intros item H. now apply storable_prune.
  - intros Hjson. rewrite <- (List.map_id c) at 2. apply List.map_ext_in.
    intros x Hx. apply prune_is_json.
    rewrite Forall_forall in Hjson. apply Hjson. now apply list_elem_of_In.
Qed.

(** A list of the declared type [IWatchlistItem[]] meets the hypotheses
    on the list: it comes back as it was saved. *)
Lemma typed_item_is_json (i : IWatchlistItem.t) :
  is_json (IWatchlistItem.to_value i) = true.
Proof.
  cbn [IWatchlistItem.to_value is_json forallb snd andb]. compute_done.
Qed.

Lemma typed_item_well_formed (i : IWatchlistItem.t) :
  well_formed_item (IWatchlistItem.to_value i).
Proof.
  eexists _, _, _, _. split; [reflexivity|]. repeat split.
  destruct (IWatchlistItem.category i); [left | right]; reflexivity.
Qed.

Lemma typed_list_round_trip (c : list IWatchlistItem.t) (w : World) :
  let items := List.map IWatchlistItem.to_value c in
  setItem_refused (storage w) STORAGE_KEY (JSON.stringify items) = None ->
  getItem_refused (storage w) = None ->
  exists w1,
    saveWatchlist items w = Normal w1
    /\ getWatchlist w1 = Normal (items, w1).
Proof.
  intros items Hset Hget.
  destruct (saveWatchlist_accepted items w Hset) as (w1 & Hsave & Hdur & _ & Hg & _).
  exists w1. split; [exact Hsave|].
  assert (Hjson : Forall (fun x => is_json x = true) items)
    by (apply Forall_fmap, Forall_forall; intros i _; apply typed_item_is_json).
  assert (Hprune : List.map prune items = items).
  { rewrite <- (List.map_id items) at 2. apply List.map_ext_in.
    intros x Hx. apply prune_is_json.
    rewrite Forall_forall in Hjson. apply Hjson. now apply list_elem_of_In. }
  replace (Normal (items, w1)) with (Normal (List.map prune items, w1))
    by now rewrite Hprune.
  apply getWatchlist_stored.
  - apply Forall_fmap, Forall_forall. intros i _.
    eexists. split; [reflexivity|]. split; [compute_done|].
    repeat (apply List.Forall_cons; [right; reflexivity|]). apply List.Forall_nil.
  - apply Forall_fmap, Forall_forall. intros i _. apply typed_item_well_formed.
  - congruence.
  - exact Hdur.
Qed.

(* ================================================================== *)
(** * 9. The provider                                                 *)
(* ================================================================== *)

Lemma get_prop (v : value) (k : string) :
  nullish v = false -> get v k = Normal (prop v k).
Proof. now destruct v. Qed.

Lemma is_object_not_nullish (v : value) : is_object v -> nullish v = false.
Proof. now destruct v. Qed.

Lemma well_formed_is_object (item : value) :
  well_formed_item item -> is_object item.
Proof. now intros (props & _ & _ & _ & -> & _). Qed.

Lemma strict_eq_string_true (v : value) (k : string) :
  strict_eq_string v k = true <-> v = Str k.
Proof.
  destruct v; cbn; try (split; [discriminate | intros [=]]).
  rewrite String.eqb_eq. split; [now intros -> | now intros [= ->]].
Qed.

Lemma has_id_true (k : string) (items : list value) :
  has_id k items = true <-> exists item, item ∈ items /\ id_of item = Str k.
Proof.
  unfold has_id. rewrite existsb_exists. split.
  - intros (item & Hin & H). exists item.
    split; [now apply list_elem_of_In | now apply strict_eq_string_true].
  - intros (item & Hin & H). exists item.
    split; [now apply list_elem_of_In | now apply strict_eq_string_true].
Qed.

Lemma has_id_ids (k : string) (items : list value) :
  has_id k items = true <-> Str k ∈ ids items.
Proof.
  rewrite has_id_true. unfold ids. rewrite list_elem_of_fmap. split.
  - intros (item & Hin & H). eauto.
  - intros (item & H & Hin). eauto.
Qed.

Lemma array_some_has_id (k : string) (items : list value) :
  Forall is_object items ->
  array_some (fun item => i ← get item "id"; Normal (strict_eq_string i k)) items
  = Normal (has_id k items).
Proof.
  induction 1 as [|x l Hx _ IH]; [reflexivity|].
  cbn [array_some has_id existsb].
  rewrite (get_prop x _ (is_object_not_nullish _ Hx)). cbn [mbind completion_bind].
  fold (id_of x). destruct (strict_eq_string (id_of x) k); [reflexivity|].
  exact IH.
Qed.

Lemma array_filter_without_id (k : string) (items : list value) :
  Forall is_object items ->
  array_filter
    (fun item => i ← get item "id"; Normal (negb (strict_eq_string i k))) items
  = Normal (without_id k items).
Proof.
  unfold without_id.
  induction 1 as [|x l Hx _ IH]; [reflexivity|].
  cbn [array_filter List.filter].
  rewrite (get_prop x _ (is_object_not_nullish _ Hx)). cbn [mbind completion_bind].
  rewrite IH. cbn [mbind completion_bind]. reflexivity.
Qed.

Lemma newItem_prop (k now : string) (movie : value) :
  nullish movie = false ->
  newItem k now movie
  = Normal (Object
      [ ("id", Str k);
        ("category", logical_or (prop movie "category") (Str "movie"));
        ("poster_path", prop movie "poster_path");
        ("title", logical_or (logical_or (prop movie "original_title")
                                         (prop movie "name"))
                             (prop movie "title"));
        ("original_title", logical_or (prop movie "original_title") (Str ""));
        ("name", logical_or (prop movie "name") (Str ""));
        ("overview", prop movie "overview");
        ("backdrop_path", prop movie "backdrop_path");
        ("addedAt", Str now) ]).
Proof. intros H. unfold newItem. now rewrite !(get_prop movie _ H). Qed.

(** The element [addToWatchlist] builds for a candidate. *)
Lemma newItem_Normal (k now : string) (movie : value) :
  nullish movie = false ->
  exists item,
    newItem k now movie = Normal item
    /\ is_object item
    /\ id_of item = Str k
    /\ prop item "addedAt" = Str now.
Proof.
  intros H. rewrite (newItem_prop _ _ _ H). eexists. split; [reflexivity|].
  repeat split.
Qed.

Lemma apply_call_Add (items : list value) (movie : value) (now : string) :
  Forall is_object items -> nullish movie = false ->
  exists item,
    newItem (ToString (prop movie "id")) now movie = Normal item
    /\ apply_call items (Add movie now)
       = Normal (if has_id (ToString (prop movie "id")) items
                 then items else item :: items).
Proof.
  intros Hobj Hm.
  destruct (newItem_Normal (ToString (prop movie "id")) now movie Hm)
    as (item & Hitem & _).
  exists item. split; [exact Hitem|].
  cbn [apply_call]. unfold addToWatchlist.
  rewrite (get_prop movie _ Hm). cbn [mbind completion_bind].
  rewrite (array_some_has_id _ _ Hobj). cbn [mbind completion_bind].
  destruct (has_id _ items); [reflexivity|].
  rewrite Hitem. reflexivity.
Qed.

Lemma apply_call_Remove (items : list value) (id : value) :
  Forall is_object items ->
  apply_call items (Remove id) = Normal (without_id (ToString id) items).
Proof. intros H. cbn [apply_call]. now apply array_filter_without_id. Qed.

Lemma rerender_Normal (queued : update) (p : Provider) (items : list value) :
  queued (watchlistItems p) = Normal items ->
  exists w,
    saveWatchlist items (world p) = Normal w
    /\ rerender queued p = Normal {| watchlistItems := items; world := w |}.
Proof.
  intros H. destruct (saveWatchlist_Normal items (world p)) as [w Hw].
  exists w. split; [exact Hw|].
  unfold rerender, save_effect. rewrite H. cbn [mbind completion_bind].
  now rewrite Hw.
Qed.

Lemma rerender_memory (queued : update) (p : Provider) :
  memory (rerender queued p) = queued (watchlistItems p).
Proof.
  destruct (queued (watchlistItems p)) as [items|e] eqn:E.
  - destruct (rerender_Normal _ _ _ E) as (w & _ & ->). reflexivity.
  - unfold rerender. now rewrite E.
Qed.

(** The list a call leaves in memory does not depend on the store. *)
Lemma step_memory (p : Provider) (c : call) :
  memory (step p c) = apply_call (watchlistItems p) c.
Proof.
  destruct c as [movie now|id|]; cbn [step apply_call];
    try apply rerender_memory.
  destruct (addToWatchlist (watchlistItems p) now movie) as [[queued|]|e];
    cbn [mbind completion_bind]; [apply rerender_memory | reflexivity..].
Qed.

Lemma memory_Normal (c : completion Provider) (items : list value) :
  memory c = Normal items ->
  exists p, c = Normal p /\ watchlistItems p = items.
Proof. destruct c as [p|e]; [intros [= <-]; eauto | discriminate]. Qed.

Lemma run_memory (calls : list call) (p : Provider) :
  memory (run p calls) = apply_calls (watchlistItems p) calls.
Proof.
  revert p. induction calls as [|c calls IH]; intros p; [reflexivity|].
  cbn [run apply_calls]. rewrite <- step_memory.
  destruct (step p c) as [p'|e]; cbn [mbind completion_bind memory];
    [apply IH | reflexivity].
Qed.

(** ** Invariants of the list in memory *)

Lemma without_id_absent (k : string) (items : list value) :
  has_id k items = false -> without_id k items = items.
Proof.
  unfold has_id, without_id. induction items as [|x l IH]; [reflexivity|].
  cbn [existsb List.filter]. intros H. apply orb_false_elim in H as [Hx Hl].
  rewrite Hx. cbn [negb]. now rewrite (IH Hl).
Qed.

Lemma without_id_elem (k : string) (items : list value) (item : value) :
  item ∈ without_id k items <-> item ∈ items /\ id_of item <> Str k.
Proof.
  unfold without_id. rewrite !list_elem_of_In, filter_In, negb_true_iff.
  rewrite <- not_true_iff_false, strict_eq_string_true. reflexivity.
Qed.

Lemma without_id_sublist (k : string) (items : list value) :
  sublist (without_id k items) items.
Proof.
  unfold without_id. induction items as [|x l IH]; [constructor|].
  cbn [List.filter]. destruct (negb _); now constructor.
Qed.

Lemma has_id_without_id (k : string) (items : list value) :
  has_id k (without_id k items) = false.
Proof.
  apply not_true_iff_false. rewrite has_id_true.
  intros (item & Hin & Hid). now apply without_id_elem in Hin as [_ Hne].
Qed.

Lemma with_id_absent (k : string) (items : list value) :
  has_id k items = false -> with_id k items = [].
Proof.
  unfold has_id, with_id. induction items as [|x l IH]; [reflexivity|].
  cbn [existsb List.filter]. intros H. apply orb_false_elim in H as [Hx Hl].
  now rewrite Hx, (IH Hl).
Qed.

Lemma with_id_present (k : string) (items : list value) :
  has_id k items = true -> 1 <= length (with_id k items).
Proof.
  unfold has_id, with_id. induction items as [|x l IH]; [discriminate|].
  cbn [existsb List.filter].
  destruct (strict_eq_string (id_of x) k); [cbn [length]; lia | exact IH].
Qed.

Lemma with_id_NoDup (k : string) (items : list value) :
  NoDup (ids items) -> has_id k items = true -> length (with_id k items) = 1.
Proof.
  unfold ids, has_id, with_id. induction items as [|x l IH]; [discriminate|].
  cbn [List.map existsb List.filter]. intros Hnd H.
  apply NoDup_cons in Hnd as [Hx Hl].
  destruct (strict_eq_string (id_of x) k) eqn:E.
  - apply strict_eq_string_true in E.
    cbn [length]. f_equal.
    change (length (with_id k l) = 0). rewrite with_id_absent; [reflexivity|].
    apply not_true_iff_false. rewrite has_id_ids. now rewrite <- E.
  - cbn [orb] in H. now apply IH.
Qed.

Lemma with_id_at_most_one (k : string) (items : list value) :
  NoDup (ids items) -> length (with_id k items) <= 1.
Proof.
  intros Hnd. destruct (has_id k items) eqn:E.
  - rewrite with_id_NoDup by assumption. lia.
  - rewrite with_id_absent by assumption. cbn [length]. lia.
Qed.

Lemma Forall_is_object_sublist (l l' : list value) :
  sublist l l' -> Forall is_object l' -> Forall is_object l.
Proof.
  intros Hs Hall. apply Forall_forall. intros x Hx.
  rewrite Forall_forall in Hall. apply Hall.
  eapply sublist_subseteq; eauto.
Qed.

Lemma apply_call_progress (items : list value) (c : call) :
  Forall is_object items -> call_ok c ->
  exists items', apply_call items c = Normal items'.
Proof.
  intros Hobj Hok. destruct c as [movie now|id|].
  - destruct (apply_call_Add items movie now Hobj Hok) as (item & _ & ->). eauto.
  - rewrite (apply_call_Remove _ _ Hobj). eauto.
  - cbn. eauto.
Qed.

Lemma apply_call_invariant (items items' : list value) (c : call) :
  Forall is_object items -> apply_call items c = Normal items' ->
  Forall is_object items' /\ (NoDup (ids items) -> NoDup (ids items')).
Proof.
  intros Hobj H. destruct c as [movie now|id|].
  - destruct (nullish movie) eqn:Hm.
    { destruct movie; discriminate. }
    destruct (apply_call_Add items movie now Hobj Hm) as (item & Hitem & E).
    rewrite E in H. injection H as <-.
    destruct (newItem_Normal (ToString (prop movie "id")) now movie Hm)
      as (item' & Hitem' & Ho & Hid & _).
    assert (item' = item) as -> by congruence.
    destruct (has_id _ items) eqn:Hhas; [now split|].
    split; [now constructor|].
    intros Hnd. unfold ids. cbn [List.map]. apply NoDup_cons. split; [|exact Hnd].
    rewrite Hid. fold (ids items). rewrite <- has_id_ids. congruence.
  - rewrite (apply_call_Remove _ _ Hobj) in H. injection H as <-.
    pose proof (without_id_sublist (ToString id) items) as Hs.
    split; [eapply Forall_is_object_sublist; eauto|].
    intros Hnd. unfold ids in *. eapply sublist_NoDup; [exact Hnd|].
    now apply fmap_sublist.
  - injection H as <-. split; [constructor|]. intros _. constructor.
Qed.

Lemma apply_calls_objects (calls : list call) (items items' : list value) :
  Forall is_object items -> apply_calls items calls = Normal items' ->
  Forall is_object items'.
Proof.
  revert items. induction calls as [|c calls IH]; intros items Hobj;
    cbn [apply_calls]; [now intros [= <-]|].
  destruct (apply_call items c) as [items1|e] eqn:E; [|discriminate].
  cbn [mbind completion_bind]. apply IH.
  now apply (apply_call_invariant _ _ _ Hobj E).
Qed.

Lemma has_string_id_is_object (item : value) :
  has_string_id item -> is_object item.
Proof. intros [k H]. now destruct item. Qed.

Lemma well_formed_has_string_id (item : value) :
  well_formed_item item -> has_string_id item.
Proof.
  intros (props & i & _ & _ & -> & Hi & _). exists i.
  unfold id_of. cbn [prop]. now rewrite Hi.
Qed.

Lemma apply_call_string_ids (items items' : list value) (c : call) :
  Forall has_string_id items -> apply_call items c = Normal items' ->
  Forall has_string_id items'.
Proof.
  intros Hk H.
  assert (Hobj : Forall is_object items)
    by (eapply Forall_impl; [exact Hk | apply has_string_id_is_object]).
  destruct c as [movie now|id|].
  - destruct (nullish movie) eqn:Hm.
    { destruct movie; discriminate. }
    destruct (apply_call_Add items movie now Hobj Hm) as (item & Hitem & E).
    rewrite E in H. injection H as <-.
    destruct (newItem_Normal (ToString (prop movie "id")) now movie Hm)
      as (item' & Hitem' & _ & Hid & _).
    assert (item' = item) as -> by congruence.
    destruct (has_id _ items); [exact Hk|].
    constructor; [eexists; exact Hid | exact Hk].
  - rewrite (apply_call_Remove _ _ Hobj) in H. injection H as <-.
    apply Forall_forall. intros x Hx. rewrite Forall_forall in Hk. apply Hk.
    now apply without_id_elem in Hx as [Hx _].
  - injection H as <-. constructor.
Qed.

(** ** Mounting *)

Lemma getWatchlist_well_formed (w w' : World) (items : list value) :
  getWatchlist w = Normal (items, w') -> Forall well_formed_item items.
Proof.
  unfold getWatchlist, getWatchlist_try, try_catch.
  destruct (localStorage.getItem (storage w) STORAGE_KEY) as [[stored_text|]|e];
    cbn [mbind completion_bind]; try (intros [= <- _]; constructor).
  destruct (String.eqb stored_text ""); cbn [mbind completion_bind];
    try (intros [= <- _]; constructor).
  destruct (JSON.parse stored_text) as [data|e]; cbn [mbind completion_bind];
    try (intros [= <- _]; constructor).
  destruct (validateWatchlistData data) as [[]|e] eqn:Hv;
    cbn [mbind completion_bind]; try (intros [= <- _]; constructor).
  apply validateWatchlistData_true in Hv as (l & -> & Hall).
  now intros [= <- _].
Qed.

Lemma getWatchlist_parsed (w : World) (stored_text : string) (c : list value) :
  getItem_refused (storage w) = None ->
  durable w = Some stored_text ->
  JSON.parse stored_text = Normal (Array c) ->
  Forall well_formed_item c ->
  getWatchlist w = Normal (c, w).
Proof.
  intros Hget Hdur Hparse Hwf.
  unfold getWatchlist, getWatchlist_try, localStorage.getItem, try_catch.
  unfold durable in Hdur. rewrite Hget, Hdur. cbn [mbind completion_bind].
  destruct (String.eqb_spec stored_text "") as [->|_]; [discriminate Hparse|].
  rewrite Hparse. cbn [mbind completion_bind].
  assert (validateWatchlistData (Array c) = Normal true) as ->
    by (apply validateWatchlistData_true; eauto).
  reflexivity.
Qed.

Lemma mount_effects_Normal (w : World) :
  exists saved w1 w2,
    getWatchlist w = Normal (saved, w1)
    /\ saveWatchlist [] w1 = Normal w2
    /\ mount_effects w
       = Normal (fun _ => Normal saved, {| watchlistItems := []; world := w2 |}).
Proof.
  destruct (getWatchlist_Normal w) as (saved & w1 & Hload).
  destruct (saveWatchlist_Normal [] w1) as (w2 & Hsave).
  exists saved, w1, w2. repeat split; try assumption.
  unfold mount_effects, load_effect, save_effect.
  rewrite Hload. cbn [mbind completion_bind]. now rewrite Hsave.
Qed.

Lemma mount_Normal (w : World) :
  exists p,
    mount w = Normal p
    /\ Forall well_formed_item (watchlistItems p).
Proof.
  destruct (mount_effects_Normal w) as (saved & w1 & w2 & Hload & _ & Hm).
  destruct (saveWatchlist_Normal saved w2) as (w3 & Hsave).
  exists {| watchlistItems := saved; world := w3 |}.
  split; [|now apply getWatchlist_well_formed in Hload].
  unfold mount. rewrite Hm. cbn [mbind completion_bind].
  unfold rerender, save_effect. cbn. now rewrite Hsave.
Qed.

(** ** C1 *)

(** C1, as stated, fails.  The store holds a valid list of one element.
    The first effect reads it and queues it as the next state; the second
    effect then runs with the state of the first render, the empty list,
    and the store accepts the write: before the loaded list has replaced
    the state, the stored text is the text of the empty list. *)
Lemma first_save_precedes_hydration :
  JSON.parse (json_text "[{'id':'42','category':'tv','title':'Dark'}]")
    = Normal (Array [item42])
  /\ durable w42 = Some (json_text "[{'id':'42','category':'tv','title':'Dark'}]")
  /\ exists queued p1,
       mount_effects w42 = Normal (queued, p1)
       /\ queued (watchlistItems p1) = Normal [item42]
       /\ watchlistItems p1 = []
       /\ durable (world p1) = Some "[]"
       /\ durable (world p1) <> durable w42.
Proof.
  split; [vm_compute; reflexivity|]. split; [vm_compute; reflexivity|].
  eexists _, _. split; [vm_compute; reflexivity|].
  split; [reflexivity|]. split; [reflexivity|].
  split; [vm_compute; reflexivity | vm_compute; discriminate].
Qed.

(** C1, amended.  The provider has no guard between loading and saving.
    On mount the first effect reads the stored list before anything is
    written, and the second effect writes the state of the first render,
    the empty list.  When the loaded list has replaced the state, the
    second effect runs again and writes that list.  So, in a store that
    accepts reads and writes and holds a text that parses to a list [c]
    passing the schema: after the effects of the first render the state
    is empty and the stored text is that of the empty list, with [c]
    queued as the next state; once mounting is complete the state is
    [c], the stored text is the text of [c], and nothing was logged. *)
Theorem mount_saves_empty_then_loaded (w : World) (stored_text : string)
    (c : list value) :
  getItem_refused (storage w) = None ->
  (forall key t, setItem_refused (storage w) key t = None) ->
  durable w = Some stored_text ->
  JSON.parse stored_text = Normal (Array c) ->
  Forall well_formed_item c ->
  exists queued p1 p2,
    mount_effects w = Normal (queued, p1)
    /\ watchlistItems p1 = []
    /\ durable (world p1) = Some (JSON.stringify [])
    /\ queued (watchlistItems p1) = Normal c
    /\ rerender queued p1 = Normal p2
    /\ mount w = Normal p2
    /\ watchlistItems p2 = c
    /\ durable (world p2) = Some (JSON.stringify c)
    /\ console_output (world p2) = console_output w.
Proof.
  intros Hget Hset Hdur Hparse Hwf.
  pose proof (getWatchlist_parsed w stored_text c Hget Hdur Hparse Hwf) as Hload.
  destruct (saveWatchlist_accepted [] w (Hset _ _))
    as (w2 & Hsave2 & Hdur2 & Hcon2 & _ & Hset2).
  assert (Hacc2 : setItem_refused (storage w2) STORAGE_KEY (JSON.stringify c) = None)
    by (rewrite Hset2; apply Hset).
  destruct (saveWatchlist_accepted c w2 Hacc2) as (w3 & Hsave3 & Hdur3 & Hcon3 & _).
  assert (Hm : mount_effects w
               = Normal (fun _ => Normal c, {| watchlistItems := []; world := w2 |})).
  { unfold mount_effects, load_effect, save_effect.
    rewrite Hload. cbn [mbind completion_bind]. now rewrite Hsave2. }
  assert (Hr : rerender (fun _ => Normal c) {| watchlistItems := []; world := w2 |}
               = Normal {| watchlistItems := c; world := w3 |}).
  { unfold rerender, save_effect. cbn. now rewrite Hsave3. }
  eexists _, _, _. split; [exact Hm|].
  split; [reflexivity|]. split; [exact Hdur2|]. split; [reflexivity|].
  split; [exact Hr|].
  split; [unfold mount; rewrite Hm; cbn [mbind completion_bind]; exact Hr|].
  split; [reflexivity|]. split; [exact Hdur3|].
  cbn. congruence.
Qed.

Lemma mount_saves_empty_then_loaded_witness :
  exists queued p1 p2,
    mount_effects w42 = Normal (queued, p1)
    /\ watchlistItems p1 = []
    /\ durable (world p1) = Some (JSON.stringify [])
    /\ queued (watchlistItems p1) = Normal [item42]
    /\ rerender queued p1 = Normal p2
    /\ mount w42 = Normal p2
    /\ watchlistItems p2 = [item42]
    /\ durable (world p2) = Some (JSON.stringify [item42])
    /\ console_output (world p2) = console_output w42.
Proof.
  apply (mount_saves_empty_then_loaded w42
           (json_text "[{'id':'42','category':'tv','title':'Dark'}]") [item42]).
  - reflexivity.
  - intros key t. reflexivity.
  - vm_compute. reflexivity.
  - vm_compute. reflexivity.
  - constructor; [|constructor].
    exists [("id", Str "42"); ("category", Str "tv"); ("title", Str "Dark")],
      "42", "tv", "Dark".
    repeat split. right. reflexivity.
Defined.

(** ** Events *)

Lemma event_memory (p : Provider) (calls : list call) :
  memory (event p calls)
  = (us ← handlers (watchlistItems p) calls; apply_updates us (watchlistItems p)).
Proof.
  unfold event. destruct (handlers (watchlistItems p) calls) as [[|u us]|e];
    cbn [mbind completion_bind]; [reflexivity | | reflexivity].
  apply rerender_memory.
Qed.

(** An event of one call is that call followed by a render: [run] is a
    session in which every event makes one call. *)
Lemma event_one_call (p : Provider) (c : call) : event p [c] = step p c.
Proof.
  assert (Hone : forall q, rerender (apply_updates [q]) p = rerender q p).
  { intros q. unfold rerender. cbn [apply_updates].
    now destruct (q (watchlistItems p)). }
  unfold event. destruct c as [movie now|id|]; cbn [handlers queued_update step];
    cbn [mbind completion_bind]; try apply Hone.
  destruct (addToWatchlist (watchlistItems p) now movie) as [[q|]|e];
    cbn [mbind completion_bind]; [apply Hone | reflexivity..].
Qed.

Lemma session_of_single_calls (calls : list call) (p : Provider) :
  session p (List.map (fun c => [c]) calls) = run p calls.
Proof.
  revert p. induction calls as [|c calls IH]; intros p; [reflexivity|].
  cbn [List.map session run]. rewrite event_one_call.
  destruct (step p c) as [p'|e]; cbn [mbind completion_bind];
    [apply IH | reflexivity].
Qed.

(** The update [addToWatchlist] queues on a render whose state is a list
    of objects. *)
Lemma addToWatchlist_queued (items : list value) (movie : value) (now : string) :
  Forall is_object items -> nullish movie = false ->
  exists item,
    newItem (ToString (prop movie "id")) now movie = Normal item
    /\ id_of item = Str (ToString (prop movie "id"))
    /\ prop item "addedAt" = Str now
    /\ ((has_id (ToString (prop movie "id")) items = true
         /\ addToWatchlist items now movie = Normal None)
        \/ (has_id (ToString (prop movie "id")) items = false
            /\ exists q,
                 addToWatchlist items now movie = Normal (Some q)
                 /\ forall prev, q prev = Normal (item :: prev))).
Proof.
  intros Hobj Hm.
  destruct (newItem_Normal (ToString (prop movie "id")) now movie Hm)
    as (item & Hitem & _ & Hid & Hat).
  exists item. split; [exact Hitem|]. split; [exact Hid|]. split; [exact Hat|].
  unfold addToWatchlist. rewrite (get_prop movie _ Hm).
  cbn [mbind completion_bind]. rewrite (array_some_has_id _ _ Hobj).
  cbn [mbind completion_bind].
  destruct (has_id (ToString (prop movie "id")) items); [now left|].
  right. split; [reflexivity|]. rewrite Hitem. cbn [mbind completion_bind].
  eexists. split; [reflexivity|]. reflexivity.
Qed.

Lemma has_id_cons (k : string) (item : value) (items : list value) :
  has_id k (item :: items) = true -> id_of item = Str k \/ has_id k items = true.
Proof.
  unfold has_id. cbn [existsb]. intros H. apply orb_prop in H as [H|H].
  - left. now apply strict_eq_string_true.
  - now right.
Qed.

Lemma has_id_without_id_inv (k k' : string) (items : list value) :
  has_id k (without_id k' items) = true -> has_id k items = true.
Proof.
  rewrite !has_id_true. intros (item & Hin & Hid).
  apply without_id_elem in Hin as [Hin _]. eauto.
Qed.

(** The updates of one event keep the ids distinct when no two of its
    [addToWatchlist] calls are about the same id.  [earlier] are the ids
    of the calls of the event that have been worked through, [prev] the
    list reached by their updates. *)
Lemma updates_keep_ids_distinct (items : list value) (calls : list call) :
  Forall is_object items ->
  forall (earlier : list string) (prev : list value),
    Forall call_ok calls ->
    NoDup (earlier ++ added_ids calls) ->
    Forall has_string_id prev ->
    NoDup (ids prev) ->
    (forall k, has_id k prev = true -> has_id k items = true \/ k ∈ earlier) ->
    exists us result,
      handlers items calls = Normal us
      /\ apply_updates us prev = Normal result
      /\ Forall has_string_id result
      /\ NoDup (ids result).
Proof.
  intros Hobj. induction calls as [|c calls IH]; intros earlier prev Hok Hnd Hk Hd Hfrom.
  - exists [], prev. now repeat split.
  - apply Forall_cons in Hok as [Hc Hok].
    assert (Hprev : Forall is_object prev)
      by (eapply Forall_impl; [exact Hk | apply has_string_id_is_object]).
    destruct c as [movie now|id|]; cbn [added_ids] in Hnd;
      cbn [handlers queued_update].
    + cbn [call_ok] in Hc.
      destruct (addToWatchlist_queued items movie now Hobj Hc)
        as (item & _ & Hid & _ & [[Hhas Hq] | [Hhas (q & Hq & Hq')]]);
        rewrite Hq; cbn [mbind completion_bind].
      * destruct (IH (earlier ++ [ToString (prop movie "id")]) prev Hok)
          as (us & result & Hus & Hres & Hk' & Hd'); try assumption.
        { now rewrite <- app_assoc. }
        { intros k Hkp. destruct (Hfrom k Hkp) as [H|H]; [now left|].
          right. apply elem_of_app. now left. }
        exists us, result. rewrite Hus. now repeat split.
      * assert (Hnew : has_id (ToString (prop movie "id")) prev = false).
        { apply not_true_iff_false. intros Hin.
          destruct (Hfrom _ Hin) as [H|H]; [congruence|].
          apply NoDup_app in Hnd as (_ & Hdisj & _).
          apply (Hdisj _ H). left. }
        destruct (IH (earlier ++ [ToString (prop movie "id")]) (item :: prev) Hok)
          as (us & result & Hus & Hres & Hk' & Hd').
        { now rewrite <- app_assoc. }
        { constructor; [eexists; exact Hid | exact Hk]. }
        { unfold ids. cbn [List.map]. apply NoDup_cons. split; [|exact Hd].
          rewrite Hid. fold (ids prev). rewrite <- has_id_ids. congruence. }
        { intros k Hkp. apply has_id_cons in Hkp as [Hkp|Hkp].
          - right. apply elem_of_app. right.
            rewrite Hid in Hkp. injection Hkp as <-. left.
          - destruct (Hfrom k Hkp) as [H|H]; [now left|].
            right. apply elem_of_app. now left. }
        exists (q :: us), result. rewrite Hus. cbn [mbind completion_bind].
        split; [reflexivity|]. cbn [apply_updates]. rewrite Hq'.
        now repeat split.
    + destruct (IH earlier (without_id (ToString id) prev) Hok Hnd)
        as (us & result & Hus & Hres & Hk' & Hd').
      { apply Forall_forall. intros x Hx. rewrite Forall_forall in Hk. apply Hk.
        now apply without_id_elem in Hx as [Hx _]. }
      { unfold ids in *. eapply sublist_NoDup; [exact Hd|].
        apply fmap_sublist, without_id_sublist. }
      { intros k Hkp. apply Hfrom. now apply has_id_without_id_inv in Hkp. }
      exists (removeFromWatchlist id :: us), result. rewrite Hus.
      cbn [mbind completion_bind]. split; [reflexivity|].
      cbn [apply_updates]. unfold removeFromWatchlist at 1.
      rewrite (array_filter_without_id _ _ Hprev). now repeat split.
    + destruct (IH earlier [] Hok Hnd) as (us & result & Hus & Hres & Hk' & Hd').
      { constructor. }
      { constructor. }
      { discriminate. }
      exists (clearWatchlist :: us), result. rewrite Hus.
      cbn [mbind completion_bind]. now repeat split.
Qed.

Lemma event_keeps_ids_distinct (p : Provider) (calls : list call) :
  Forall has_string_id (watchlistItems p) ->
  NoDup (ids (watchlistItems p)) ->
  Forall call_ok calls ->
  NoDup (added_ids calls) ->
  exists p',
    event p calls = Normal p'
    /\ Forall has_string_id (watchlistItems p')
    /\ NoDup (ids (watchlistItems p')).
Proof.
  intros Hk Hd Hok Hnd.
  assert (Hobj : Forall is_object (watchlistItems p))
    by (eapply Forall_impl; [exact Hk | apply has_string_id_is_object]).
  destruct (updates_keep_ids_distinct (watchlistItems p) calls Hobj []
              (watchlistItems p) Hok Hnd Hk Hd)
    as (us & result & Hus & Hres & Hk' & Hd'); [now left|].
  assert (Hmem : memory (event p calls) = Normal result)
    by (rewrite event_memory, Hus; exact Hres).
  apply memory_Normal in Hmem as (p' & Hev & Hitems).
  exists p'. rewrite Hitems. now repeat split.
Qed.

Lemma session_keeps_ids_distinct (events : list (list call)) (p : Provider) :
  Forall has_string_id (watchlistItems p) ->
  NoDup (ids (watchlistItems p)) ->
  Forall (Forall call_ok) events ->
  Forall (fun calls => NoDup (added_ids calls)) events ->
  exists p',
    session p events = Normal p'
    /\ Forall has_string_id (watchlistItems p')
    /\ NoDup (ids (watchlistItems p')).
Proof.
  revert p. induction events as [|calls events IH]; intros p Hk Hd Hok Hnd.
  - exists p. now repeat split.
  - apply Forall_cons in Hok as [Hc Hok]. apply Forall_cons in Hnd as [Hn Hnd].
    destruct (event_keeps_ids_distinct p calls Hk Hd Hc Hn) as (p1 & Hev & Hk1 & Hd1).
    destruct (IH p1 Hk1 Hd1 Hok Hnd) as (p' & Hs & Hk' & Hd').
    exists p'. cbn [session]. rewrite Hev. now repeat split.
Qed.

(** ** C2 *)

(** C2, as stated, fails.  A stored list in which two elements have the
    same id passes the schema, which looks at each element on its own;
    mounting takes that list as the state, and its ids are not pairwise
    distinct.  And from an empty store, two calls of [addToWatchlist]
    that one event handler makes for the same new id both pass the check
    for a present id, which reads the state of the render, and both
    updates put an element in front: the list holds the id twice. *)
Lemma repeated_ids_are_reachable :
  validateWatchlistData (Array [twice_a; twice_b]) = Normal true
  /\ memory (mount w_twice) = Normal [twice_a; twice_b]
  /\ ids [twice_a; twice_b] = [Str "1"; Str "1"]
  /\ ~ NoDup (ids [twice_a; twice_b])
  /\ (items ← memory (p ← mount w_empty; event p [Add dark "t1"; Add dark "t2"]);
      Normal (ids items)) = Normal [Str "2"; Str "2"]
  /\ ~ NoDup [Str "2"; Str "2"].
Proof.
  split; [reflexivity|]. split; [vm_compute; reflexivity|].
  split; [reflexivity|].
  split; [intros H; apply NoDup_cons in H as [H _]; apply H; left|].
  split; [vm_compute; reflexivity|].
  intros H. apply NoDup_cons in H as [H _]. apply H. left.
Qed.

(** C2, amended.  The ids are pairwise distinct in the empty list the
    provider starts from, and [addToWatchlist], [removeFromWatchlist] and
    [clearWatchlist] keep them so under the conditions below: if the list
    that mounting has loaded has pairwise distinct ids, then every
    sequence of events completes and leaves a list of elements whose ids
    are strings and pairwise distinct.  An event is the calls that one
    handler makes on the handlers of one render; the conditions are that
    no candidate is [null] or [undefined], that every id passed is one
    that [String] coerces, and that no two [addToWatchlist] calls of one
    event are given the same canonical id.  In particular the ids stay
    distinct through every sequence of calls each of which is made after
    the render that follows the call before it.  The schema does not look
    for repeated ids, so the loaded list has them distinct only if the
    stored one has. *)
Theorem calls_keep_ids_distinct (w : World) (loaded : list value) :
  memory (mount w) = Normal loaded ->
  NoDup (ids loaded) ->
  NoDup (ids (@nil value))
  /\ (forall events : list (list call),
        Forall (Forall call_ok) events ->
        Forall (Forall coercible_call) events ->
        Forall (fun calls => NoDup (added_ids calls)) events ->
        exists items,
          memory (p ← mount w; session p events) = Normal items
          /\ Forall has_string_id items
          /\ NoDup (ids items))
  /\ (forall calls : list call,
        Forall call_ok calls ->
        Forall coercible_call calls ->
        exists items,
          memory (p ← mount w; run p calls) = Normal items
          /\ Forall has_string_id items
          /\ NoDup (ids items)).
Proof.
  intros Hmount Hnd. split; [constructor|].
  destruct (mount_Normal w) as (p & Hp & Hwf).
  rewrite Hp in Hmount |- *. injection Hmount as Hloaded.
  cbn [mbind completion_bind].
  assert (Hk : Forall has_string_id (watchlistItems p)).
  { eapply Forall_impl; [exact Hwf|]. apply well_formed_has_string_id. }
  rewrite <- Hloaded in Hnd.
  assert (Hevents : forall events : list (list call),
            Forall (Forall call_ok) events ->
            Forall (fun calls => NoDup (added_ids calls)) events ->
            exists items,
              memory (session p events) = Normal items
              /\ Forall has_string_id items /\ NoDup (ids items)).
  { intros events Hok Hadds.
    destruct (session_keeps_ids_distinct events p Hk Hnd Hok Hadds)
      as (p' & Hs & Hk' & Hd').
    exists (watchlistItems p'). rewrite Hs. now repeat split. }
  split.
  - intros events Hok _ Hadds. now apply Hevents.
  - intros calls Hok _. rewrite <- session_of_single_calls. apply Hevents.
    + apply Forall_fmap. eapply Forall_impl; [exact Hok|].
      intros c Hc. now constructor.
    + apply Forall_fmap, Forall_forall. intros c _.
      destruct c; cbn [added_ids]; [apply NoDup_singleton | constructor..].
Qed.

Lemma calls_keep_ids_distinct_witness :
  NoDup (ids (@nil value))
  /\ (exists items,
        memory (p ← mount w42;
                session p [[Add inception "t1"; Add dark "t2"; Remove (Number 42)];
                           [Add inception_again "t3"];
                           [Clear; Add dark "t4"; Add inception "t5"]])
        = Normal items
        /\ Forall has_string_id items
        /\ NoDup (ids items))
  /\ (exists items,
        memory (p ← mount w42;
                run p [Add inception "t1"; Add inception_again "t2";
                       Remove (Number 42); Add dark "t3"])
        = Normal items
        /\ Forall has_string_id items
        /\ NoDup (ids items)).
Proof.
  destruct (calls_keep_ids_distinct w42 [item42]) as (Hempty & Hevents & Hcalls).
  - vm_compute. reflexivity.
  - apply NoDup_singleton.
  - split; [exact Hempty|]. split.
    + apply Hevents.
      * repeat (apply List.Forall_cons;
                [repeat (apply List.Forall_cons; [first [reflexivity | exact I]|]);
                 apply List.Forall_nil|]).
        apply List.Forall_nil.
      * repeat (apply List.Forall_cons;
                [repeat (apply List.Forall_cons; [first [reflexivity | exact I]|]);
                 apply List.Forall_nil|]).
        apply List.Forall_nil.
      * repeat (apply List.Forall_cons; [compute_done|]). apply List.Forall_nil.
    + apply Hcalls.
      * repeat (apply List.Forall_cons; [first [reflexivity | exact I]|]).
        apply List.Forall_nil.
      * repeat (apply List.Forall_cons; [first [reflexivity | exact I]|]).
        apply List.Forall_nil.
Defined.

(** ** C3 *)

Lemma logical_or_default_string (v : value) (d : string) :
  string_or_absent v -> typeof (logical_or v (Str d)) = "string".
Proof.
  unfold logical_or. intros [H | ->]; [|reflexivity].
  now destruct (truthy v).
Qed.

Lemma first_truthy_string (a b c : value) :
  string_or_absent a -> string_or_absent b -> string_or_absent c ->
  truthy (first_truthy a b c) = true ->
  typeof (first_truthy a b c) = "string".
Proof.
  unfold first_truthy. intros Ha Hb Hc.
  destruct (truthy a) eqn:Ea.
  { intros _. destruct Ha as [Ha | ->]; [exact Ha | discriminate Ea]. }
  destruct (truthy b) eqn:Eb.
  { intros _. destruct Hb as [Hb | ->]; [exact Hb | discriminate Eb]. }
  intros Ec. destruct Hc as [Hc | ->]; [exact Hc | discriminate Ec].
Qed.

(** C3, as stated, fails.  [dark] leaves out [category], [original_title]
    and [backdrop_path], as a candidate may: the element built for it has
    the name as its title and [movie] as its category, but its
    [backdrop_path] is [undefined], not a string.  [retitled] has an
    [original_title], the empty string: the title of its element is not
    that [original_title] but the name. *)
Lemma omitted_properties_stay_undefined :
  (exists item,
     memory (p ← mount w_empty; step p (Add dark "t1")) = Normal [item]
     /\ prop item "title" = Str "Dark"
     /\ prop item "category" = Str "movie"
     /\ prop item "backdrop_path" = Undefined
     /\ typeof (prop item "backdrop_path") <> "string")
  /\ (exists item,
        memory (p ← mount w_empty; step p (Add retitled "t1")) = Normal [item]
        /\ prop retitled "original_title" = Str ""
        /\ prop item "title" = Str "Dark"
        /\ prop item "title" <> prop retitled "original_title").
Proof.
  split; eexists; (split; [vm_compute; reflexivity|]);
    repeat split; discriminate.
Qed.

(** C3, amended.  For a candidate that is neither [null] nor [undefined]
    and whose canonical id is not in the list yet, [addToWatchlist] puts a
    new element at the head of the list.  Its [id] is the string coercion
    of the candidate's id and its [addedAt] is the current time.  When
    one of the candidate's [original_title], [name] and raw [title] is
    truthy (present and not empty), the [title] of the element is the
    first of them that is, in this order.  Its [category] is the
    candidate's when truthy, else [movie]; [original_title] and [name]
    are the candidate's when truthy, else the empty string;
    [poster_path], [overview] and [backdrop_path] are the candidate's,
    unchanged.  The properties of the element are all strings when the
    candidate gives [category], [original_title], [name] and [title] as
    strings or not at all, at least one of the three titles is truthy,
    and [poster_path], [overview] and [backdrop_path] are given as
    strings. *)
Theorem addToWatchlist_normalises (p : Provider) (movie : value) (now : string) :
  Forall is_object (watchlistItems p) ->
  nullish movie = false ->
  has_id (ToString (prop movie "id")) (watchlistItems p) = false ->
  exists item,
    memory (step p (Add movie now)) = Normal (item :: watchlistItems p)
    /\ prop item "id" = Str (ToString (prop movie "id"))
    /\ prop item "addedAt" = Str now
    /\ (truthy (first_truthy (prop movie "original_title") (prop movie "name")
                  (prop movie "title")) = true ->
        prop item "title"
        = first_truthy (prop movie "original_title") (prop movie "name")
            (prop movie "title"))
    /\ prop item "category"
       = (if truthy (prop movie "category") then prop movie "category"
          else Str "movie")
    /\ prop item "original_title"
       = (if truthy (prop movie "original_title") then prop movie "original_title"
          else Str "")
    /\ prop item "name"
       = (if truthy (prop movie "name") then prop movie "name" else Str "")
    /\ prop item "poster_path" = prop movie "poster_path"
    /\ prop item "overview" = prop movie "overview"
    /\ prop item "backdrop_path" = prop movie "backdrop_path"
    /\ (Forall (fun k => string_or_absent (prop movie k))
          ["category"; "original_title"; "name"; "title"] ->
        truthy (first_truthy (prop movie "original_title") (prop movie "name")
                  (prop movie "title")) = true ->
        Forall (fun k => typeof (prop movie k) = "string")
          ["poster_path"; "overview"; "backdrop_path"] ->
        Forall (fun k => typeof (prop item k) = "string") schema_fields).
Proof.
  intros Hobj Hm Hnew.
  destruct (apply_call_Add _ movie now Hobj Hm) as (item & Hitem & Hcall).
  rewrite Hnew in Hcall. rewrite (newItem_prop _ _ _ Hm) in Hitem.
  injection Hitem as <-.
  eexists. split; [rewrite step_memory; exact Hcall|].
  assert (Ht : logical_or (logical_or (prop movie "original_title")
                                     (prop movie "name")) (prop movie "title")
               = first_truthy (prop movie "original_title") (prop movie "name")
                   (prop movie "title")).
  { unfold logical_or, first_truthy.
    destruct (truthy (prop movie "original_title")) eqn:E1;
      [now rewrite E1 | reflexivity]. }
  split; [reflexivity|]. split; [reflexivity|]. split; [intros _; exact Ht|].
  do 6 (split; [reflexivity|]).
  intros Hopt Htitle Hreq.
  apply Forall_cons in Hopt as [Hcat Hopt].
  apply Forall_cons in Hopt as [Hot Hopt].
  apply Forall_cons in Hopt as [Hnm Hopt].
  apply Forall_cons in Hopt as [Htt _].
  apply Forall_cons in Hreq as [Hpp Hreq].
  apply Forall_cons in Hreq as [Hov Hreq].
  apply Forall_cons in Hreq as [Hbp _].
  unfold schema_fields.
  repeat (apply Forall_cons; split); try apply Forall_nil_2;
    cbn [prop lookup_prop String.eqb Ascii.eqb Bool.eqb default from_option id];
    try reflexivity; try assumption.
  - now apply logical_or_default_string.
  - rewrite Ht. now apply first_truthy_string.
  - now apply logical_or_default_string.
  - now apply logical_or_default_string.
Qed.

Lemma addToWatchlist_normalises_witness :
  exists item,
    memory (step {| watchlistItems := [item42]; world := w42 |} (Add inception "t1"))
    = Normal [item; item42]
    /\ prop item "id" = Str "1"
    /\ prop item "addedAt" = Str "t1"
    /\ prop item "title" = Str "Inception"
    /\ prop item "category" = Str "movie"
    /\ prop item "original_title" = Str "Inception"
    /\ prop item "name" = Str ""
    /\ prop item "poster_path" = Str "/i.jpg"
    /\ prop item "overview" = Str "A thief."
    /\ prop item "backdrop_path" = Str "/ib.jpg"
    /\ Forall (fun k => typeof (prop item k) = "string") schema_fields.
Proof.
  destruct (addToWatchlist_normalises
              {| watchlistItems := [item42]; world := w42 |} inception "t1")
    as (item & H1 & H2 & H3 & H4 & H5 & H6 & H7 & H8 & H9 & H10 & H11).
  - repeat constructor.
  - reflexivity.
  - reflexivity.
  - exists item. split; [exact H1|]. split; [exact H2|]. split; [exact H3|].
    split; [apply H4; reflexivity|]. repeat (split; [assumption|]).
    apply H11.
    + repeat constructor; (left; reflexivity) || (right; reflexivity).
    + reflexivity.
    + repeat constructor.
Defined.

(** ** C5 *)

Lemma step_Add_present (p : Provider) (movie : value) (now : string) :
  Forall is_object (watchlistItems p) -> nullish movie = false ->
  has_id (ToString (prop movie "id")) (watchlistItems p) = true ->
  step p (Add movie now) = Normal p.
Proof.
  intros Hobj Hm Hhas. cbn [step]. unfold addToWatchlist.
  rewrite (get_prop movie _ Hm). cbn [mbind completion_bind].
  rewrite (array_some_has_id _ _ Hobj), Hhas. reflexivity.
Qed.

Lemma step_Add_absent (p : Provider) (movie : value) (now : string) :
  Forall is_object (watchlistItems p) -> nullish movie = false ->
  has_id (ToString (prop movie "id")) (watchlistItems p) = false ->
  exists item p',
    newItem (ToString (prop movie "id")) now movie = Normal item
    /\ is_object item
    /\ id_of item = Str (ToString (prop movie "id"))
    /\ prop item "addedAt" = Str now
    /\ step p (Add movie now) = Normal p'
    /\ watchlistItems p' = item :: watchlistItems p.
Proof.
  intros Hobj Hm Hhas.
  destruct (newItem_Normal (ToString (prop movie "id")) now movie Hm)
    as (item & Hitem & Ho & Hid & Hat).
  destruct (apply_call_Add _ movie now Hobj Hm) as (item' & Hitem' & Hcall).
  assert (item' = item) as -> by congruence.
  rewrite Hhas, <- step_memory in Hcall.
  apply memory_Normal in Hcall as (p' & Hstep & Hitems).
  exists item, p'. now repeat split.
Qed.

Lemma run_Add_present (k : string) (later : list (value * string)) (p : Provider) :
  Forall is_object (watchlistItems p) ->
  has_id k (watchlistItems p) = true ->
  Forall (fun c => nullish c.1 = false /\ ToString (prop c.1 "id") = k) later ->
  run p (List.map (fun c => Add c.1 c.2) later) = Normal p.
Proof.
  intros Hobj Hhas. induction 1 as [|[m t] later [Hm Hk] _ IH]; [reflexivity|].
  cbn [List.map run fst snd] in *.
  rewrite step_Add_present; [exact IH | exact Hobj | exact Hm | now rewrite Hk].
Qed.

(** C5, as stated, fails.  A stored list in which two elements have the
    id 1 passes the schema and becomes the state; calls of
    [addToWatchlist] for candidates of that id change nothing, and two
    elements have the id, not one.  And from an empty store, two calls
    that one event handler makes for candidates of the same new id both
    pass the check for a present id, which reads the state of the render:
    two elements have the id, and the one in front carries the time of
    the second call. *)
Lemma repeated_add_can_leave_two :
  memory (p ← mount w_twice; run p [Add inception "t1"; Add inception_again "t2"])
  = Normal [twice_a; twice_b]
  /\ length (with_id "1" [twice_a; twice_b]) = 2
  /\ (items ← memory (p ← mount w_empty;
                      event p [Add inception "t1"; Add inception "t2"]);
      Normal (length (with_id "1" items),
              List.map (fun item => prop item "addedAt") items))
     = Normal (2, [Str "t2"; Str "t1"]).
Proof. repeat split; vm_compute; reflexivity. Qed.

(** C5, amended.  Start from a list of objects in which at most one
    element has the id [k] (the empty list, or any list with pairwise
    distinct ids) and make any number of [addToWatchlist] calls whose
    candidates are given (not [null] or [undefined]) and have the same
    canonical id [k], each call after the render that follows the call
    before it.  The first call completes.  If [k] was not in the
    list, it puts at the head the element built from the first candidate,
    whose [addedAt] is the time of that first call; if [k] was in the
    list, it changes nothing.  Every later call leaves the provider as
    the first call left it, the list and the store alike.  In the end
    exactly one element has the id [k]. *)
Theorem repeated_add_keeps_first (p : Provider) (k : string)
    (first : value) (t1 : string) (later : list (value * string)) :
  Forall is_object (watchlistItems p) ->
  length (with_id k (watchlistItems p)) <= 1 ->
  nullish first = false ->
  ToString (prop first "id") = k ->
  Forall (fun c => nullish c.1 = false /\ ToString (prop c.1 "id") = k) later ->
  exists p1,
    step p (Add first t1) = Normal p1
    /\ (has_id k (watchlistItems p) = false ->
        exists item,
          newItem k t1 first = Normal item
          /\ watchlistItems p1 = item :: watchlistItems p
          /\ with_id k (watchlistItems p1) = [item]
          /\ prop item "addedAt" = Str t1)
    /\ (has_id k (watchlistItems p) = true -> p1 = p)
    /\ run p1 (List.map (fun c => Add c.1 c.2) later) = Normal p1
    /\ (forall n, run p1 (List.map (fun c => Add c.1 c.2) (take n later)) = Normal p1)
    /\ length (with_id k (watchlistItems p1)) = 1.
Proof.
  intros Hobj Hone Hm Hk Hlater.
  destruct (has_id k (watchlistItems p)) eqn:Hhas.
  - exists p. split; [apply step_Add_present; congruence|].
    split; [discriminate|]. split; [reflexivity|].
    split; [now apply (run_Add_present k)|].
    split; [|pose proof (with_id_present k _ Hhas); lia].
    intros n. apply (run_Add_present k); try assumption.
    now apply Forall_take.
  - rewrite <- Hk in Hhas.
    destruct (step_Add_absent p first t1 Hobj Hm Hhas)
      as (item & p1 & Hitem & Ho & Hid & Hat & Hstep & Hitems).
    rewrite Hk in *.
    assert (Hwith : with_id k (watchlistItems p1) = [item]).
    { rewrite Hitems. unfold with_id. cbn [List.filter].
      rewrite (proj2 (strict_eq_string_true _ _) Hid).
      f_equal. now apply with_id_absent. }
    assert (Hobj1 : Forall is_object (watchlistItems p1))
      by (rewrite Hitems; now constructor).
    assert (Hhas1 : has_id k (watchlistItems p1) = true).
    { apply has_id_true. exists item. rewrite Hitems. split; [left | exact Hid]. }
    exists p1. split; [exact Hstep|].
    split; [intros _; exists item; now repeat split|].
    split; [discriminate|].
    split; [now apply (run_Add_present k)|].
    split; [|now rewrite Hwith].
    intros n. apply (run_Add_present k); try assumption.
    now apply Forall_take.
Qed.

Lemma repeated_add_keeps_first_witness :
  exists p1,
    step {| watchlistItems := [item42]; world := w42 |} (Add inception "t1")
    = Normal p1
    /\ (has_id "1" [item42] = false ->
        exists item,
          newItem "1" "t1" inception = Normal item
          /\ watchlistItems p1 = [item; item42]
          /\ with_id "1" (watchlistItems p1) = [item]
          /\ prop item "addedAt" = Str "t1")
    /\ (has_id "1" [item42] = true ->
        p1 = {| watchlistItems := [item42]; world := w42 |})
    /\ run p1 [Add inception_again "t2"; Add inception "t3"] = Normal p1
    /\ (forall n,
          run p1 (List.map (fun c => Add c.1 c.2)
                    (take n [(inception_again, "t2"); (inception, "t3")]))
          = Normal p1)
    /\ length (with_id "1" (watchlistItems p1)) = 1.
Proof.
  apply (repeated_add_keeps_first
           {| watchlistItems := [item42]; world := w42 |} "1" inception "t1"
           [(inception_again, "t2"); (inception, "t3")]).
  - repeat constructor.
  - cbn. lia.
  - reflexivity.
  - reflexivity.
  - repeat constructor.
Defined.

(** ** C6 *)

(** C6, as stated, fails.  The list holds the elements with ids 3 and 1.
    The candidates [inception] (id 1) and [dark] (id 2) have distinct
    canonical ids, but id 1 is in the list already: the first call adds
    nothing, and the list ends as the element of [dark] followed by the
    two old elements in their old order, the element with id 3 second.
    It is not the element of [dark], then that of [inception], then the
    old elements. *)
Lemma add_of_present_id_is_not_prepended :
  ToString (prop inception "id") = "1"
  /\ ToString (prop dark "id") = "2"
  /\ ids [kept3; kept1] = [Str "3"; Str "1"]
  /\ exists a b,
       newItem "1" "t1" inception = Normal a
       /\ newItem "2" "t2" dark = Normal b
       /\ memory (run {| watchlistItems := [kept3; kept1]; world := w_empty |}
                    [Add inception "t1"; Add dark "t2"])
          = Normal [b; kept3; kept1]
       /\ [b; kept3; kept1] <> [b; a; kept3; kept1].
Proof.
  split; [reflexivity|]. split; [reflexivity|]. split; [reflexivity|].
  eexists _, _. split; [vm_compute; reflexivity|].
  split; [vm_compute; reflexivity|].
  split; [vm_compute; reflexivity | discriminate].
Qed.

(** C6, amended.  For every list of objects and two candidates whose
    canonical ids are distinct and not in the list, [addToWatchlist(a)]
    followed by [addToWatchlist(b)] leaves the element built for [b],
    then the element built for [a], then the previous elements in their
    previous order. *)
Theorem add_prepends_new_ids (p : Provider) (a b : value) (ta tb : string) :
  Forall is_object (watchlistItems p) ->
  nullish a = false -> nullish b = false ->
  ToString (prop a "id") <> ToString (prop b "id") ->
  has_id (ToString (prop a "id")) (watchlistItems p) = false ->
  has_id (ToString (prop b "id")) (watchlistItems p) = false ->
  exists item_a item_b,
    newItem (ToString (prop a "id")) ta a = Normal item_a
    /\ newItem (ToString (prop b "id")) tb b = Normal item_b
    /\ memory (run p [Add a ta; Add b tb])
       = Normal (item_b :: item_a :: watchlistItems p).
Proof.
  intros Hobj Ha Hb Hne Hna Hnb.
  destruct (step_Add_absent p a ta Hobj Ha Hna)
    as (item_a & p1 & Hia & Hoa & Hida & _ & Hstep1 & Hitems1).
  assert (Hobj1 : Forall is_object (watchlistItems p1))
    by (rewrite Hitems1; now constructor).
  assert (Hnb1 : has_id (ToString (prop b "id")) (watchlistItems p1) = false).
  { rewrite Hitems1. unfold has_id. cbn [existsb].
    fold (has_id (ToString (prop b "id")) (watchlistItems p)).
    rewrite Hnb, orb_false_r. apply not_true_iff_false.
    rewrite strict_eq_string_true, Hida. congruence. }
  destruct (step_Add_absent p1 b tb Hobj1 Hb Hnb1)
    as (item_b & p2 & Hib & _ & _ & _ & Hstep2 & Hitems2).
  exists item_a, item_b. split; [exact Hia|]. split; [exact Hib|].
  cbn [run]. rewrite Hstep1. cbn [mbind completion_bind].
  rewrite Hstep2. cbn [mbind completion_bind memory].
  now rewrite Hitems2, Hitems1.
Qed.

Lemma add_prepends_new_ids_witness :
  exists item_a item_b,
    newItem "1" "t1" inception = Normal item_a
    /\ newItem "2" "t2" dark = Normal item_b
    /\ memory (run {| watchlistItems := [item42]; world := w42 |}
                 [Add inception "t1"; Add dark "t2"])
       = Normal [item_b; item_a; item42].
Proof.
  apply (add_prepends_new_ids
           {| watchlistItems := [item42]; world := w42 |} inception dark "t1" "t2").
  - repeat constructor.
  - reflexivity.
  - reflexivity.
  - vm_compute. discriminate.
  - reflexivity.
  - reflexivity.
Defined.

(** ** C7, at a concrete list *)

Lemma save_then_load_round_trip_witness :
  exists w1 c',
    saveWatchlist [saved_dark; item42] w_empty = Normal w1
    /\ getWatchlist w1 = Normal (c', w1)
    /\ console_output w1 = console_output w_empty
    /\ Forall2 same_props [saved_dark; item42] c'
    /\ (Forall (fun x => is_json x = true) [saved_dark; item42] ->
        c' = [saved_dark; item42]).
Proof.
  apply (save_then_load_round_trip [saved_dark; item42] w_empty).
  - apply List.Forall_cons; [|apply List.Forall_cons; [|apply List.Forall_nil]];
      (eexists; split; [reflexivity|]; split;
       [ compute_done
       | repeat (apply List.Forall_cons;
                 [first [left; reflexivity | right; reflexivity]|]);
         apply List.Forall_nil ]).
  - apply List.Forall_cons; [|apply List.Forall_cons; [|apply List.Forall_nil]];
      (eexists _, _, _, _; split; [reflexivity|]; repeat split;
       first [left; reflexivity | right; reflexivity]).
  - reflexivity.
  - reflexivity.
Defined.

(** ** C8 *)

Lemma run_memory_same (p q : Provider) (calls : list call) :
  watchlistItems p = watchlistItems q ->
  memory (run p calls) = memory (run q calls).
Proof. intros H. now rewrite !run_memory, H. Qed.

(** C8.  When the store rejects the write, [saveWatchlist] completes
    normally: nothing is thrown to the caller, the store is as it was,
    and one line is added to the console.  The line is the storage-full
    message exactly when the error is an [Error] named
    [QuotaExceededError]; otherwise it is the general failure message
    with the error.  The list in memory is no part of this: what a
    sequence of calls leaves in memory is the same whatever the store of
    the provider does, so a provider whose writes are all rejected works
    in memory as any other. *)
Theorem rejected_write_is_logged_not_thrown (items : list value) (w : World)
    (error : exn) :
  localStorage.setItem (storage w) STORAGE_KEY (JSON.stringify items) = Throw error ->
  saveWatchlist items w
  = Normal {| storage := storage w;
              console_output := console_output w ++
                [ if is_quota_error error
                  then {| message := "Watchlist storage full. Please remove some items.";
                          detail := None |}
                  else {| message := "Failed to save watchlist:";
                          detail := Some error |} ] |}
  /\ (is_quota_error error = true
      <-> instanceof_Error error = true /\ error_name error = "QuotaExceededError")
  /\ forall (p q : Provider) (calls : list call),
       world p = w -> watchlistItems p = watchlistItems q ->
       memory (run p calls) = memory (run q calls).
Proof.
  intros H. split; [|split].
  - rewrite (saveWatchlist_rejected _ _ _ H). now destruct (is_quota_error error).
  - unfold is_quota_error. rewrite andb_true_iff, String.eqb_eq. reflexivity.
  - intros p q calls _. apply run_memory_same.
Qed.

Lemma rejected_write_is_logged_not_thrown_witness :
  saveWatchlist [item42] (fresh_world (full ∅))
  = Normal {| storage := full ∅;
              console_output := [ {| message := "Watchlist storage full. Please remove some items.";
                              detail := None |} ] |}
  /\ (is_quota_error QuotaExceededError = true
      <-> instanceof_Error QuotaExceededError = true
          /\ error_name QuotaExceededError = "QuotaExceededError")
  /\ forall (p q : Provider) (calls : list call),
       world p = fresh_world (full ∅) -> watchlistItems p = watchlistItems q ->
       memory (run p calls) = memory (run q calls).
Proof.
  apply (rejected_write_is_logged_not_thrown [item42] (fresh_world (full ∅))
           QuotaExceededError).
  reflexivity.
Defined.

(** ** C9 *)

(** C9.  For every list of objects and every argument [x], a string or a
    number or any other value, [isInWatchlist(x)] completes, and it
    answers [true] exactly when some element of the list has the string
    [String(x)] as its [id].  The number 42 and the string of its
    digits have the same coercion; so when mounting has loaded a list of
    one element whose id is that string, [isInWatchlist(42)] answers
    [true]. *)
Theorem isInWatchlist_by_canonical_id (items : list value) (x : value) :
  Forall is_object items ->
  (exists b,
     isInWatchlist items x = Normal b
     /\ (b = true <-> exists item, item ∈ items /\ id_of item = Str (ToString x)))
  /\ ToString (Number 42) = ToString (Str "42")
  /\ forall (w : World) (item : value),
       memory (mount w) = Normal [item] ->
       id_of item = Str "42" ->
       (p ← mount w; isInWatchlist (watchlistItems p) (Number 42)) = Normal true.
Proof.
  intros Hobj. split; [|split; [reflexivity|]].
  - exists (has_id (ToString x) items). split.
    + unfold isInWatchlist. now apply array_some_has_id.
    + apply has_id_true.
  - intros w item Hmount Hid.
    apply memory_Normal in Hmount as (p & -> & Hitems).
    cbn [mbind completion_bind]. rewrite Hitems. unfold isInWatchlist.
    rewrite array_some_has_id.
    + f_equal. apply has_id_true. exists item. split; [left | exact Hid].
    + constructor; [|constructor]. destruct item; try discriminate Hid. exact I.
Qed.

Lemma isInWatchlist_by_canonical_id_witness :
  (exists b,
     isInWatchlist [item42] (Number 42) = Normal b
     /\ (b = true <-> exists item, item ∈ [item42] /\ id_of item = Str "42"))
  /\ memory (mount w42) = Normal [item42]
  /\ (p ← mount w42; isInWatchlist (watchlistItems p) (Number 42)) = Normal true.
Proof.
  destruct (isInWatchlist_by_canonical_id [item42] (Number 42)) as (H1 & _ & H3).
  - repeat constructor.
  - split; [exact H1|]. split; [vm_compute; reflexivity|].
    apply (H3 w42 item42); [vm_compute; reflexivity | reflexivity].
Defined.

(** ** C10 *)

(** C10.  For every list of objects, [removeFromWatchlist(id)] completes
    and leaves exactly the elements whose [id] is not the string
    [String(id)], in their previous order: no element with that id is
    left.  When no element has that id the list is unchanged; so a
    second removal of the same id changes nothing. *)
Theorem removeFromWatchlist_removes_matching (p : Provider) (id : value) :
  Forall is_object (watchlistItems p) ->
  exists p',
    step p (Remove id) = Normal p'
    /\ watchlistItems p' = without_id (ToString id) (watchlistItems p)
    /\ (forall item,
          item ∈ watchlistItems p'
          <-> item ∈ watchlistItems p /\ id_of item <> Str (ToString id))
    /\ sublist (watchlistItems p') (watchlistItems p)
    /\ has_id (ToString id) (watchlistItems p') = false
    /\ (has_id (ToString id) (watchlistItems p) = false ->
        watchlistItems p' = watchlistItems p)
    /\ exists p'',
         step p' (Remove id) = Normal p''
         /\ watchlistItems p'' = watchlistItems p'.
Proof.
  intros Hobj.
  pose proof (apply_call_Remove _ id Hobj) as H.
  rewrite <- step_memory in H. apply memory_Normal in H as (p' & Hstep & Hitems).
  assert (Hobj' : Forall is_object (watchlistItems p')).
  { rewrite Hitems. eapply Forall_is_object_sublist; [|exact Hobj].
    apply without_id_sublist. }
  pose proof (apply_call_Remove _ id Hobj') as H'.
  rewrite <- step_memory in H'.
  apply memory_Normal in H' as (p'' & Hstep' & Hitems').
  exists p'. split; [exact Hstep|]. split; [exact Hitems|].
  split; [intros item; rewrite Hitems; apply without_id_elem|].
  split; [rewrite Hitems; apply without_id_sublist|].
  split; [rewrite Hitems; apply has_id_without_id|].
  split; [intros Habs; rewrite Hitems; now apply without_id_absent|].
  exists p''. split; [exact Hstep'|].
  rewrite Hitems'. apply without_id_absent.
  rewrite Hitems. apply has_id_without_id.
Qed.

Lemma removeFromWatchlist_removes_matching_witness :
  exists p',
    step {| watchlistItems := [twice_a; item42]; world := w42 |} (Remove (Number 42))
    = Normal p'
    /\ watchlistItems p' = without_id "42" [twice_a; item42]
    /\ (forall item,
          item ∈ watchlistItems p'
          <-> item ∈ [twice_a; item42] /\ id_of item <> Str "42")
    /\ sublist (watchlistItems p') [twice_a; item42]
    /\ has_id "42" (watchlistItems p') = false
    /\ (has_id "42" [twice_a; item42] = false ->
        watchlistItems p' = [twice_a; item42])
    /\ exists p'',
         step p' (Remove (Number 42)) = Normal p''
         /\ watchlistItems p'' = watchlistItems p'.
Proof.
  apply (removeFromWatchlist_removes_matching
           {| watchlistItems := [twice_a; item42]; world := w42 |} (Number 42)).
  repeat constructor.
Defined.

(* ================================================================== *)
(** * 10. Reachable states and scenarios                              *)
(* ================================================================== *)

(** Mounting always completes, whatever the store holds or does, and
    every list the provider can reach from there consists of objects:
    the hypothesis [Forall is_object] of the statements above holds in
    every reachable state. *)
Lemma reachable_lists_hold_objects (w : World) (calls : list call)
    (items : list value) :
  memory (p ← mount w; run p calls) = Normal items -> Forall is_object items.
Proof.
  destruct (mount_Normal w) as (p & -> & Hwf). cbn [mbind completion_bind].
  rewrite run_memory. apply apply_calls_objects.
  eapply Forall_impl; [exact Hwf | apply well_formed_is_object].
Qed.

(** A store without the key: one element is added, found under its
    canonical id, and removed again. *)
Example add_has_remove :
  let movie := Object [("id", Number 1); ("category", Str "movie");
                       ("title", Str "Inception")] in
  (p0 ← mount w_empty;
   p1 ← step p0 (Add movie "2024-05-01T10:00:00.000Z");
   has1 ← isInWatchlist (watchlistItems p1) (Str "1");
   p2 ← step p1 (Remove (Str "1"));
   has2 ← isInWatchlist (watchlistItems p2) (Str "1");
   Normal (length (watchlistItems p0), has1, length (watchlistItems p1),
           has2, length (watchlistItems p2), durable (world p2)))
  = Normal (0, true, 1, false, 0, Some "[]").
Proof. vm_compute. reflexivity. Qed.

(** What the store holds after an element was added: the nine properties
    in the order of the object literal, the absent ones left out. *)
Example stored_text_after_add :
  (p0 ← mount w_empty;
   p1 ← step p0 (Add dark "t1");
   Normal (durable (world p1)))
  = Normal (Some (json_text
      ("[{'id':'2','category':'movie','poster_path':'/d.jpg','title':'Dark',"
       +:+ "'original_title':'','name':'Dark','overview':'A town.',"
       +:+ "'addedAt':'t1'}]"))).
Proof. vm_compute. reflexivity. Qed.

(** A stored list with one element of an unknown category, and one with
    an element without id, are answered by the empty list, silently; an
    element [null] and a text that is not JSON are answered by the empty
    list and one line on the console. *)
Example corrupt_data_falls_back :
  (r ← getWatchlist (stored "[{'id':'1','category':'book','title':'A'}]");
   Normal (r.1, console_output r.2)) = Normal ([], [])
  /\ (r ← getWatchlist (stored "[{'category':'tv','title':'A'}]");
      Normal (r.1, console_output r.2)) = Normal ([], [])
  /\ (r ← getWatchlist (stored "[{'id':1,'category':'tv','title':'A'}]");
      Normal (r.1, console_output r.2)) = Normal ([], [])
  /\ (r ← getWatchlist (stored "[null]"); Normal (r.1, console_output r.2))
     = Normal ([], [ {| message := "Failed to load watchlist:";
                        detail := Some TypeError |} ])
  /\ (r ← getWatchlist (stored "[{'id':'1',"); Normal (r.1, console_output r.2))
     = Normal ([], [ {| message := "Failed to load watchlist:";
                        detail := Some SyntaxError |} ]).
Proof. repeat split; vm_compute; reflexivity. Qed.

(** An element added without any title is stored without one, and the
    next load rejects the whole stored list. *)
Example untitled_element_empties_next_load :
  (p0 ← mount w_empty;
   p1 ← step p0 (Add inception "t1");
   p2 ← step p1 (Add untitled "t2");
   p3 ← mount (fresh_world (storage (world p2)));
   Normal (length (watchlistItems p2), watchlistItems p3))
  = Normal (2, []).
Proof. vm_compute. reflexivity. Qed.

(** A store that refuses every access: the provider works in memory and
    every refusal is one line on the console. *)
Example disabled_store_session :
  (p0 ← mount (fresh_world disabled);
   p1 ← run p0 [Add inception "t1"; Add dark "t2"; Remove (Number 1)];
   Normal (ids (watchlistItems p1), length (console_output (world p1)),
           durable (world p1)))
  = Normal ([Str "2"], 6, None).
Proof. vm_compute. reflexivity. Qed.

(* ================================================================== *)
(** * 11. The store under the provider                                *)
(* ================================================================== *)

(** What [saveWatchlist] can change of a world. *)
Lemma saveWatchlist_frame (items : list value) (w w' : World) :
  saveWatchlist items w = Normal w' ->
  getItem_refused (storage w') = getItem_refused (storage w)
  /\ setItem_refused (storage w') = setItem_refused (storage w)
  /\ (forall key, key <> STORAGE_KEY ->
        entries (storage w') !! key = entries (storage w) !! key)
  /\ (durable w' = Some (JSON.stringify items) \/ durable w' = durable w).
Proof.
  unfold saveWatchlist, localStorage.setItem, try_catch.
  destruct (setItem_refused (storage w) STORAGE_KEY (JSON.stringify items))
    as [e|] eqn:E; cbn [mbind completion_bind].
  - destruct (instanceof_Error e && _); intros [= <-]; cbn; auto.
  - intros [= <-]. cbn. repeat split.
    + intros key Hne. now rewrite lookup_insert_ne.
    + left. unfold durable. cbn. now rewrite lookup_insert_eq.
Qed.

Lemma getWatchlist_storage (w w' : World) (items : list value) :
  getWatchlist w = Normal (items, w') -> storage w' = storage w.
Proof.
  unfold getWatchlist, try_catch.
  destruct (getWatchlist_try (storage w)); cbn [mbind completion_bind];
    now intros [= _ <-].
Qed.

Lemma same_elsewhere_refl (st : Storage) : same_elsewhere st st.
Proof. now repeat split. Qed.

Lemma same_elsewhere_trans (a b c : Storage) :
  same_elsewhere a b -> same_elsewhere b c -> same_elsewhere a c.
Proof.
  intros (G1 & S1 & E1) (G2 & S2 & E2). repeat split; try congruence.
  intros key Hne. now rewrite E2, E1.
Qed.

Lemma saveWatchlist_elsewhere (items : list value) (w w' : World) :
  saveWatchlist items w = Normal w' -> same_elsewhere (storage w) (storage w').
Proof. intros H. apply saveWatchlist_frame in H as (? & ? & ? & _). now repeat split. Qed.

Lemma rerender_elsewhere (queued : update) (p p' : Provider) :
  rerender queued p = Normal p' ->
  same_elsewhere (storage (world p)) (storage (world p')).
Proof.
  unfold rerender, save_effect.
  destruct (queued (watchlistItems p)) as [items|]; [|discriminate].
  cbn [mbind completion_bind].
  destruct (saveWatchlist items (world p)) as [w|] eqn:E; [|discriminate].
  intros [= <-]. cbn. now apply saveWatchlist_elsewhere in E.
Qed.

Lemma step_elsewhere (p p' : Provider) (c : call) :
  step p c = Normal p' ->
  same_elsewhere (storage (world p)) (storage (world p')).
Proof.
  destruct c as [movie now|id|]; cbn [step]; try apply rerender_elsewhere.
  destruct (addToWatchlist (watchlistItems p) now movie) as [[queued|]|];
    cbn [mbind completion_bind]; try discriminate.
  - apply rerender_elsewhere.
  - intros [= <-]. apply same_elsewhere_refl.
Qed.

Lemma run_elsewhere (calls : list call) (p p' : Provider) :
  run p calls = Normal p' ->
  same_elsewhere (storage (world p)) (storage (world p')).
Proof.
  revert p. induction calls as [|c calls IH]; intros p; cbn [run].
  - intros [= <-]. apply same_elsewhere_refl.
  - destruct (step p c) as [p1|] eqn:E; [|discriminate].
    cbn [mbind completion_bind]. intros H.
    eapply same_elsewhere_trans; [exact (step_elsewhere _ _ _ E) | exact (IH _ H)].
Qed.

Lemma mount_elsewhere (w : World) (p : Provider) :
  mount w = Normal p -> same_elsewhere (storage w) (storage (world p)).
Proof.
  destruct (mount_effects_Normal w) as (saved & w1 & w2 & Hload & Hsave & Hm).
  unfold mount. rewrite Hm. cbn [mbind completion_bind]. intros H.
  apply rerender_elsewhere in H. cbn in H.
  apply getWatchlist_storage in Hload. apply saveWatchlist_elsewhere in Hsave.
  rewrite Hload in Hsave.
  eapply same_elsewhere_trans; eauto.
Qed.

(** X1.  The provider owns one key.  Whatever the store holds and however
    it answers, mounting and any sequence of calls leave every other key
    of [localStorage] with the value it had, or without one if it had
    none. *)
Theorem other_keys_are_untouched (w : World) (calls : list call)
    (p : Provider) (key : string) :
  key <> STORAGE_KEY ->
  (p0 ← mount w; run p0 calls) = Normal p ->
  entries (storage (world p)) !! key = entries (storage w) !! key.
Proof.
  intros Hne H.
  destruct (mount w) as [p0|] eqn:Hm; [|discriminate].
  cbn [mbind completion_bind] in H.
  apply mount_elsewhere in Hm. apply run_elsewhere in H.
  destruct (same_elsewhere_trans _ _ _ Hm H) as (_ & _ & E).
  now apply E.
Qed.

(** ** The stored text follows the list in memory *)

Lemma writes_accepted_elsewhere (st st' : Storage) :
  same_elsewhere st st' -> writes_accepted st -> writes_accepted st'.
Proof. intros (_ & S & _) H key t. rewrite S. apply H. Qed.

Lemma rerender_mirrored (queued : update) (p p' : Provider) :
  writes_accepted (storage (world p)) ->
  rerender queued p = Normal p' -> mirrored p'.
Proof.
  intros Hacc. unfold rerender, save_effect.
  destruct (queued (watchlistItems p)) as [items|]; [|discriminate].
  cbn [mbind completion_bind].
  destruct (saveWatchlist_accepted items (world p) (Hacc _ _))
    as (w & -> & Hdur & _).
  intros [= <-]. exact Hdur.
Qed.

Lemma step_mirrored (p p' : Provider) (c : call) :
  writes_accepted (storage (world p)) -> mirrored p ->
  step p c = Normal p' -> mirrored p'.
Proof.
  intros Hacc Hmir. destruct c as [movie now|id|]; cbn [step];
    try now apply rerender_mirrored.
  destruct (addToWatchlist (watchlistItems p) now movie) as [[queued|]|];
    cbn [mbind completion_bind]; try discriminate.
  - now apply rerender_mirrored.
  - now intros [= <-].
Qed.

Lemma run_mirrored (calls : list call) (p p' : Provider) :
  writes_accepted (storage (world p)) -> mirrored p ->
  run p calls = Normal p' ->
  mirrored p' /\ writes_accepted (storage (world p')).
Proof.
  revert p. induction calls as [|c calls IH]; intros p Hacc Hmir; cbn [run].
  - now intros [= <-].
  - destruct (step p c) as [p1|] eqn:E; [|discriminate].
    cbn [mbind completion_bind]. apply IH.
    + eapply writes_accepted_elsewhere; [exact (step_elsewhere _ _ _ E) | exact Hacc].
    + now apply (step_mirrored p p1 c).
Qed.

Lemma mount_mirrored (w : World) (p : Provider) :
  writes_accepted (storage w) -> mount w = Normal p ->
  mirrored p /\ writes_accepted (storage (world p)).
Proof.
  intros Hacc Hmount. split.
  - destruct (mount_effects_Normal w) as (saved & w1 & w2 & Hload & Hsave & Hm).
    unfold mount in Hmount. rewrite Hm in Hmount.
    cbn [mbind completion_bind] in Hmount.
    eapply rerender_mirrored; [|exact Hmount]. cbn.
    eapply writes_accepted_elsewhere; [exact (saveWatchlist_elsewhere _ _ _ Hsave)|].
    apply getWatchlist_storage in Hload. now rewrite Hload.
  - eapply writes_accepted_elsewhere; [exact (mount_elsewhere _ _ Hmount) | exact Hacc].
Qed.

(** X2.  In a store that accepts writes, the stored text follows the
    list in memory: after mounting and after any sequence of calls, the
    text under the key is the serialization of the list the provider
    holds. *)
Theorem stored_text_follows_memory (w : World) (calls : list call)
    (p : Provider) :
  writes_accepted (storage w) ->
  (p0 ← mount w; run p0 calls) = Normal p ->
  durable (world p) = Some (JSON.stringify (watchlistItems p)).
Proof.
  intros Hacc H.
  destruct (mount w) as [p0|] eqn:Hm; [|discriminate].
  cbn [mbind completion_bind] in H.
  destruct (mount_mirrored w p0 Hacc Hm) as [Hmir Hacc0].
  now apply (run_mirrored calls p0 p Hacc0 Hmir).
Qed.

Lemma stored_text_follows_memory_witness :
  exists p,
    (p0 ← mount w42; run p0 [Add dark "t1"; Add dark "t2"; Remove (Str "42")])
    = Normal p
    /\ durable (world p) = Some (JSON.stringify (watchlistItems p)).
Proof.
  eexists. split; [vm_compute; reflexivity|].
  apply (stored_text_follows_memory w42
           [Add dark "t1"; Add dark "t2"; Remove (Str "42")]).
  - intros key t. reflexivity.
  - vm_compute. reflexivity.
Defined.

Lemma other_keys_are_untouched_witness :
  exists p,
    (p0 ← mount (fresh_world (accepting {[ "theme" := "dark" ]}));
     run p0 [Add dark "t1"; Clear]) = Normal p
    /\ entries (storage (world p)) !! "theme" = Some "dark".
Proof.
  eexists. split; [vm_compute; reflexivity|].
  eapply eq_trans.
  - apply (other_keys_are_untouched
             (fresh_world (accepting {[ "theme" := "dark" ]}))
             [Add dark "t1"; Clear]).
    + vm_compute. discriminate.
    + vm_compute. reflexivity.
  - vm_compute. reflexivity.
Defined.

(* ================================================================== *)
(** * 12. More on the adapter                                         *)
(* ================================================================== *)

Lemma item_is_valid_nullish (item : value) :
  nullish item = true -> item_is_valid item = Throw TypeError.
Proof. now destruct item. Qed.

Lemma item_is_valid_not_nullish (item : value) :
  nullish item = false -> exists b, item_is_valid item = Normal b.
Proof.
  destruct item; try discriminate; intros _;
    try (eexists; reflexivity).
  rewrite item_is_valid_object. eauto.
Qed.

Lemma item_is_valid_false (item : value) :
  item_is_valid item = Normal false
  <-> nullish item = false /\ ~ well_formed_item item.
Proof.
  split.
  - intros H. split.
    + destruct (nullish item) eqn:E; [|reflexivity].
      rewrite (item_is_valid_nullish _ E) in H. discriminate.
    + intros Hwf. apply item_is_valid_true in Hwf. congruence.
  - intros [Hn Hwf]. destruct (item_is_valid_not_nullish _ Hn) as [[] Hb];
      [|exact Hb].
    now apply item_is_valid_true in Hb.
Qed.

Lemma array_every_throw (good rest : list value) (bad : value) :
  Forall well_formed_item good -> nullish bad = true ->
  array_every item_is_valid (good ++ bad :: rest) = Throw TypeError.
Proof.
  intros Hgood Hbad. induction Hgood as [|x l Hx _ IH]; cbn [app array_every].
  - now rewrite (item_is_valid_nullish _ Hbad).
  - apply item_is_valid_true in Hx. now rewrite Hx.
Qed.

Lemma array_every_false (good rest : list value) (bad : value) :
  Forall well_formed_item good -> nullish bad = false -> ~ well_formed_item bad ->
  array_every item_is_valid (good ++ bad :: rest) = Normal false.
Proof.
  intros Hgood Hn Hbad. induction Hgood as [|x l Hx _ IH]; cbn [app array_every].
  - now rewrite (proj2 (item_is_valid_false bad) (conj Hn Hbad)).
  - apply item_is_valid_true in Hx. now rewrite Hx.
Qed.

(** The first element of a list that does not pass the schema. *)
Lemma first_ill_formed (elems : list value) :
  Forall well_formed_item elems
  \/ exists good bad rest,
       elems = good ++ bad :: rest
       /\ Forall well_formed_item good /\ ~ well_formed_item bad.
Proof.
  induction elems as [|x l IH]; [left; constructor|].
  destruct (item_is_valid x) as [[]|e] eqn:E.
  - apply item_is_valid_true in E. destruct IH as [IH | (good & bad & rest & -> & Hg & Hb)].
    + left. now constructor.
    + right. exists (x :: good), bad, rest. repeat split; [now constructor | exact Hb].
  - right. exists [], x, l. repeat split; [constructor|].
    intros Hwf. apply item_is_valid_true in Hwf. congruence.
  - right. exists [], x, l. repeat split; [constructor|].
    intros Hwf. apply item_is_valid_true in Hwf. congruence.
Qed.

Lemma app_cons_first_ill_formed (good good' rest rest' : list value)
    (bad bad' : value) :
  good ++ bad :: rest = good' ++ bad' :: rest' ->
  Forall well_formed_item good -> ~ well_formed_item bad ->
  Forall well_formed_item good' -> ~ well_formed_item bad' ->
  bad = bad'.
Proof.
  revert good'. induction good as [|x l IH]; intros [|y l'] E Hg Hb Hg' Hb';
    cbn [app] in E; injection E as -> E.
  - reflexivity.
  - apply Forall_cons in Hg' as [Hy _]. contradiction.
  - apply Forall_cons in Hg as [Hx _]. contradiction.
  - apply Forall_cons in Hg as [_ Hg]. apply Forall_cons in Hg' as [_ Hg'].
    now apply (IH l').
Qed.

(** X3.  The three outcomes of [validateWatchlistData].  It answers
    [true] exactly on an array whose every element passes the schema.  It
    throws exactly when the data is an array whose first element not
    passing the schema is [null] or [undefined], and what it throws is a
    [TypeError]: a [null] behind an element that has already failed is
    never reached.  In every other case, data that is not an array
    included, it answers [false]. *)
Theorem validateWatchlistData_outcomes (data : value) :
  (validateWatchlistData data = Normal true
   <-> exists elems, data = Array elems /\ Forall well_formed_item elems)
  /\ (forall e,
        validateWatchlistData data = Throw e
        <-> e = TypeError
            /\ exists good bad rest,
                 data = Array (good ++ bad :: rest)
                 /\ Forall well_formed_item good /\ nullish bad = true)
  /\ (validateWatchlistData data = Normal false
      <-> (forall elems, data <> Array elems)
          \/ exists good bad rest,
               data = Array (good ++ bad :: rest)
               /\ Forall well_formed_item good
               /\ nullish bad = false /\ ~ well_formed_item bad).
Proof.
  split; [apply validateWatchlistData_true|].
  assert (Hnull : forall v, nullish v = true -> ~ well_formed_item v).
  { intros v Hv (props & _ & _ & _ & -> & _). discriminate. }
  destruct data as [ | | b | n | s | elems | props ];
    try (split;
         [ intros e; split; [discriminate | now intros (_ & ? & ? & ? & ? & _)]
         | split; [intros _; left; discriminate | reflexivity] ]).
  cbn [validateWatchlistData].
  destruct (first_ill_formed elems) as [Hall | (good & bad & rest & -> & Hg & Hb)].
  - assert (Ht : array_every item_is_valid elems = Normal true)
      by (apply (validateWatchlistData_true (Array elems)); eauto).
    rewrite Ht. split.
    + intros e. split; [discriminate|].
      intros (_ & good & bad & rest & [= ->] & _ & Hbad).
      apply Forall_app in Hall as [_ Hall]. apply Forall_cons in Hall as [Hwf _].
      now destruct (Hnull _ Hbad).
    + split; [discriminate|].
      intros [Hno | (good & bad & rest & [= ->] & _ & _ & Hbad)].
      * now destruct (Hno elems).
      * apply Forall_app in Hall as [_ Hall]. now apply Forall_cons in Hall as [Hwf _].
  - destruct (nullish bad) eqn:Hn.
    + rewrite (array_every_throw good rest bad Hg Hn). split.
      * intros e. split; [intros [= <-]; split; eauto 10|reflexivity || now intros [-> _]].
      * split; [discriminate|].
        intros [Hno | (good' & bad' & rest' & [= E] & Hg' & Hn' & Hb')].
        -- now destruct (Hno (good ++ bad :: rest)).
        -- assert (bad = bad') as <-
             by now apply (app_cons_first_ill_formed good good' rest rest').
           congruence.
    + rewrite (array_every_false good rest bad Hg Hn Hb). split.
      * intros e. split; [discriminate|].
        intros (_ & good' & bad' & rest' & [= E] & Hg' & Hn').
        assert (bad = bad') as <-
          by (apply (app_cons_first_ill_formed good good' rest rest'); auto).
        congruence.
      * split; [intros _; right; eauto 10 | reflexivity].
Qed.

(** ** What [getWatchlist] reports *)

Lemma getWatchlist_of_parsed (w : World) (stored_text : string) (data : value) :
  getItem_refused (storage w) = None ->
  durable w = Some stored_text ->
  JSON.parse stored_text = Normal data ->
  getWatchlist w
  = match validateWatchlistData data with
    | Normal true => Normal (match data with Array l => l | _ => [] end, w)
    | Normal false => Normal ([], w)
    | Throw e => Normal ([], console.error "Failed to load watchlist:" (Some e) w)
    end.
Proof.
  intros Hget Hdur Hparse.
  unfold getWatchlist, getWatchlist_try, localStorage.getItem, try_catch.
  unfold durable in Hdur. rewrite Hget, Hdur. cbn [mbind completion_bind].
  destruct (String.eqb_spec stored_text "") as [->|_]; [discriminate Hparse|].
  rewrite Hparse. cbn [mbind completion_bind].
  now destruct (validateWatchlistData data) as [[]|].
Qed.

(** X4.  A stored array is discarded when its first element that does not
    pass the schema is met.  If that element is [null], reading its [id]
    throws and the failure is reported on the console, with the
    [TypeError].  If it is anything else (an object with a wrong or
    missing property, a number, a string), the stored data is discarded
    without any report: the console is as it was. *)
Theorem schema_failure_is_silent_unless_null (w : World) (stored_text : string)
    (good rest : list value) (bad : value) :
  getItem_refused (storage w) = None ->
  durable w = Some stored_text ->
  JSON.parse stored_text = Normal (Array (good ++ bad :: rest)) ->
  Forall well_formed_item good ->
  ~ well_formed_item bad ->
  getWatchlist w
  = Normal ([], if nullish bad
                then console.error "Failed to load watchlist:" (Some TypeError) w
                else w).
Proof.
  intros Hget Hdur Hparse Hg Hb.
  rewrite (getWatchlist_of_parsed w stored_text _ Hget Hdur Hparse).
  cbn [validateWatchlistData]. destruct (nullish bad) eqn:Hn.
  - now rewrite (array_every_throw good rest bad Hg Hn).
  - now rewrite (array_every_false good rest bad Hg Hn Hb).
Qed.

Lemma schema_failure_is_silent_unless_null_witness :
  getWatchlist (stored "[{'id':'1','category':'tv','title':'A'},{'id':2},null]")
  = Normal ([], stored "[{'id':'1','category':'tv','title':'A'},{'id':2},null]").
Proof.
  apply (schema_failure_is_silent_unless_null
           (stored "[{'id':'1','category':'tv','title':'A'},{'id':2},null]")
           (json_text "[{'id':'1','category':'tv','title':'A'},{'id':2},null]")
           [Object [("id", Str "1"); ("category", Str "tv"); ("title", Str "A")]]
           [Null] (Object [("id", Number 2)])).
  - reflexivity.
  - vm_compute. reflexivity.
  - vm_compute. reflexivity.
  - constructor; [|constructor]. eexists _, _, _, _.
    split; [reflexivity|]. repeat split. right. reflexivity.
  - intros (props & i & c & t & [= <-] & Hi & _). discriminate Hi.
Defined.

(** ** A rejected write and the list stored before *)

(** X5.  A write that the store rejects loses nothing that was stored:
    [saveWatchlist] completes, the text under the key is the one that was
    there, and [getWatchlist] returns the same list after it as before
    it. *)
Theorem rejected_save_keeps_stored_list (items : list value) (w : World)
    (error : exn) :
  localStorage.setItem (storage w) STORAGE_KEY (JSON.stringify items) = Throw error ->
  exists w',
    saveWatchlist items w = Normal w'
    /\ durable w' = durable w
    /\ (r ← getWatchlist w'; Normal r.1) = (r ← getWatchlist w; Normal r.1).
Proof.
  intros H. rewrite (saveWatchlist_rejected _ _ _ H).
  eexists. split; [reflexivity|].
  assert (Hst : forall w0, storage (if is_quota_error error
      then console.error "Watchlist storage full. Please remove some items." None w0
      else console.error "Failed to save watchlist:" (Some error) w0) = storage w0)
    by (intros w0; now destruct (is_quota_error error)).
  split; [unfold durable; now rewrite Hst|].
  unfold getWatchlist, try_catch. rewrite Hst.
  now destruct (getWatchlist_try (storage w)).
Qed.

Lemma rejected_save_keeps_stored_list_witness :
  exists w',
    saveWatchlist [] {| storage := full {[ STORAGE_KEY := JSON.stringify [item42] ]};
                        console_output := [] |} = Normal w'
    /\ durable w' = Some (JSON.stringify [item42])
    /\ (r ← getWatchlist w'; Normal r.1) = Normal [item42].
Proof.
  destruct (rejected_save_keeps_stored_list []
              {| storage := full {[ STORAGE_KEY := JSON.stringify [item42] ]};
                 console_output := [] |} QuotaExceededError)
    as (w' & H1 & H2 & H3); [reflexivity|].
  exists w'. split; [exact H1|]. split.
  - rewrite H2. vm_compute. reflexivity.
  - rewrite H3. vm_compute. reflexivity.
Defined.

(** ** clearWatchlist *)

(** X6.  [clearWatchlist] works on every state, whatever the list holds
    and whatever the store does: the call completes, the list in memory
    is empty, [isInWatchlist] answers [false] for every argument, and
    when the store accepts the write the stored text is that of the
    empty list. *)
Theorem clearWatchlist_empties (p : Provider) :
  exists p',
    step p Clear = Normal p'
    /\ watchlistItems p' = []
    /\ (forall x, isInWatchlist (watchlistItems p') x = Normal false)
    /\ (setItem_refused (storage (world p)) STORAGE_KEY (JSON.stringify []) = None ->
        durable (world p') = Some (JSON.stringify [])).
Proof.
  destruct (rerender_Normal clearWatchlist p [] eq_refl) as (w & Hsave & Hr).
  eexists. split; [exact Hr|]. split; [reflexivity|]. split; [reflexivity|].
  intros Hacc. destruct (saveWatchlist_accepted [] (world p) Hacc) as (w' & Hs & Hd & _).
  rewrite Hsave in Hs. injection Hs as <-. exact Hd.
Qed.

(* ================================================================== *)
(** * 13. The next session                                            *)
(* ================================================================== *)

Lemma storable_is_object (item : value) : storable_item item -> is_object item.
Proof. now intros (props & -> & _). Qed.

Lemma prune_is_object (item : value) : is_object item -> is_object (prune item).
Proof. now destruct item. Qed.

Lemma prune_well_formed_inv (item : value) :
  storable_item item -> well_formed_item (prune item) -> well_formed_item item.
Proof.
  intros Hst Hwf. destruct (storable_prune item Hst) as [_ Hsame].
  destruct Hst as (props & -> & _).
  destruct Hwf as (props' & i & c & t & E & Hi & Hc & Hcat & Ht).
  assert (Hback : forall k s,
            lookup_prop k props' = Some (Str s) -> lookup_prop k props = Some (Str s)).
  { intros k s Hk. specialize (Hsame k). rewrite E in Hsame.
    cbn [prop] in Hsame. rewrite Hk in Hsame. cbn in Hsame.
    destruct (lookup_prop k props) as [v|]; cbn in Hsame; congruence. }
  exists props, i, c, t. repeat split; auto.
Qed.

Lemma parse_stringify_storable (items : list value) :
  Forall storable_item items ->
  JSON.parse (JSON.stringify items) = Normal (Array (List.map prune items)).
Proof.
  intros Hst. rewrite <- stringify_prune. apply parse_stringify.
  apply Forall_fmap. eapply Forall_impl; [exact Hst|].
  intros item H. now apply storable_prune.
Qed.

(** Loading a stored list of which an element does not pass the schema. *)
Lemma getWatchlist_stored_ill_formed (items : list value) (w : World) :
  Forall storable_item items ->
  ~ Forall well_formed_item items ->
  getItem_refused (storage w) = None ->
  durable w = Some (JSON.stringify items) ->
  getWatchlist w = Normal ([], w).
Proof.
  intros Hst Hill Hget Hdur.
  rewrite (getWatchlist_of_parsed w _ _ Hget Hdur (parse_stringify_storable _ Hst)).
  cbn [validateWatchlistData].
  destruct (first_ill_formed (List.map prune items))
    as [Hall | (good & bad & rest & E & Hg & Hb)].
  - exfalso. apply Hill. apply Forall_forall. intros x Hx.
    rewrite Forall_forall in Hst. apply prune_well_formed_inv; [now apply Hst|].
    rewrite Forall_forall in Hall. apply Hall.
    apply list_elem_of_fmap. eauto.
  - rewrite E. rewrite array_every_false; auto.
    assert (Hin : bad ∈ List.map prune items)
      by (rewrite E; apply elem_of_app; right; left).
    apply list_elem_of_fmap in Hin as (x & -> & Hx).
    rewrite Forall_forall in Hst.
    apply is_object_not_nullish, prune_is_object, storable_is_object. now apply Hst.
Qed.

(** Mounting on a store from which [getWatchlist] returns [items]. *)
Lemma mount_of_loaded (w w1 : World) (items : list value) :
  getWatchlist w = Normal (items, w1) ->
  writes_accepted (storage w) ->
  exists p,
    mount w = Normal p
    /\ watchlistItems p = items
    /\ durable (world p) = Some (JSON.stringify items)
    /\ console_output (world p) = console_output w1.
Proof.
  intros Hload Hacc.
  assert (Hacc1 : writes_accepted (storage w1))
    by (apply getWatchlist_storage in Hload; now rewrite Hload).
  destruct (saveWatchlist_accepted [] w1 (Hacc1 _ _))
    as (w2 & Hsave2 & _ & Hcon2 & _ & Hset2).
  assert (Hacc2 : setItem_refused (storage w2) STORAGE_KEY (JSON.stringify items) = None)
    by (rewrite Hset2; apply Hacc1).
  destruct (saveWatchlist_accepted items w2 Hacc2) as (w3 & Hsave3 & Hdur3 & Hcon3 & _).
  exists {| watchlistItems := items; world := w3 |}.
  split; [|split; [reflexivity | split; [exact Hdur3 | cbn; congruence]]].
  unfold mount, mount_effects, load_effect, save_effect, rerender.
  rewrite Hload. cbn [mbind completion_bind]. rewrite Hsave2.
  cbn [mbind completion_bind watchlistItems world]. unfold save_effect.
  now rewrite Hsave3.
Qed.

(** The provider after a session in a store that accepts reads and
    writes. *)
Lemma session_end (w : World) (calls : list call) (p : Provider) :
  getItem_refused (storage w) = None ->
  writes_accepted (storage w) ->
  (p0 ← mount w; run p0 calls) = Normal p ->
  getItem_refused (storage (world p)) = None
  /\ writes_accepted (storage (world p))
  /\ mirrored p.
Proof.
  intros Hget Hacc H.
  destruct (mount w) as [p0|] eqn:Hm; [|discriminate].
  cbn [mbind completion_bind] in H.
  destruct (mount_mirrored w p0 Hacc Hm) as [Hmir Hacc0].
  destruct (run_mirrored calls p0 p Hacc0 Hmir H) as [Hmir' Hacc'].
  split; [|now split].
  apply mount_elsewhere in Hm as (G1 & _). apply run_elsewhere in H as (G2 & _).
  congruence.
Qed.

(** X7.  What the provider holds at the end of a session is what the
    next session starts with.  In a store that accepts reads and writes,
    if every element in memory passes the schema and holds JSON values or
    [undefined] in its properties, then mounting a new provider on the
    store the session left loads the same elements in the same order,
    with the same value for every property read (the very same list when
    no property is [undefined]), reports nothing, and leaves the stored
    text as it was. *)
Theorem next_session_starts_with_the_list (w : World) (calls : list call)
    (p : Provider) :
  getItem_refused (storage w) = None ->
  writes_accepted (storage w) ->
  (p0 ← mount w; run p0 calls) = Normal p ->
  Forall storable_item (watchlistItems p) ->
  Forall well_formed_item (watchlistItems p) ->
  exists p',
    mount (fresh_world (storage (world p))) = Normal p'
    /\ watchlistItems p' = List.map prune (watchlistItems p)
    /\ Forall2 same_props (watchlistItems p) (watchlistItems p')
    /\ (Forall (fun x => is_json x = true) (watchlistItems p) ->
        watchlistItems p' = watchlistItems p)
    /\ durable (world p') = durable (world p)
    /\ console_output (world p') = [].
Proof.
  intros Hget Hacc H Hst Hwf.
  destruct (session_end w calls p Hget Hacc H) as (Hget' & Hacc' & Hmir).
  pose proof (getWatchlist_stored (watchlistItems p)
                (fresh_world (storage (world p))) Hst Hwf Hget' Hmir) as Hload.
  destruct (mount_of_loaded _ _ _ Hload Hacc') as (p' & Hm & Hitems & Hdur & Hcon).
  exists p'. split; [exact Hm|]. split; [exact Hitems|]. split; [|split; [|split]].
  - rewrite Hitems. apply Forall2_fmap_r, Forall_Forall2_diag.
    eapply Forall_impl; [exact Hst|]. intros item Hi. now apply storable_prune.
  - intros Hjson. rewrite Hitems. rewrite <- (List.map_id (watchlistItems p)) at 2.
    apply List.map_ext_in. intros x Hx. apply prune_is_json.
    rewrite Forall_forall in Hjson. apply Hjson. now apply list_elem_of_In.
  - rewrite Hdur, stringify_prune. symmetry. exact Hmir.
  - exact Hcon.
Qed.

Lemma next_session_starts_with_the_list_witness :
  exists p p',
    (p0 ← mount w42; run p0 [Add dark "t1"]) = Normal p
    /\ watchlistItems p = [saved_dark; item42]
    /\ mount (fresh_world (storage (world p))) = Normal p'
    /\ Forall2 same_props [saved_dark; item42] (watchlistItems p').
Proof.
  destruct (p0 ← mount w42; run p0 [Add dark "t1"]) as [p|] eqn:E;
    [|vm_compute in E; discriminate E].
  assert (Hitems : watchlistItems p = [saved_dark; item42])
    by (vm_compute in E; injection E as <-; reflexivity).
  destruct (next_session_starts_with_the_list w42 [Add dark "t1"] p)
    as (p' & Hm & _ & Hs & _).
  - reflexivity.
  - intros key t. reflexivity.
  - exact E.
  - rewrite Hitems.
    apply List.Forall_cons; [|apply List.Forall_cons; [|apply List.Forall_nil]];
      (eexists; split; [reflexivity|]; split;
       [ compute_done
       | repeat (apply List.Forall_cons;
                 [first [left; reflexivity | right; reflexivity]|]);
         apply List.Forall_nil ]).
  - rewrite Hitems.
    apply List.Forall_cons; [|apply List.Forall_cons; [|apply List.Forall_nil]];
      (eexists _, _, _, _; split; [reflexivity|]; repeat split;
       first [left; reflexivity | right; reflexivity]).
  - exists p, p'. rewrite Hitems in Hs. now repeat split.
Defined.

(** X8.  One element that does not pass the schema costs the whole list.
    In a store that accepts reads and writes, if the elements in memory
    hold JSON values or [undefined] and one of them does not pass the
    schema of [validateWatchlistData], then the next provider mounted on
    the store the session left starts with the empty list, overwrites
    the stored text with that of the empty list, and reports nothing. *)
Theorem ill_formed_element_empties_next_session (w : World) (calls : list call)
    (p : Provider) (item : value) :
  getItem_refused (storage w) = None ->
  writes_accepted (storage w) ->
  (p0 ← mount w; run p0 calls) = Normal p ->
  Forall storable_item (watchlistItems p) ->
  item ∈ watchlistItems p ->
  ~ well_formed_item item ->
  exists p',
    mount (fresh_world (storage (world p))) = Normal p'
    /\ watchlistItems p' = []
    /\ durable (world p') = Some (JSON.stringify [])
    /\ console_output (world p') = [].
Proof.
  intros Hget Hacc H Hst Hin Hill.
  destruct (session_end w calls p Hget Hacc H) as (Hget' & Hacc' & Hmir).
  assert (Hnot : ~ Forall well_formed_item (watchlistItems p)).
  { intros Hall. rewrite Forall_forall in Hall. now apply Hill, Hall. }
  pose proof (getWatchlist_stored_ill_formed (watchlistItems p)
                (fresh_world (storage (world p))) Hst Hnot Hget' Hmir) as Hload.
  destruct (mount_of_loaded _ _ _ Hload Hacc') as (p' & Hm & Hitems & Hdur & Hcon).
  exists p'. now repeat split.
Qed.

Lemma ill_formed_element_empties_next_session_witness :
  exists p p',
    (p0 ← mount w42; run p0 [Add untitled "t1"]) = Normal p
    /\ length (watchlistItems p) = 2
    /\ mount (fresh_world (storage (world p))) = Normal p'
    /\ watchlistItems p' = []
    /\ durable (world p') = Some (JSON.stringify [])
    /\ console_output (world p') = [].
Proof.
  destruct (p0 ← mount w42; run p0 [Add untitled "t1"]) as [p|] eqn:E;
    [|vm_compute in E; discriminate E].
  assert (Hitems : watchlistItems p
                   = [Object [("id", Str "7"); ("category", Str "movie");
                              ("poster_path", Undefined); ("title", Undefined);
                              ("original_title", Str ""); ("name", Str "");
                              ("overview", Undefined); ("backdrop_path", Undefined);
                              ("addedAt", Str "t1")]; item42])
    by (vm_compute in E; injection E as <-; reflexivity).
  destruct (ill_formed_element_empties_next_session w42 [Add untitled "t1"] p
              (Object [("id", Str "7"); ("category", Str "movie");
                       ("poster_path", Undefined); ("title", Undefined);
                       ("original_title", Str ""); ("name", Str "");
                       ("overview", Undefined); ("backdrop_path", Undefined);
                       ("addedAt", Str "t1")]))
    as (p' & Hm & H1 & H2 & H3).
  - reflexivity.
  - intros key t. reflexivity.
  - exact E.
  - rewrite Hitems.
    apply List.Forall_cons; [|apply List.Forall_cons; [|apply List.Forall_nil]];
      (eexists; split; [reflexivity|]; split;
       [ compute_done
       | repeat (apply List.Forall_cons;
                 [first [left; reflexivity | right; reflexivity]|]);
         apply List.Forall_nil ]).
  - rewrite Hitems. left.
  - intros (props & i & c & t & [= <-] & _ & _ & _ & Ht). discriminate Ht.
  - exists p, p'. rewrite Hitems. now repeat split.
Defined.

(** ** Which candidates give an element that can be loaded again *)

Lemma logical_or_category (v : value) :
  (logical_or v (Str "movie") = Str "movie" \/ logical_or v (Str "movie") = Str "tv")
  <-> (truthy v = false \/ v = Str "movie" \/ v = Str "tv").
Proof.
  unfold logical_or. destruct (truthy v) eqn:E.
  - split; [intros [H|H]; auto | intros [H|[H|H]]; auto; discriminate].
  - split; [auto | intros _; now left].
Qed.

Lemma logical_or_first_truthy (a b c : value) :
  logical_or (logical_or a b) c = first_truthy a b c.
Proof.
  unfold logical_or, first_truthy.
  destruct (truthy a) eqn:E1; [now rewrite E1 | reflexivity].
Qed.

Lemma newItem_well_formed_iff (k now : string) (movie : value) (item : value) :
  nullish movie = false ->
  newItem k now movie = Normal item ->
  well_formed_item item <-> loadable_candidate movie.
Proof.
  intros Hm. rewrite (newItem_prop _ _ _ Hm). intros [= <-].
  unfold loadable_candidate. rewrite <- logical_or_category.
  rewrite <- logical_or_first_truthy. split.
  - intros (props & i & c & t & [= <-] & Hi & Hc & Hcat & Ht).
    cbn in Hc, Ht. injection Hc as Hc. injection Ht as Ht.
    rewrite Hc, Ht. split; [|reflexivity].
    destruct Hcat as [-> | ->]; auto.
  - intros [Hcat Ht].
    destruct (logical_or (logical_or (prop movie "original_title")
                            (prop movie "name")) (prop movie "title"))
      as [ | | | |t| | ] eqn:Et; try discriminate Ht.
    destruct Hcat as [Hc | Hc].
    + eexists _, k, "movie", t. split; [reflexivity|].
      cbn. rewrite Hc. repeat split. now left.
    + eexists _, k, "tv", t. split; [reflexivity|].
      cbn. rewrite Hc. repeat split. now right.
Qed.

Lemma newItem_storable (k now : string) (movie : value) (item : value) :
  nullish movie = false ->
  newItem k now movie = Normal item ->
  storable_candidate movie -> storable_item item.
Proof.
  intros Hm. rewrite (newItem_prop _ _ _ Hm). intros [= <-] Hst.
  unfold storable_candidate, candidate_fields in Hst.
  apply Forall_cons in Hst as [Hcat Hst].
  apply Forall_cons in Hst as [Hpp Hst].
  apply Forall_cons in Hst as [Hot Hst].
  apply Forall_cons in Hst as [Hnm Hst].
  apply Forall_cons in Hst as [Htt Hst].
  apply Forall_cons in Hst as [Hov Hst].
  apply Forall_cons in Hst as [Hbp _].
  assert (Hor : forall a b,
            (a = Undefined \/ is_json a = true) ->
            (b = Undefined \/ is_json b = true) ->
            logical_or a b = Undefined \/ is_json (logical_or a b) = true).
  { intros a b Ha Hb. unfold logical_or. now destruct (truthy a). }
  eexists. split; [reflexivity|]. split; [compute_done|].
  repeat (apply List.Forall_cons; [cbn [snd]|]); try apply List.Forall_nil;
    auto.
Qed.

(** X9.  The element [addToWatchlist] builds for a candidate passes the
    schema of [validateWatchlistData], the one applied when the list is
    loaded again, exactly when the candidate's [category] is falsy or one
    of the strings [movie] and [tv], and the first truthy one of its
    [original_title], [name] and [title] (the raw [title] if none is) is
    a string.  The element can be stored whenever the properties copied
    from the candidate are JSON values or absent. *)
Theorem added_element_passes_schema_iff (k now : string) (movie : value) :
  nullish movie = false ->
  exists item,
    newItem k now movie = Normal item
    /\ (validateWatchlistData (Array [item]) = Normal true
        <-> loadable_candidate movie)
    /\ (storable_candidate movie -> storable_item item).
Proof.
  intros Hm. destruct (newItem_Normal k now movie Hm) as (item & Hitem & _).
  exists item. split; [exact Hitem|]. split.
  - rewrite validateWatchlistData_true.
    rewrite <- (newItem_well_formed_iff k now movie item Hm Hitem). split.
    + intros (elems & [= <-] & Hall). now apply Forall_cons in Hall as [? _].
    + intros H. eexists. split; [reflexivity|]. now constructor.
  - now apply (newItem_storable k now movie item).
Qed.

Lemma added_element_passes_schema_iff_witness :
  exists item,
    newItem "2" "t1" dark = Normal item
    /\ (validateWatchlistData (Array [item]) = Normal true
        <-> loadable_candidate dark)
    /\ (storable_candidate dark -> storable_item item).
Proof.
  apply (added_element_passes_schema_iff "2" "t1" dark). reflexivity.
Defined.

(** ** What [JSON.parse] returns *)

Lemma set_prop_keys (k : string) (v : value) (props : list (string * value)) :
  forall k', k' ∈ (JSON.set_prop k v props).*1 <-> k' = k \/ k' ∈ props.*1.
Proof.
  induction props as [|[k0 v0] props IH]; intros k'; cbn [JSON.set_prop].
  - cbn. rewrite list_elem_of_singleton. rewrite elem_of_nil. tauto.
  - destruct (String.eqb_spec k k0) as [->|Hne]; cbn [fmap list_fmap fst].
    + rewrite elem_of_cons. tauto.
    + rewrite !elem_of_cons. fold (fmap (M:=list) (@fst string value)).
      rewrite IH. tauto.
Qed.

Lemma set_prop_is_json (k : string) (v : value) (props : list (string * value)) :
  is_json v = true ->
  forallb (fun kv => is_json kv.2) props = true ->
  NoDup props.*1 ->
  forallb (fun kv => is_json kv.2) (JSON.set_prop k v props) = true
  /\ NoDup (JSON.set_prop k v props).*1.
Proof.
  intros Hv. induction props as [|[k0 v0] props IH]; intros Hall Hnd;
    cbn [JSON.set_prop].
  - cbn. rewrite Hv. split; [reflexivity|]. apply NoDup_singleton.
  - cbn [forallb snd] in Hall. apply andb_prop in Hall as [H0 Hall].
    cbn [fmap list_fmap fst] in Hnd. apply NoDup_cons in Hnd as [Hin Hnd].
    destruct (String.eqb_spec k k0) as [->|Hne].
    + cbn [forallb snd fmap list_fmap fst]. rewrite Hv, Hall.
      split; [reflexivity|]. now apply NoDup_cons.
    + destruct (IH Hall Hnd) as [IH1 IH2].
      cbn [forallb snd fmap list_fmap fst]. rewrite H0, IH1.
      split; [reflexivity|]. apply NoDup_cons. split; [|exact IH2].
      fold (fmap (M:=list) (@fst string value)).
      rewrite set_prop_keys. intros [E | E]; [now apply Hne | now apply Hin].
Qed.

(** Every value the parser returns is a JSON value: no [undefined]
    inside, and no object with a repeated key. *)
Lemma parse_gives_json (n : nat) :
  (forall s v r, JSON.parse_value n s = Some (v, r) -> is_json v = true)
  /\ (forall s l r, JSON.parse_elements n s = Some (l, r) ->
        forallb is_json l = true)
  /\ (forall acc s ps r, JSON.parse_members n acc s = Some (ps, r) ->
        forallb (fun kv => is_json kv.2) acc = true -> NoDup acc.*1 ->
        forallb (fun kv => is_json kv.2) ps = true /\ NoDup ps.*1).
Proof.
  induction n as [|n (IHv & IHe & IHm)]; [repeat split; discriminate|].
  split; [|split].
  - intros s v r H. cbn [JSON.parse_value] in H.
    destruct (JSON.skip_ws s) as [|c rest]; [discriminate|].
    destruct (N_of_ascii c =? 110)%N.
    { destruct (JSON.strip_prefix "ull" rest); [|discriminate].
      now injection H as <- _. }
    destruct (N_of_ascii c =? 116)%N.
    { destruct (JSON.strip_prefix "rue" rest); [|discriminate].
      now injection H as <- _. }
    destruct (N_of_ascii c =? 102)%N.
    { destruct (JSON.strip_prefix "alse" rest); [|discriminate].
      now injection H as <- _. }
    destruct (N_of_ascii c =? 34)%N.
    { destruct (JSON.parse_chars rest) as [[t r']|]; [|discriminate].
      now injection H as <- _. }
    destruct (N_of_ascii c =? 91)%N.
    { destruct (JSON.skip_ws rest) as [|c' r0]; [discriminate|].
      destruct (N_of_ascii c' =? 93)%N; [now injection H as <- _|].
      destruct (JSON.parse_elements n rest) as [[l r']|] eqn:E; [|discriminate].
      injection H as <- _. cbn [is_json]. now apply IHe in E. }
    destruct (N_of_ascii c =? 123)%N.
    { destruct (JSON.skip_ws rest) as [|c' r0]; [discriminate|].
      destruct (N_of_ascii c' =? 125)%N; [now injection H as <- _|].
      destruct (JSON.parse_members n [] rest) as [[ps r']|] eqn:E; [|discriminate].
      injection H as <- _. cbn [is_json].
      apply IHm in E as [E1 E2]; [|reflexivity|constructor].
      rewrite E1. cbn [andb]. now apply bool_decide_eq_true. }
    destruct (JSON.parse_number (String c rest)) as [[z r']|]; [|discriminate].
    now injection H as <- _.
  - intros s l r H. cbn [JSON.parse_elements] in H.
    destruct (JSON.parse_value n s) as [[v r1]|] eqn:E1; [|discriminate].
    apply IHv in E1. cbn [mbind option_bind] in H.
    destruct (JSON.skip_ws r1) as [|c r2]; [discriminate|].
    destruct (N_of_ascii c =? 44)%N.
    { destruct (JSON.parse_elements n r2) as [[l' r3]|] eqn:E2; [|discriminate].
      injection H as <- _. apply IHe in E2. cbn [forallb]. now rewrite E1, E2. }
    destruct (N_of_ascii c =? 93)%N; [|discriminate].
    injection H as <- _. cbn [forallb]. now rewrite E1.
  - intros acc s ps r H Hall Hnd. cbn [JSON.parse_members] in H.
    destruct (JSON.skip_ws s) as [|q r0]; [discriminate|].
    destruct (N_of_ascii q =? 34)%N; [|discriminate].
    destruct (JSON.parse_chars r0) as [[k r1]|]; [|discriminate].
    cbn [mbind option_bind] in H.
    destruct (JSON.skip_ws r1) as [|colon r2]; [discriminate|].
    destruct (N_of_ascii colon =? 58)%N; [|discriminate].
    destruct (JSON.parse_value n r2) as [[v r3]|] eqn:Ev; [|discriminate].
    apply IHv in Ev. cbn [mbind option_bind] in H.
    destruct (set_prop_is_json k v acc Ev Hall Hnd) as [Hall' Hnd'].
    destruct (JSON.skip_ws r3) as [|c r4]; [discriminate|].
    destruct (N_of_ascii c =? 44)%N; [now apply (IHm _ _ _ _ H)|].
    destruct (N_of_ascii c =? 125)%N; [|discriminate].
    now injection H as <- _.
Qed.

Lemma parse_is_json (stored_text : string) (v : value) :
  JSON.parse stored_text = Normal v -> is_json v = true.
Proof.
  unfold JSON.parse.
  destruct (JSON.parse_value _ stored_text) as [[v' r]|] eqn:E; [|discriminate].
  destruct (JSON.skip_ws r); [|discriminate]. intros [= <-].
  now apply (parse_gives_json _) in E.
Qed.

Lemma getWatchlist_is_json (w w' : World) (items : list value) :
  getWatchlist w = Normal (items, w') -> Forall (fun x => is_json x = true) items.
Proof.
  unfold getWatchlist, getWatchlist_try, try_catch.
  destruct (localStorage.getItem (storage w) STORAGE_KEY) as [[stored_text|]|e];
    cbn [mbind completion_bind]; try (intros [= <- _]; constructor).
  destruct (String.eqb stored_text ""); cbn [mbind completion_bind];
    try (intros [= <- _]; constructor).
  destruct (JSON.parse stored_text) as [data|e] eqn:Hp; cbn [mbind completion_bind];
    try (intros [= <- _]; constructor).
  destruct (validateWatchlistData data) as [[]|e] eqn:Hv;
    cbn [mbind completion_bind]; try (intros [= <- _]; constructor).
  apply validateWatchlistData_true in Hv as (l & -> & _).
  intros [= <- _]. apply parse_is_json in Hp. cbn [is_json] in Hp.
  apply Forall_forall. intros x Hx. rewrite forallb_forall in Hp.
  apply Hp. now apply list_elem_of_In.
Qed.

Lemma is_json_storable (item : value) :
  is_object item -> is_json item = true -> storable_item item.
Proof.
  destruct item as [ | | | | | |props]; try contradiction. intros _ H.
  cbn [is_json] in H. apply andb_prop in H as [Hall Hnd].
  exists props. split; [reflexivity|]. split; [now apply bool_decide_eq_true in Hnd|].
  apply Forall_forall. intros kv Hin. right.
  rewrite forallb_forall in Hall. apply Hall. now apply list_elem_of_In.
Qed.

(** ** Lists that survive a reload *)

Lemma apply_call_reloadable (items items' : list value) (c : call) :
  Forall storable_item items -> Forall well_formed_item items ->
  reloadable_call c ->
  apply_call items c = Normal items' ->
  Forall storable_item items' /\ Forall well_formed_item items'.
Proof.
  intros Hst Hwf Hc H.
  assert (Hobj : Forall is_object items)
    by (eapply Forall_impl; [exact Hst | apply storable_is_object]).
  destruct c as [movie now|id|].
  - destruct Hc as (Hm & Hsc & Hlc).
    destruct (apply_call_Add items movie now Hobj Hm) as (item & Hitem & E).
    rewrite E in H. injection H as <-.
    destruct (has_id _ items); [now split|].
    split; constructor; try assumption.
    + now apply (newItem_storable _ _ _ _ Hm Hitem).
    + now apply (newItem_well_formed_iff _ _ _ _ Hm Hitem).
  - rewrite (apply_call_Remove _ _ Hobj) in H. injection H as <-.
    split; apply Forall_forall; intros x Hx;
      apply without_id_elem in Hx as [Hx _].
    + rewrite Forall_forall in Hst. now apply Hst.
    + rewrite Forall_forall in Hwf. now apply Hwf.
  - injection H as <-. split; constructor.
Qed.

Lemma reloadable_call_ok (c : call) : reloadable_call c -> call_ok c.
Proof. destruct c; cbn; tauto. Qed.

Lemma apply_calls_reloadable (calls : list call) (items : list value) :
  Forall storable_item items -> Forall well_formed_item items ->
  Forall reloadable_call calls ->
  exists items',
    apply_calls items calls = Normal items'
    /\ Forall storable_item items' /\ Forall well_formed_item items'.
Proof.
  revert items. induction calls as [|c calls IH]; intros items Hst Hwf Hok.
  - exists items. now repeat split.
  - apply Forall_cons in Hok as [Hc Hok].
    assert (Hobj : Forall is_object items)
      by (eapply Forall_impl; [exact Hst | apply storable_is_object]).
    destruct (apply_call_progress items c Hobj (reloadable_call_ok c Hc))
      as [items1 H1].
    destruct (apply_call_reloadable _ _ _ Hst Hwf Hc H1) as [Hst1 Hwf1].
    destruct (IH items1 Hst1 Hwf1 Hok) as (items' & H & ? & ?).
    exists items'. cbn [apply_calls]. rewrite H1. now repeat split.
Qed.

Lemma same_props_ids (l l' : list value) :
  Forall2 same_props l l' -> ids l' = ids l.
Proof.
  induction 1 as [|x y l l' Hxy _ IH]; [reflexivity|].
  unfold ids in *. cbn [List.map]. rewrite IH. f_equal. apply Hxy.
Qed.

(** X10.  A session survives a reload.  In a store that accepts reads and
    writes, whatever it holds at the start: make any calls, each after
    the render that follows the call before it, in which every id passed
    is one that [String] coerces and every candidate is given, holds JSON
    values or nothing in the properties that are copied, and has a
    category and a title the schema accepts.  Then the session completes,
    and a provider mounted on the store it leaves starts with the same
    elements in the same order, equal on every property read and so with
    the same ids; it reports nothing and leaves the stored text as it
    was. *)
Theorem session_survives_reload (w : World) (calls : list call) :
  getItem_refused (storage w) = None ->
  writes_accepted (storage w) ->
  Forall coercible_call calls ->
  Forall reloadable_call calls ->
  exists p p',
    (p0 ← mount w; run p0 calls) = Normal p
    /\ mount (fresh_world (storage (world p))) = Normal p'
    /\ Forall2 same_props (watchlistItems p) (watchlistItems p')
    /\ ids (watchlistItems p') = ids (watchlistItems p)
    /\ durable (world p') = durable (world p)
    /\ console_output (world p') = [].
Proof.
  intros Hget Hacc _ Hok.
  destruct (mount_effects_Normal w) as (saved & w1 & w2 & Hload & _ & _).
  destruct (mount_of_loaded w w1 saved Hload Hacc) as (p0 & Hm & Hitems0 & _).
  pose proof (getWatchlist_well_formed _ _ _ Hload) as Hwf0.
  pose proof (getWatchlist_is_json _ _ _ Hload) as Hjs0.
  assert (Hst0 : Forall storable_item saved).
  { apply Forall_forall. intros x Hx. rewrite Forall_forall in Hwf0, Hjs0.
    apply is_json_storable; [apply well_formed_is_object|]; auto. }
  destruct (apply_calls_reloadable calls saved Hst0 Hwf0 Hok)
    as (items & Hrun & Hst & Hwf).
  rewrite <- Hitems0, <- run_memory in Hrun.
  apply memory_Normal in Hrun as (p & Hp & Hitems).
  assert (H : (p0 ← mount w; run p0 calls) = Normal p)
    by (rewrite Hm; exact Hp).
  rewrite <- Hitems in Hst, Hwf.
  destruct (session_end w calls p Hget Hacc H) as (Hget' & Hacc' & Hmir).
  pose proof (getWatchlist_stored (watchlistItems p)
                (fresh_world (storage (world p))) Hst Hwf Hget' Hmir) as Hload'.
  destruct (mount_of_loaded _ _ _ Hload' Hacc') as (p' & Hm' & Hitems' & Hdur & Hcon).
  assert (Hsame : Forall2 same_props (watchlistItems p) (watchlistItems p')).
  { rewrite Hitems'. apply Forall2_fmap_r, Forall_Forall2_diag.
    eapply Forall_impl; [exact Hst|]. intros item Hi. now apply storable_prune. }
  exists p, p'. split; [exact H|]. split; [exact Hm'|]. split; [exact Hsame|].
  split; [now apply same_props_ids|]. split; [|exact Hcon].
  rewrite Hdur, stringify_prune. symmetry. exact Hmir.
Qed.

Lemma session_survives_reload_witness :
  exists p p',
    (p0 ← mount w42; run p0 [Add dark "t1"; Remove (Number 42)]) = Normal p
    /\ mount (fresh_world (storage (world p))) = Normal p'
    /\ Forall2 same_props (watchlistItems p) (watchlistItems p')
    /\ ids (watchlistItems p') = ids (watchlistItems p)
    /\ durable (world p') = durable (world p)
    /\ console_output (world p') = [].
Proof.
  apply (session_survives_reload w42 [Add dark "t1"; Remove (Number 42)]).
  - reflexivity.
  - intros key t. reflexivity.
  - apply List.Forall_cons; [reflexivity|].
    apply List.Forall_cons; [reflexivity | apply List.Forall_nil].
  - apply List.Forall_cons; [|apply List.Forall_cons; [exact I|apply List.Forall_nil]].
    split; [reflexivity|]. split.
    + repeat (apply List.Forall_cons;
              [first [left; reflexivity | right; reflexivity]|]).
      apply List.Forall_nil.
    + split; [left; reflexivity | reflexivity].
Defined.

(* ================================================================== *)
(** * 14. Calls and clicks                                            *)
(* ================================================================== *)

(** ** Which sessions complete *)

Lemma step_nullish_candidate (p : Provider) (movie : value) (now : string) :
  nullish movie = true -> step p (Add movie now) = Throw TypeError.
Proof. destruct movie; try discriminate; reflexivity. Qed.

Lemma call_ok_dec (c : call) : {call_ok c} + {~ call_ok c}.
Proof.
  destruct c as [movie now|id|]; cbn [call_ok]; [|now left..].
  destruct (nullish movie); [right; discriminate | now left].
Qed.

Lemma run_outcome (calls : list call) (p : Provider) :
  Forall has_string_id (watchlistItems p) ->
  (Forall call_ok calls
   /\ exists p', run p calls = Normal p' /\ Forall has_string_id (watchlistItems p'))
  \/ (~ Forall call_ok calls /\ run p calls = Throw TypeError).
Proof.
  revert p. induction calls as [|c calls IH]; intros p Hk.
  - left. split; [constructor|]. exists p. now split.
  - assert (Hobj : Forall is_object (watchlistItems p))
      by (eapply Forall_impl; [exact Hk | apply has_string_id_is_object]).
    destruct (call_ok_dec c) as [Hc | Hc].
    + destruct (apply_call_progress _ c Hobj Hc) as [items1 H1].
      pose proof (apply_call_string_ids _ _ _ Hk H1) as Hk1.
      rewrite <- step_memory in H1.
      apply memory_Normal in H1 as (p1 & Hstep & Hitems).
      rewrite <- Hitems in Hk1. cbn [run]. rewrite Hstep.
      cbn [mbind completion_bind].
      destruct (IH p1 Hk1) as [(Hok & p' & Hrun & Hk') | (Hbad & Hrun)].
      * left. split; [now constructor|]. now exists p'.
      * right. split; [|exact Hrun].
        intros H. now apply Forall_cons in H as [_ H].
    + right. split; [intros H; now apply Forall_cons in H as [H _]|].
      destruct c as [movie now|id|]; cbn [call_ok] in Hc;
        try (exfalso; now apply Hc).
      cbn [run]. rewrite step_nullish_candidate; [reflexivity|].
      now destruct (nullish movie).
Qed.

(** X11.  Which sessions complete.  Whatever the store holds and however
    it answers: mount the provider and make a sequence of calls, each
    after the render that follows the call before it, in which every id
    passed (the candidate's for [addToWatchlist], the argument of
    [removeFromWatchlist]) is one that [String] coerces.  The session
    completes exactly when no call of [addToWatchlist] is given [null] or
    [undefined] as its candidate; otherwise it stops with a [TypeError].
    In a session that completes every element of the list has a string
    as its [id]. *)
Theorem session_completes_iff_candidates_given (w : World) (calls : list call) :
  Forall coercible_call calls ->
  ((exists p, (p0 ← mount w; run p0 calls) = Normal p) <-> Forall call_ok calls)
  /\ (~ Forall call_ok calls -> (p0 ← mount w; run p0 calls) = Throw TypeError)
  /\ (forall p, (p0 ← mount w; run p0 calls) = Normal p ->
        Forall has_string_id (watchlistItems p)).
Proof.
  intros _.
  destruct (mount_Normal w) as (p0 & Hm & Hwf). rewrite Hm.
  cbn [mbind completion_bind].
  assert (Hk : Forall has_string_id (watchlistItems p0))
    by (eapply Forall_impl; [exact Hwf | apply well_formed_has_string_id]).
  destruct (run_outcome calls p0 Hk) as [(Hok & p' & Hrun & Hk') | (Hbad & Hrun)];
    rewrite Hrun.
  - split; [split; eauto|]. split; [intros H; now destruct H|].
    now intros p [= <-].
  - split; [split; [intros [p H]; discriminate H | intros H; now destruct Hbad]|].
    split; [reflexivity | discriminate].
Qed.

Lemma session_completes_iff_candidates_given_witness :
  (exists p, (p0 ← mount (fresh_world disabled);
              run p0 [Add dark "t1"; Remove (Number 2); Clear]) = Normal p)
  /\ (p0 ← mount w42; run p0 [Add dark "t1"; Add Null "t2"]) = Throw TypeError.
Proof.
  split.
  - apply (session_completes_iff_candidates_given (fresh_world disabled)
             [Add dark "t1"; Remove (Number 2); Clear]).
    + repeat (apply List.Forall_cons; [first [reflexivity | exact I]|]).
      apply List.Forall_nil.
    + repeat (apply List.Forall_cons; [first [reflexivity | exact I]|]).
      apply List.Forall_nil.
  - apply (session_completes_iff_candidates_given w42 [Add dark "t1"; Add Null "t2"]).
    { repeat (apply List.Forall_cons; [reflexivity|]). apply List.Forall_nil. }
    intros H. apply Forall_cons in H as [_ H]. apply Forall_cons in H as [H _].
    discriminate H.
Defined.

(** ** Calls about other ids *)

Lemma with_id_without_id_ne (k k' : string) (items : list value) :
  k <> k' -> with_id k (without_id k' items) = with_id k items.
Proof.
  intros Hne. unfold with_id, without_id.
  induction items as [|x l IH]; [reflexivity|].
  cbn [List.filter].
  destruct (strict_eq_string (id_of x) k') eqn:E'; cbn [negb].
  - apply strict_eq_string_true in E'.
    destruct (strict_eq_string (id_of x) k) eqn:E; [|exact IH].
    apply strict_eq_string_true in E. congruence.
  - cbn [List.filter]. now rewrite IH.
Qed.

Lemma with_id_cons_ne (k k' : string) (item : value) (items : list value) :
  k <> k' -> id_of item = Str k' -> with_id k (item :: items) = with_id k items.
Proof.
  intros Hne Hid. unfold with_id. cbn [List.filter].
  destruct (strict_eq_string (id_of item) k) eqn:E; [|reflexivity].
  apply strict_eq_string_true in E. congruence.
Qed.

Lemma has_id_with_id (k : string) (items : list value) :
  has_id k items = negb (Nat.eqb (length (with_id k items)) 0).
Proof.
  unfold has_id, with_id. induction items as [|x l IH]; [reflexivity|].
  cbn [existsb List.filter].
  destruct (strict_eq_string (id_of x) k); [reflexivity | exact IH].
Qed.

Lemma apply_call_other_id (items items' : list value) (c : call) (k k' : string) :
  Forall is_object items ->
  target c = Some k' -> k <> k' ->
  apply_call items c = Normal items' ->
  with_id k items' = with_id k items.
Proof.
  intros Hobj Ht Hne H. destruct c as [movie now|id|]; [| |discriminate Ht].
  - injection Ht as <-.
    destruct (nullish movie) eqn:Hm.
    { destruct movie; discriminate. }
    destruct (apply_call_Add items movie now Hobj Hm) as (item & Hitem & E).
    rewrite E in H. injection H as <-.
    destruct (has_id _ items); [reflexivity|].
    destruct (newItem_Normal (ToString (prop movie "id")) now movie Hm)
      as (item' & Hitem' & _ & Hid & _).
    assert (item' = item) as -> by congruence.
    eapply with_id_cons_ne; eauto.
  - injection Ht as <-.
    rewrite (apply_call_Remove _ _ Hobj) in H. injection H as <-.
    now apply with_id_without_id_ne.
Qed.

(** X12.  Calls about other ids leave an id alone.  From a list of
    objects, after any sequence of calls of [addToWatchlist] (with a
    candidate that is given) and [removeFromWatchlist] none of which is
    about the canonical id [k], the session completes, the elements whose
    [id] is [k] are the same as before, in the same order, and
    [isInWatchlist] answers for [k] as before. *)
Theorem calls_on_other_ids_leave_id_alone (p : Provider) (calls : list call)
    (k : string) :
  Forall is_object (watchlistItems p) ->
  Forall call_ok calls ->
  Forall (fun c => exists k', target c = Some k' /\ k' <> k) calls ->
  exists p',
    run p calls = Normal p'
    /\ with_id k (watchlistItems p') = with_id k (watchlistItems p)
    /\ isInWatchlist (watchlistItems p') (Str k)
       = isInWatchlist (watchlistItems p) (Str k).
Proof.
  revert p. induction calls as [|c calls IH]; intros p Hobj Hok Hother.
  - exists p. now repeat split.
  - apply Forall_cons in Hok as [Hc Hok].
    apply Forall_cons in Hother as [(k' & Ht & Hne) Hother].
    destruct (apply_call_progress _ c Hobj Hc) as [items1 H1].
    pose proof (apply_call_invariant _ _ _ Hobj H1) as [Hobj1 _].
    pose proof (apply_call_other_id _ _ c k k' Hobj Ht (not_eq_sym Hne) H1) as Hsame.
    rewrite <- step_memory in H1.
    apply memory_Normal in H1 as (p1 & Hstep & Hitems).
    rewrite <- Hitems in Hobj1, Hsame.
    destruct (IH p1 Hobj1 Hok Hother) as (p' & Hrun & Hw & Hi).
    exists p'. cbn [run]. rewrite Hstep. cbn [mbind completion_bind].
    split; [exact Hrun|]. split; [congruence|].
    rewrite Hi. unfold isInWatchlist. cbn [ToString].
    rewrite !array_some_has_id by assumption.
    now rewrite !has_id_with_id, Hsame.
Qed.

Lemma calls_on_other_ids_leave_id_alone_witness :
  exists p p',
    mount w42 = Normal p
    /\ run p [Add dark "t1"; Remove (Number 2); Add inception "t2"] = Normal p'
    /\ with_id "42" (watchlistItems p') = with_id "42" (watchlistItems p)
    /\ isInWatchlist (watchlistItems p') (Str "42")
       = isInWatchlist (watchlistItems p) (Str "42").
Proof.
  destruct (mount w42) as [p|] eqn:E; [|vm_compute in E; discriminate E].
  assert (Hitems : watchlistItems p = [item42])
    by (vm_compute in E; injection E as <-; reflexivity).
  destruct (calls_on_other_ids_leave_id_alone p
              [Add dark "t1"; Remove (Number 2); Add inception "t2"] "42")
    as (p' & H).
  - rewrite Hitems. apply List.Forall_cons; [exact I | apply List.Forall_nil].
  - repeat (apply List.Forall_cons; [first [reflexivity | exact I]|]).
    apply List.Forall_nil.
  - apply List.Forall_cons; [exists "2"; split; [reflexivity | discriminate]|].
    apply List.Forall_cons; [exists "2"; split; [reflexivity | discriminate]|].
    apply List.Forall_cons; [exists "1"; split; [reflexivity | discriminate]|].
    apply List.Forall_nil.
  - exists p, p'. split; [reflexivity | exact H].
Defined.

(** ** Numeric ids *)

Lemma Number_toString_inj (n m : Z) :
  Number_toString n = Number_toString m -> n = m.
Proof.
  intros H. pose proof (int_of_string_toString n) as Hn.
  rewrite H, int_of_string_toString in Hn. injection Hn as Hn.
  now rewrite <- (DecimalZ.of_to n), <- (DecimalZ.of_to m), Hn.
Qed.

(** X13.  Distinct numbers are distinct movies.  Two safe integers, the
    integers up to 2^53 - 1 in absolute value, which a JavaScript number
    holds exactly and prints in decimal, have the same canonical id only
    if they are equal; so adding a candidate whose [id] is the safe
    integer [n] does not change the answer of [isInWatchlist] for any
    other safe integer [m], nor the elements stored for [m]. *)
Theorem distinct_numbers_are_distinct_ids (p : Provider) (movie : value)
    (now : string) (n m : Z) :
  Forall is_object (watchlistItems p) ->
  safe_integer n -> safe_integer m ->
  prop movie "id" = Number n ->
  n <> m ->
  ToString (Number n) <> ToString (Number m)
  /\ exists p',
       step p (Add movie now) = Normal p'
       /\ isInWatchlist (watchlistItems p') (Number m)
          = isInWatchlist (watchlistItems p) (Number m)
       /\ with_id (ToString (Number m)) (watchlistItems p')
          = with_id (ToString (Number m)) (watchlistItems p).
Proof.
  intros Hobj _ _ Hid Hne.
  assert (Hk : ToString (Number n) <> ToString (Number m))
    by (cbn [ToString]; intros H; now apply Hne, Number_toString_inj).
  split; [exact Hk|].
  assert (Hm : nullish movie = false) by (now destruct movie).
  destruct (apply_call_progress _ (Add movie now) Hobj Hm) as [items1 H1].
  pose proof (apply_call_invariant _ _ _ Hobj H1) as [Hobj1 _].
  assert (Hsame : with_id (ToString (Number m)) items1
                  = with_id (ToString (Number m)) (watchlistItems p)).
  { apply (apply_call_other_id _ _ (Add movie now) _ (ToString (Number n)));
      auto. cbn [target]. now rewrite Hid. }
  rewrite <- step_memory in H1.
  apply memory_Normal in H1 as (p1 & Hstep & Hitems).
  rewrite <- Hitems in Hobj1, Hsame.
  exists p1. split; [exact Hstep|]. split; [|exact Hsame].
  unfold isInWatchlist. rewrite !array_some_has_id by assumption.
  now rewrite !has_id_with_id, Hsame.
Qed.

Lemma distinct_numbers_are_distinct_ids_witness :
  exists p p',
    mount w42 = Normal p
    /\ step p (Add dark "t1") = Normal p'
    /\ isInWatchlist (watchlistItems p') (Number 42)
       = isInWatchlist (watchlistItems p) (Number 42).
Proof.
  destruct (mount w42) as [p|] eqn:E; [|vm_compute in E; discriminate E].
  assert (Hitems : watchlistItems p = [item42])
    by (vm_compute in E; injection E as <-; reflexivity).
  destruct (distinct_numbers_are_distinct_ids p dark "t1" 2 42)
    as (_ & p' & Hstep & Hi & _).
  - rewrite Hitems. apply List.Forall_cons; [exact I | apply List.Forall_nil].
  - unfold safe_integer. lia.
  - unfold safe_integer. lia.
  - reflexivity.
  - lia.
  - exists p, p'. split; [reflexivity|]. now split.
Defined.

(** ** Two calls on the handlers of one render *)

(** X14.  The check for a present id is made on the state of the render,
    not in the queued update.  When [addToWatchlist] queues an update for
    a candidate, that update puts the new element in front of whatever
    list it is applied to.  So two calls made on the handlers of one
    render for the same new id queue two updates, and applying them one
    after the other leaves two elements with that id. *)
Theorem updates_of_one_render_both_prepend (items : list value) (a b : value)
    (ta tb : string) :
  Forall is_object items ->
  nullish a = false -> nullish b = false ->
  ToString (prop a "id") = ToString (prop b "id") ->
  has_id (ToString (prop a "id")) items = false ->
  exists qa qb ia ib,
    addToWatchlist items ta a = Normal (Some qa)
    /\ addToWatchlist items tb b = Normal (Some qb)
    /\ (forall prev, qa prev = Normal (ia :: prev))
    /\ (forall prev, qb prev = Normal (ib :: prev))
    /\ (prev ← qa items; qb prev) = Normal (ib :: ia :: items)
    /\ id_of ia = Str (ToString (prop a "id"))
    /\ id_of ib = Str (ToString (prop a "id"))
    /\ length (with_id (ToString (prop a "id")) (ib :: ia :: items)) = 2.
Proof.
  intros Hobj Ha Hb Hab Habs.
  destruct (newItem_Normal (ToString (prop a "id")) ta a Ha)
    as (ia & Hia & _ & Hida & _).
  destruct (newItem_Normal (ToString (prop b "id")) tb b Hb)
    as (ib & Hib & _ & Hidb & _).
  rewrite <- Hab in Hib, Hidb.
  exists (fun prev => Normal (ia :: prev)), (fun prev => Normal (ib :: prev)), ia, ib.
  split; [|split].
  - unfold addToWatchlist. rewrite (get_prop a _ Ha). cbn [mbind completion_bind].
    rewrite (array_some_has_id _ _ Hobj), Habs, Hia. reflexivity.
  - unfold addToWatchlist. rewrite (get_prop b _ Hb). cbn [mbind completion_bind].
    rewrite (array_some_has_id _ _ Hobj), <- Hab, Habs, Hib. reflexivity.
  - repeat split; auto.
    unfold with_id. cbn [List.filter]. rewrite Hida, Hidb. cbn [strict_eq_string].
    rewrite String.eqb_refl. cbn [length]. do 2 f_equal.
    fold (with_id (ToString (prop a "id")) items).
    now rewrite with_id_absent.
Qed.

Lemma updates_of_one_render_both_prepend_witness :
  exists qa qb ia ib,
    addToWatchlist [item42] "t1" dark = Normal (Some qa)
    /\ addToWatchlist [item42] "t2" dark = Normal (Some qb)
    /\ (forall prev, qa prev = Normal (ia :: prev))
    /\ (forall prev, qb prev = Normal (ib :: prev))
    /\ (prev ← qa [item42]; qb prev) = Normal [ib; ia; item42]
    /\ id_of ia = Str "2"
    /\ id_of ib = Str "2"
    /\ length (with_id "2" [ib; ia; item42]) = 2.
Proof.
  apply (updates_of_one_render_both_prepend [item42] dark dark "t1" "t2").
  - apply List.Forall_cons; [exact I | apply List.Forall_nil].
  - reflexivity.
  - reflexivity.
  - reflexivity.
  - reflexivity.
Defined.

(** ** The button *)

Lemma WatchlistButton_Normal (items : list value) (movie : value)
    (showLabel : bool) :
  Forall is_object items -> nullish movie = false ->
  let inWatchlist := has_id (ToString (prop movie "id")) items in
  WatchlistButton items movie showLabel
  = Normal {| aria_label := if inWatchlist then "Remove from watchlist"
                            else "Add to watchlist";
              aria_pressed := inWatchlist;
              filled_heart := inWatchlist;
              label := if showLabel
                       then Some (if inWatchlist then "In Watchlist"
                                  else "Add to Watchlist")
                       else None |}.
Proof.
  intros Hobj Hm. cbn zeta. unfold WatchlistButton, isInWatchlist.
  rewrite (get_prop movie _ Hm). cbn [mbind completion_bind].
  rewrite (array_some_has_id _ _ Hobj). reflexivity.
Qed.

Lemma without_id_cons_eq (k : string) (item : value) (items : list value) :
  id_of item = Str k -> without_id k (item :: items) = without_id k items.
Proof.
  intros Hid. unfold without_id. cbn [List.filter]. rewrite Hid.
  cbn [strict_eq_string]. now rewrite String.eqb_refl.
Qed.

Lemma has_id_cons_eq (k : string) (item : value) (items : list value) :
  id_of item = Str k -> has_id k (item :: items) = true.
Proof.
  intros Hid. unfold has_id. cbn [existsb]. rewrite Hid.
  cbn [strict_eq_string]. now rewrite String.eqb_refl.
Qed.

Lemma handleClick_Normal (p : Provider) (movie : value) (now : string) :
  Forall is_object (watchlistItems p) -> nullish movie = false ->
  let k := ToString (prop movie "id") in
  exists p',
    handleClick p movie now = Normal p'
    /\ Forall is_object (watchlistItems p')
    /\ (has_id k (watchlistItems p) = true ->
        watchlistItems p' = without_id k (watchlistItems p))
    /\ (has_id k (watchlistItems p) = false ->
        exists item,
          newItem k now movie = Normal item
          /\ id_of item = Str k
          /\ watchlistItems p' = item :: watchlistItems p).
Proof.
  intros Hobj Hm k. unfold handleClick, isInWatchlist.
  rewrite (get_prop movie _ Hm). cbn [mbind completion_bind].
  rewrite (array_some_has_id _ _ Hobj). cbn [mbind completion_bind].
  fold k. destruct (has_id k (watchlistItems p)) eqn:Hhas.
  - pose proof (apply_call_Remove _ (prop movie "id") Hobj) as H.
    rewrite <- step_memory in H.
    apply memory_Normal in H as (p' & Hstep & Hitems).
    exists p'. split; [exact Hstep|]. split; [|split; [now intros _ | discriminate]].
    rewrite Hitems. eapply Forall_is_object_sublist; [|exact Hobj].
    apply without_id_sublist.
  - destruct (step_Add_absent p movie now Hobj Hm Hhas)
      as (item & p' & Hitem & Ho & Hid & _ & Hstep & Hitems).
    exists p'. split; [exact Hstep|]. split; [|split; [discriminate|]].
    + rewrite Hitems. now constructor.
    + intros _. exists item. now repeat split.
Qed.

(** X15.  A click on the button toggles the movie.  Under a provider
    whose list holds objects, for a movie that is given: the button is
    pressed, and labelled for removal, exactly when some element has the
    movie's canonical id; a click completes and the button rendered next
    shows the opposite, while the elements of other ids stay as they are.
    A second click shows the first state again.  Two clicks on a movie
    that was absent give back the list as it was; two clicks on a movie
    that was present leave it once, rebuilt from the button's movie and
    in front of the list. *)
Theorem click_toggles_the_movie (p : Provider) (movie : value)
    (now now' : string) (showLabel : bool) :
  Forall is_object (watchlistItems p) -> nullish movie = false ->
  let k := ToString (prop movie "id") in
  exists view p1 view1 p2 view2,
    WatchlistButton (watchlistItems p) movie showLabel = Normal view
    /\ handleClick p movie now = Normal p1
    /\ WatchlistButton (watchlistItems p1) movie showLabel = Normal view1
    /\ handleClick p1 movie now' = Normal p2
    /\ WatchlistButton (watchlistItems p2) movie showLabel = Normal view2
    /\ aria_pressed view = has_id k (watchlistItems p)
    /\ (aria_label view = "Remove from watchlist" <-> aria_pressed view = true)
    /\ aria_pressed view1 = negb (aria_pressed view)
    /\ without_id k (watchlistItems p1) = without_id k (watchlistItems p)
    /\ view2 = view
    /\ (aria_pressed view = false -> watchlistItems p2 = watchlistItems p)
    /\ (aria_pressed view = true ->
        exists item,
          newItem k now' movie = Normal item
          /\ watchlistItems p2 = item :: without_id k (watchlistItems p)).
Proof.
  intros Hobj Hm k.
  destruct (handleClick_Normal p movie now Hobj Hm)
    as (p1 & Hc1 & Hobj1 & Hpres1 & Habs1).
  destruct (handleClick_Normal p1 movie now' Hobj1 Hm)
    as (p2 & Hc2 & Hobj2 & Hpres2 & Habs2).
  fold k in Hpres1, Habs1, Hpres2, Habs2.
  eexists _, p1, _, p2, _.
  split; [now apply WatchlistButton_Normal|].
  split; [exact Hc1|].
  split; [now apply WatchlistButton_Normal|].
  split; [exact Hc2|].
  split; [now apply WatchlistButton_Normal|].
  cbn [aria_pressed aria_label]. fold k.
  destruct (has_id k (watchlistItems p)) eqn:Hhas.
  - pose proof (Hpres1 eq_refl) as E1.
    assert (H1 : has_id k (watchlistItems p1) = false)
      by (rewrite E1; apply has_id_without_id).
    destruct (Habs2 H1) as (item & Hitem & Hid & E2).
    assert (H2 : has_id k (watchlistItems p2) = true)
      by (rewrite E2; now apply has_id_cons_eq).
    rewrite H1, H2. repeat split; try discriminate; auto.
    + rewrite E1. apply without_id_absent, has_id_without_id.
    + intros _. exists item. split; [exact Hitem|]. now rewrite E2, E1.
  - destruct (Habs1 eq_refl) as (item & Hitem & Hid & E1).
    assert (H1 : has_id k (watchlistItems p1) = true)
      by (rewrite E1; now apply has_id_cons_eq).
    pose proof (Hpres2 H1) as E2.
    assert (H2 : has_id k (watchlistItems p2) = false)
      by (rewrite E2; apply has_id_without_id).
    rewrite H1, H2. repeat split; try discriminate; auto.
    + rewrite E1. now apply without_id_cons_eq.
    + intros _. rewrite E2, E1, (without_id_cons_eq _ _ _ Hid).
      now apply without_id_absent.
Qed.

Lemma click_toggles_the_movie_witness :
  exists p view p1 view1 p2,
    mount w42 = Normal p
    /\ WatchlistButton (watchlistItems p) dark true = Normal view
    /\ handleClick p dark "t1" = Normal p1
    /\ WatchlistButton (watchlistItems p1) dark true = Normal view1
    /\ handleClick p1 dark "t2" = Normal p2
    /\ aria_pressed view = false
    /\ aria_pressed view1 = true
    /\ watchlistItems p2 = watchlistItems p.
Proof.
  destruct (mount w42) as [p|] eqn:E; [|vm_compute in E; discriminate E].
  assert (Hitems : watchlistItems p = [item42])
    by (vm_compute in E; injection E as <-; reflexivity).
  destruct (click_toggles_the_movie p dark "t1" "t2" true)
    as (view & p1 & view1 & p2 & view2 & Hv & Hc1 & Hv1 & Hc2 & _ & Hp & _ & Hp1
        & _ & _ & Hback & _).
  - rewrite Hitems. apply List.Forall_cons; [exact I | apply List.Forall_nil].
  - reflexivity.
  - assert (Hf : aria_pressed view = false) by (rewrite Hp, Hitems; reflexivity).
    exists p, view, p1, view1, p2. split; [reflexivity|].
    split; [exact Hv|]. split; [exact Hc1|]. split; [exact Hv1|].
    split; [exact Hc2|]. split; [exact Hf|].
    split; [now rewrite Hp1, Hf | now apply Hback].
Defined.
